(** * back-forth: a verification development of the simulation core

    The game keeps every quantity in JavaScript numbers.  They are modelled
    here by exact numbers: the angles, speeds and scores of the rotating
    entities by rationals ([Q], executable), the colour channels by integers
    extended with NaN, and the coordinates of the collision detector, which
    takes a square root, by real numbers ([R]).  Rounding of IEEE doubles is
    outside this model, with one exception: where the range of an angle is
    stated, the rounding of [rotationDeg += 360] is taken into account
    ([Angle.normalize_rounded]). *)

From Stdlib Require Import List ZArith QArith Qabs Qminmax Qround Reals Psatz.
From Stdlib Require Import Bool String Ascii.
Import ListNotations.

(* ================================================================== *)
(** * Collision.js : the separating-axis detector *)
(* ================================================================== *)

Module Collision.
Local Open Scope R_scope.

(** A point or a vector, [{x: .., y: ..}]. *)
Record Point := mkPoint { px : R; py : R }.

(** The numbers [project] computes with: a real, or one of the two
    infinities its running minimum and maximum start from. *)
Inductive num := NegInfinity | Fin (r : R) | Infinity.

Definition num_lt (a b : num) : bool :=
  match a, b with
  | NegInfinity, NegInfinity => false
  | NegInfinity, _ => true
  | Fin _, NegInfinity => false
  | Fin u, Fin v => if Rlt_dec u v then true else false
  | Fin _, Infinity => true
  | Infinity, _ => false
  end.

Definition num_le (a b : num) : bool :=
  match a, b with
  | NegInfinity, _ => true
  | Fin _, NegInfinity => false
  | Fin u, Fin v => if Rle_dec u v then true else false
  | Fin _, Infinity => true
  | Infinity, Infinity => true
  | Infinity, _ => false
  end.

Definition num_gt (a b : num) : bool := num_lt b a.
Definition num_ge (a b : num) : bool := num_le b a.

(** The result of [project], [{min: .., max: ..}]. *)
Record Interval := mkInterval { min : num; max : num }.

(** [function Shape(points, x, y)]; [getMedians] fills a field no other
    function reads and is left out. *)
Record Shape := mkShape {
  x : R;
  y : R;
  points : list Point;
  normals : list Point
}.

Definition origin : Point := mkPoint 0 0.

(** [crt = p[i]] and [nxt = p[i + 1] || p[0]]. *)
Definition crt (p : list Point) (i : nat) : Point := nth i p origin.

Definition nxt (p : list Point) (i : nat) : Point :=
  match nth_error p (i + 1) with
  | Some q => q
  | None => nth 0 p origin
  end.

Definition x1 (p : list Point) (i : nat) : R := py (nxt p i) - py (crt p i).
Definition y1 (p : list Point) (i : nat) : R := - (px (nxt p i) - px (crt p i)).
Definition l (p : list Point) (i : nat) : R :=
  sqrt (x1 p i * x1 p i + y1 p i * y1 p i).

(** [Shape.prototype.getNormals]: slot [i] receives the normal of edge [i],
    slot [n + i] its opposite. *)
Definition getNormals (p : list Point) : list Point :=
  let n := List.length p in
  map (fun i => mkPoint (x1 p i / l p i) (y1 p i / l p i)) (seq 0 n) ++
  map (fun i => mkPoint (- x1 p i / l p i) (- y1 p i / l p i)) (seq 0 n).

(** [new Shape(points)]: [x] and [y] are absent and default to 0. *)
Definition newShape (pts : list Point) : Shape :=
  mkShape 0 0 pts (getNormals pts).

(** One round of the [forEach] of [Shape.prototype.project]. *)
Definition project_step (me : Shape) (vector : Point) (acc : Interval)
    (p : Point) : Interval :=
  let x := x me + px p in
  let y := y me + py p in
  let proj := x * px vector + y * py vector in
  mkInterval (if num_lt (Fin proj) (min acc) then Fin proj else min acc)
             (if num_gt (Fin proj) (max acc) then Fin proj else max acc).

(** [Shape.prototype.project]. *)
Definition project (me : Shape) (vector : Point) : Interval :=
  fold_left (project_step me vector) (points me)
            (mkInterval Infinity NegInfinity).

(** The test [checkCollision] applies to one axis. *)
Definition axis_test (me shape : Shape) (v : Point) : bool :=
  let p1 := project me v in
  let p2 := project shape v in
  (num_le (min p1) (max p2) && num_ge (max p1) (min p2)) ||
  (num_ge (min p2) (max p1) && num_ge (max p2) (min p1)).

(** [Shape.prototype.checkCollision]. *)
Definition checkCollision (me shape : Shape) : bool :=
  forallb (axis_test me shape) (normals me ++ normals shape).

(** [SATCollision(poly1, poly2)]. *)
Definition SATCollision (poly1 poly2 : list Point) : bool :=
  let s1 := newShape poly1 in
  let s2 := newShape poly2 in
  checkCollision s1 s2.

(** ** Vocabulary of the statements *)

(** The two projection intervals overlap or touch:
    [p1.min <= p2.max && p1.max >= p2.min]. *)
Definition overlap_or_touch (p1 p2 : Interval) : Prop :=
  num_le (min p1) (max p2) = true /\ num_ge (max p1) (min p2) = true.

(** Every edge of the polygon has a length different from zero. *)
Definition nonzero_edges (p : list Point) : Prop :=
  forall i, (i < List.length p)%nat -> l p i <> 0.

(** The opposite vector. *)
Definition opposite (v : Point) : Point := mkPoint (- px v) (- py v).



Definition num_opp (a : num) : num :=
  match a with
  | NegInfinity => Infinity
  | Fin r => Fin (- r)
  | Infinity => NegInfinity
  end.

(** The interval seen from the opposite axis. *)
Definition mirror (i : Interval) : Interval :=
  mkInterval (num_opp (max i)) (num_opp (min i)).

(** An interval with finite, ordered ends. *)
Definition proper (i : Interval) : Prop :=
  exists lo hi, min i = Fin lo /\ max i = Fin hi /\ lo <= hi.

(** Two triangles for the example: one at the origin, one moved by (2,2). *)
Definition triangle0 : list Point :=
  [mkPoint 0 0; mkPoint 1 0; mkPoint 0 1].
Definition triangle2 : list Point :=
  [mkPoint 2 2; mkPoint 3 2; mkPoint 2 3].

End Collision.

(* ================================================================== *)
(** * JavaScript numbers and values, as far as the game uses them *)
(* ================================================================== *)

Module JS.
Local Open Scope Q_scope.

(** Rounding toward zero. *)
Definition trunc (q : Q) : Z := Z.quot (Qnum q) (Zpos (Qden q)).

(** [a % b]: the remainder has the sign of [a].  (For [b = 0] JavaScript
    gives NaN; the game only divides by 360.) *)
Definition rem (a b : Q) : Q := a - b * inject_Z (trunc (a / b)).

Definition ltb (a b : Q) : bool := if Qlt_le_dec a b then true else false.
Definition gtb (a b : Q) : bool := ltb b a.

(** [a === b] on numbers. *)
Definition eqb (a b : Q) : bool := Qeq_bool a b.

(** [Math.sign]. *)
Definition sign (q : Q) : Q :=
  if ltb 0 q then 1 else if ltb q 0 then -1 else 0.

(** A number used as a condition: 0 is falsy. *)
Definition truthy (q : Q) : bool := negb (eqb q 0).

(** What a call can receive in the place of an object: one of the falsy
    values, or the object. *)
Inductive value (A : Type) : Type :=
| undefined | null | false_ | zero | NaN_ | empty_string
| object (a : A).
Arguments undefined {A}.
Arguments null {A}.
Arguments false_ {A}.
Arguments zero {A}.
Arguments NaN_ {A}.
Arguments empty_string {A}.
Arguments object {A} a.

(** [!v]. *)
Definition not {A} (v : value A) : bool :=
  match v with object _ => false | _ => true end.

(** How a call ends: with a value, or with [throw new Error(message)]. *)
Inductive completion (A : Type) : Type :=
| Return (a : A)
| Throw (message : string).
Arguments Return {A} a.
Arguments Throw {A} message.

(** [new Date()], as far as the arrows read it. *)
Record Date := mkDate { getMinutes : Z; getHours : Z }.

(** What a function does to the event system of kontra.js: [on(event, ..)]
    registers a listener, [emit(event, args)] calls the listeners of the
    event in the order of their registration. *)
Inductive effect :=
| On (event : string)
| Emit (event : string) (args : list Q).

End JS.

(* ================================================================== *)
(** * The angle arithmetic the arrows and the bug share *)
(* ================================================================== *)

Module Angle.
Local Open Scope Q_scope.

(** The first two statements of every [update]:
    [rotationDeg %= 360; if(rotationDeg<0) rotationDeg+=360], in exact
    arithmetic.  On doubles the remainder is exact and the sum is rounded:
    [normalize_rounded] below has the rounding, with which the result can
    be 360 itself, and the range of the angle is stated for it. *)
Definition normalize (rotationDeg : Q) : Q :=
  let rotationDeg := JS.rem rotationDeg 360 in
  if JS.ltb rotationDeg 0 then rotationDeg + 360 else rotationDeg.

(** [normalize] on doubles.  There [%] is exact, and the sum
    [rotationDeg + 360] is rounded to a double, which [fl] does. *)
Definition normalize_rounded (fl : Q -> Q) (rotationDeg : Q) : Q :=
  let rotationDeg := JS.rem rotationDeg 360 in
  if JS.ltb rotationDeg 0 then fl (rotationDeg + 360) else rotationDeg.

(** What the statements use of the rounding: it keeps the order, and 0
    and 360, which are doubles, stay as they are. *)
Definition rounding (fl : Q -> Q) : Prop :=
  (forall x y, x <= y -> fl x <= fl y) /\ fl 0 == 0 /\ fl 360 == 360.

(** The whole number nearest to [q], a tie going to the even one. *)
Definition nearest_whole (q : Q) : Z :=
  let n := Qfloor q in
  let d := q - inject_Z n in
  if JS.ltb d (1 # 2) then n
  else if JS.ltb (1 # 2) d then (n + 1)%Z
  else if Z.even n then n else (n + 1)%Z.

(** The multiple of 2^-44 nearest to [x]: the double nearest to [x] when
    [256 <= x < 512]. *)
Definition nearest_double (x : Q) : Q :=
  inject_Z (nearest_whole (x * inject_Z (2 ^ 44))) / inject_Z (2 ^ 44).

(** The statements of the game-over branch that move the angle, from
    [let shortest_dir = ...] to the second clamp; the [update] of the arrows
    and the [update] of the bug both spell them out, on their own
    [rotationDeg] and [idleDeg]. *)
Definition converge (rotationDeg idleDeg : Q) : Q :=
  let shortest_dir := JS.sign (idleDeg - rotationDeg) in
  let shortest_dir :=
    if JS.gtb (Qabs (idleDeg - rotationDeg)) 180
    then shortest_dir * -1 else shortest_dir in
  let rotationDeg :=
    if JS.gtb rotationDeg idleDeg then
      let rotationDeg := rotationDeg + shortest_dir * 2 in
      if JS.ltb rotationDeg idleDeg then idleDeg else rotationDeg
    else rotationDeg in
  if JS.ltb rotationDeg idleDeg then
    let rotationDeg := rotationDeg + shortest_dir * 2 in
    if JS.gtb rotationDeg idleDeg then idleDeg else rotationDeg
  else rotationDeg.

(** The distance of two angles on the circle, whatever turns they carry. *)
Definition arc (a b : Q) : Q :=
  let d := Qabs (normalize a - normalize b) in Qmin d (360 - d).

(** What one converging frame does to the angle: [r] is the angle the
    frame starts from (normalised), [idle] the target, [r'] the angle the
    frame leaves. *)
Definition converging_frame (r idle r' : Q) : Prop :=
  (Qabs (idle - r) <= 180 ->
     (Qabs (idle - r) <= 2 -> r' == idle) /\
     (2 <= Qabs (idle - r) ->
        Qabs (r' - r) == 2 /\ Qabs (idle - r') == Qabs (idle - r) - 2) /\
     Qabs (idle - r') <= Qabs (idle - r) /\
     (r <= r' <= idle \/ idle <= r' <= r)) /\
  (180 < Qabs (idle - r) <= 358 ->
     Qabs (r' - r) == 2 /\
     Qabs (idle - r') == Qabs (idle - r) + 2 /\
     360 - Qabs (idle - r') == 360 - Qabs (idle - r) - 2).

(** [x] is at least as close to [target] as [y] is. *)
Definition closer (target x y : Q) : Prop :=
  Qabs (x - target) <= Qabs (y - target).

End Angle.

(* ================================================================== *)
(** * Clock.js : the clock face *)
(* ================================================================== *)

Module Clock.
Local Open Scope Q_scope.

Record Sprite := mkClock {
  x : Q;
  y : Q;
  offset : Q * Q;
  offsetSpeed : option (Q * Q);
  offsetAcceleration : option (Q * Q);
  radius : Q;
  numbersRadius : Q;
  minRadius : Q;
  maxRadius : Q;
  scaleUp : bool;
  scaleSpeed : Q;
  scaleAcceleration : Q;
  hideNumbers : bool;
  numbersHidingSpeed : Q;
  numbersOpacity : Q
}.

(** The sprite as its literal describes it; the fields that are [null]
    there are 0 here, and [resize] and [reposition] fill them before the
    factory returns. *)
Definition literal : Sprite :=
  mkClock 0 0 (0, 0) None None 0 0 0 0 false 0 (8 # 100) false (1 / 25) 1.

(** [resize(radius)]: the new clock and the event it emits. *)
Definition resize (radius_ : Q) (this : Sprite) : Sprite * list JS.effect :=
  let maxRadius_ := radius_ * (15 # 10) in
  (mkClock (x this) (y this) (offset this) (offsetSpeed this)
           (offsetAcceleration this) radius_ (2 * radius_) radius_ maxRadius_
           (scaleUp this) ((maxRadius_ - radius_) / 30)
           (scaleAcceleration this) (hideNumbers this)
           (numbersHidingSpeed this) (numbersOpacity this),
   [JS.Emit "clock_resize" [radius_]]).

(** [reposition(x, y)]; [x || 0] is [x] on numbers. *)
Definition reposition (x_ y_ : Q) (this : Sprite) : Sprite * list JS.effect :=
  (mkClock x_ y_ (offset this) (offsetSpeed this) (offsetAcceleration this)
           (radius this) (numbersRadius this) (minRadius this)
           (maxRadius this) (scaleUp this) (scaleSpeed this)
           (scaleAcceleration this) (hideNumbers this)
           (numbersHidingSpeed this) (numbersOpacity this),
   [JS.Emit "clock_reposition" [x_; y_]]).

Definition set_numbersOpacity (v : Q) (c : Sprite) : Sprite :=
  mkClock (x c) (y c) (offset c) (offsetSpeed c) (offsetAcceleration c)
          (radius c) (numbersRadius c) (minRadius c) (maxRadius c)
          (scaleUp c) (scaleSpeed c) (scaleAcceleration c) (hideNumbers c)
          (numbersHidingSpeed c) v.
Definition set_radius (v : Q) (c : Sprite) : Sprite :=
  mkClock (x c) (y c) (offset c) (offsetSpeed c) (offsetAcceleration c)
          v (numbersRadius c) (minRadius c) (maxRadius c)
          (scaleUp c) (scaleSpeed c) (scaleAcceleration c) (hideNumbers c)
          (numbersHidingSpeed c) (numbersOpacity c).
Definition set_scaleSpeed (v : Q) (c : Sprite) : Sprite :=
  mkClock (x c) (y c) (offset c) (offsetSpeed c) (offsetAcceleration c)
          (radius c) (numbersRadius c) (minRadius c) (maxRadius c)
          (scaleUp c) v (scaleAcceleration c) (hideNumbers c)
          (numbersHidingSpeed c) (numbersOpacity c).
Definition set_numbersRadius (v : Q) (c : Sprite) : Sprite :=
  mkClock (x c) (y c) (offset c) (offsetSpeed c) (offsetAcceleration c)
          (radius c) v (minRadius c) (maxRadius c)
          (scaleUp c) (scaleSpeed c) (scaleAcceleration c) (hideNumbers c)
          (numbersHidingSpeed c) (numbersOpacity c).
Definition set_offsets (o : Q * Q) (sp ac : option (Q * Q)) (c : Sprite)
  : Sprite :=
  mkClock (x c) (y c) o sp ac
          (radius c) (numbersRadius c) (minRadius c) (maxRadius c)
          (scaleUp c) (scaleSpeed c) (scaleAcceleration c) (hideNumbers c)
          (numbersHidingSpeed c) (numbersOpacity c).
Definition set_scaleUp_hideNumbers (up hide : bool) (c : Sprite) : Sprite :=
  mkClock (x c) (y c) (offset c) (offsetSpeed c) (offsetAcceleration c)
          (radius c) (numbersRadius c) (minRadius c) (maxRadius c)
          up (scaleSpeed c) (scaleAcceleration c) hide
          (numbersHidingSpeed c) (numbersOpacity c).

(** [update()]: the new clock and the events it emits.  The knock-back
    runs while [offsetSpeed] is set; its listener of [bug_hitground], which
    takes a sine and a cosine, is not part of this model, and nothing in the
    game emits that event. *)
Definition update (this : Sprite) : Sprite * list JS.effect :=
  let this :=
    if hideNumbers this then
      if JS.gtb (numbersOpacity this) 0 then
        let this :=
          set_numbersOpacity (numbersOpacity this - numbersHidingSpeed this)
                             this in
        if JS.ltb (numbersOpacity this) 0 then set_numbersOpacity 0 this
        else this
      else this
    else
      if JS.ltb (numbersOpacity this) 1 then
        let this :=
          set_numbersOpacity (numbersOpacity this + numbersHidingSpeed this)
                             this in
        if JS.gtb (numbersOpacity this) 1 then set_numbersOpacity 1 this
        else this
      else this in
  let '(this, emitted) :=
    if scaleUp this then
      if JS.ltb (radius this) (maxRadius this) then
        let this := set_radius (radius this + scaleSpeed this) this in
        let this :=
          if JS.gtb (radius this) (maxRadius this)
          then set_scaleSpeed 1 (set_radius (maxRadius this) this)
          else this in
        let this := set_numbersRadius (2 * radius this) this in
        (this, [JS.Emit "clock_resize" [radius this]])
      else (this, [])
    else
      if JS.gtb (radius this) (minRadius this) then
        let this := set_radius (radius this - scaleSpeed this) this in
        let this :=
          if JS.ltb (radius this) (minRadius this)
          then set_scaleSpeed 1 (set_radius (minRadius this) this)
          else this in
        let this := set_numbersRadius (2 * radius this) this in
        (this, [JS.Emit "clock_resize" [radius this]])
      else (this, []) in
  let this :=
    match offsetSpeed this, offsetAcceleration this with
    | Some (sx, sy), Some (ax, ay) =>
        let before := (JS.sign (fst (offset this)), JS.sign (snd (offset this))) in
        let o := (fst (offset this) + sx, snd (offset this) + sy) in
        let sp := (sx + ax, sy + ay) in
        let after := (JS.sign (fst o), JS.sign (snd o)) in
        if JS.eqb (-1 * fst before) (fst after) ||
           JS.eqb (-1 * snd before) (snd after)
        then set_offsets (0, 0) None None this
        else set_offsets o (Some sp) (Some (ax, ay)) this
    | _, _ => this
    end in
  (this, emitted).

(** [Clock(game, x, y, radius = 100)].  The function never reads [game]
    while it builds the sprite (only [draw] does), and it has no test of
    it. *)
Definition Clock {G : Type} (game : JS.value G) (x_ y_ : Q)
    (radius_ : option Q) : JS.completion Sprite * list JS.effect :=
  let radius_ := match radius_ with Some r => r | None => 100 end in
  let '(clock, e1) := resize radius_ literal in
  let '(clock, e2) := reposition x_ y_ clock in
  (JS.Return clock, JS.On "bug_hitground" :: e1 ++ e2).

End Clock.

(* ================================================================== *)
(** * ScoreBar.js : the score *)
(* ================================================================== *)

Module ScoreBar.
Local Open Scope Q_scope.

(** The two texts the bar draws are left out. *)
Record Sprite := mkScoreBar {
  x : Q;
  y : Q;
  size : Q;
  score : Z;
  hiScore : Z
}.

(** The part of the owning game the factory reads. *)
Record Game := mkGame { clock : Clock.Sprite }.

(** The listeners of [clock_reposition] and [clock_resize]. *)
Definition defPosition (x_ y_ : Q) (scoreBar : Sprite) : Sprite :=
  mkScoreBar x_ y_ (size scoreBar) (score scoreBar) (hiScore scoreBar).
Definition defSize (radius : Q) (scoreBar : Sprite) : Sprite :=
  mkScoreBar (x scoreBar) (y scoreBar) (radius / 2) (score scoreBar)
             (hiScore scoreBar).

(** [ScoreBar(game)]; [stored] is [getStoreItem("hiScore")]. *)
Definition ScoreBar (game : JS.value Game) (stored : option Z)
  : JS.completion Sprite * list JS.effect :=
  match game with
  | JS.object game =>
      let scoreBar := mkScoreBar 0 0 0 0 0 in
      let scoreBar := defSize (Clock.radius (clock game)) scoreBar in
      let scoreBar :=
        defPosition (Clock.x (clock game)) (Clock.y (clock game)) scoreBar in
      let scoreBar :=
        mkScoreBar (x scoreBar) (y scoreBar) (size scoreBar) (score scoreBar)
                   (match stored with
                    | Some h => if (h =? 0)%Z then 0%Z else h
                    | None => 0%Z
                    end) in
      (JS.Return scoreBar, [JS.On "clock_reposition"; JS.On "clock_resize"])
  | _ => (JS.Throw "game is not defined", [])
  end.

(** [update]; [gameOver] is [game.gameOver]. *)
Definition update (gameOver : bool) (this : Sprite) : Sprite :=
  if gameOver
  then mkScoreBar (x this) (y this) (size this) 0 (hiScore this)
  else this.

(** [add(earned)], up to the [emit]: the new bar and the score it
    publishes with [scorebar_add]. *)
Definition add (earned : Z) (this : Sprite) : Sprite * Z :=
  let score_ := (score this + earned)%Z in
  let hiScore_ := if (hiScore this <? score_)%Z then score_ else hiScore this in
  (mkScoreBar (x this) (y this) (size this) score_ hiScore_, score_).

End ScoreBar.

(* ================================================================== *)
(** * Arrows.js : the two clock hands *)
(* ================================================================== *)

Module Arrows.
Local Open Scope Q_scope.

(** The factory builds two sprites; they share every method but
    [updateIdleDeg]. *)
Inductive Name := arrow1 | arrow2.

(** [rotation] is kept in degrees: it stands for
    [2*Math.PI*rotation/360]. *)
Record Sprite := mkArrow {
  name : Name;
  x : Q;
  y : Q;
  width : Q;
  height : Q;
  rotationDeg : Q;
  rotationSpeed : Q;
  idleDeg : Q;
  idleDirection : Q;
  direction : Q;
  rotation : Q
}.

Definition set_rotationDeg (v : Q) (a : Sprite) : Sprite :=
  mkArrow (name a) (x a) (y a) (width a) (height a) v (rotationSpeed a)
          (idleDeg a) (idleDirection a) (direction a) (rotation a).
Definition set_rotationSpeed (v : Q) (a : Sprite) : Sprite :=
  mkArrow (name a) (x a) (y a) (width a) (height a) (rotationDeg a) v
          (idleDeg a) (idleDirection a) (direction a) (rotation a).
Definition set_idleDeg (v : Q) (a : Sprite) : Sprite :=
  mkArrow (name a) (x a) (y a) (width a) (height a) (rotationDeg a)
          (rotationSpeed a) v (idleDirection a) (direction a) (rotation a).
Definition set_direction (v : Q) (a : Sprite) : Sprite :=
  mkArrow (name a) (x a) (y a) (width a) (height a) (rotationDeg a)
          (rotationSpeed a) (idleDeg a) (idleDirection a) v (rotation a).
Definition set_rotation (v : Q) (a : Sprite) : Sprite :=
  mkArrow (name a) (x a) (y a) (width a) (height a) (rotationDeg a)
          (rotationSpeed a) (idleDeg a) (idleDirection a) (direction a) v.

(** The part of the owning game the factory reads. *)
Record Game := mkGame { clock : Clock.Sprite }.

(** The listeners of [clock_reposition] and [clock_resize], on one of the
    two sprites. *)
Definition defPosition (x_ y_ : Q) (a : Sprite) : Sprite :=
  mkArrow (name a) x_ y_ (width a) (height a) (rotationDeg a)
          (rotationSpeed a) (idleDeg a) (idleDirection a) (direction a)
          (rotation a).
Definition defSize (radius : Q) (a : Sprite) : Sprite :=
  mkArrow (name a) (x a) (y a) (radius / 4)
          (match name a with
           | arrow1 => radius * (14 # 10)
           | arrow2 => radius * (13 # 10)
           end)
          (rotationDeg a) (rotationSpeed a) (idleDeg a) (idleDirection a)
          (direction a) (rotation a).

(** [randomDirectionChange]; [random] is the value of [Math.random()]. *)
Definition randomDirectionChange (random : Q) (this : Sprite) : Sprite :=
  let a := if JS.gtb random (5 # 10) then direction this
           else -1 * direction this in
  set_direction a this.

(** [updateIdleDeg] of [arrow1] (the minute hand) and of [arrow2] (the
    hour hand); [now] is the value of [new Date()]. *)
Definition updateIdleDeg (now : JS.Date) (this : Sprite) : Sprite :=
  match name this with
  | arrow1 =>
      let mins := inject_Z (JS.getMinutes now) in
      let minsAngle := 360 / 60 * mins in
      set_idleDeg minsAngle this
  | arrow2 =>
      let mins := inject_Z (JS.getMinutes now) in
      let hours := inject_Z (Z.rem (JS.getHours now) 12) in
      let hoursAngle := 360 / 12 * hours + 360 / 60 / 12 * mins in
      set_idleDeg hoursAngle this
  end.

(** [update]; [gameOver] is [game.gameOver].  The statements that bring
    the angle into range and those that move it toward [idleDeg] are
    [Angle.normalize] and [Angle.converge]. *)
Definition update (gameOver : bool) (now : JS.Date) (this : Sprite) : Sprite :=
  let this := set_rotationDeg (Angle.normalize (rotationDeg this)) this in
  let this := set_rotation (rotationDeg this) this in
  if gameOver then
    let this := updateIdleDeg now this in
    let this := set_rotationSpeed 1 this in
    let this := set_direction (idleDirection this) this in
    set_rotationDeg (Angle.converge (rotationDeg this) (idleDeg this)) this
  else
    set_rotationDeg (rotationDeg this + rotationSpeed this * direction this) this.

(** The two sprites as the literals describe them ([null] fields are 0
    until the factory fills them). *)
Definition literal1 : Sprite := mkArrow arrow1 0 0 0 0 0 1 0 1 1 0.
Definition literal2 : Sprite := mkArrow arrow2 0 0 0 0 0 (18 # 10) 0 (-1) (-1) 0.

(** [Arrows(game)]; [now] is the value of [new Date()]. *)
Definition Arrows (game : JS.value Game) (now : JS.Date)
  : JS.completion (Sprite * Sprite) * list JS.effect :=
  match game with
  | JS.object game =>
      let size_and_place a :=
        defPosition (Clock.x (clock game)) (Clock.y (clock game))
                    (defSize (Clock.radius (clock game)) a) in
      let a1 := updateIdleDeg now (size_and_place literal1) in
      let a2 := updateIdleDeg now (size_and_place literal2) in
      let a1 := set_rotationDeg (idleDeg a1) a1 in
      let a2 := set_rotationDeg (idleDeg a2) a2 in
      (JS.Return (a1, a2), [JS.On "clock_reposition"; JS.On "clock_resize"])
  | _ => (JS.Throw "game is not defined", [])
  end.

End Arrows.

(* ================================================================== *)
(** * Bug.js : the creature *)
(* ================================================================== *)

Module Bug.
Local Open Scope Q_scope.

Inductive State := idle | jump_.

Record Sprite := mkBug {
  x : Q;
  y : Q;
  width : Q;
  height : Q;
  groundedAnchorY : Q;
  anchor_y : Q;
  currentState : State;
  rotationDeg : Q;
  idleDeg : Q;
  direction : Q;
  rotationSpeed : Q;
  isFlying : Z;
  gravity : Q;
  jumpSpeed : Q;
  wereOverArrow : bool;
  rotation : Q
}.

Definition set_rotationDeg (v : Q) (b : Sprite) : Sprite :=
  mkBug (x b) (y b) (width b) (height b) (groundedAnchorY b) (anchor_y b)
        (currentState b) v (idleDeg b) (direction b) (rotationSpeed b)
        (isFlying b) (gravity b) (jumpSpeed b) (wereOverArrow b) (rotation b).
Definition set_idleDeg (v : Q) (b : Sprite) : Sprite :=
  mkBug (x b) (y b) (width b) (height b) (groundedAnchorY b) (anchor_y b)
        (currentState b) (rotationDeg b) v (direction b) (rotationSpeed b)
        (isFlying b) (gravity b) (jumpSpeed b) (wereOverArrow b) (rotation b).
Definition set_rotation (v : Q) (b : Sprite) : Sprite :=
  mkBug (x b) (y b) (width b) (height b) (groundedAnchorY b) (anchor_y b)
        (currentState b) (rotationDeg b) (idleDeg b) (direction b)
        (rotationSpeed b) (isFlying b) (gravity b) (jumpSpeed b)
        (wereOverArrow b) v.
Definition set_currentState (v : State) (b : Sprite) : Sprite :=
  mkBug (x b) (y b) (width b) (height b) (groundedAnchorY b) (anchor_y b)
        v (rotationDeg b) (idleDeg b) (direction b) (rotationSpeed b)
        (isFlying b) (gravity b) (jumpSpeed b) (wereOverArrow b) (rotation b).
Definition set_direction (v : Q) (b : Sprite) : Sprite :=
  mkBug (x b) (y b) (width b) (height b) (groundedAnchorY b) (anchor_y b)
        (currentState b) (rotationDeg b) (idleDeg b) v (rotationSpeed b)
        (isFlying b) (gravity b) (jumpSpeed b) (wereOverArrow b) (rotation b).
Definition set_jumpSpeed (v : Q) (b : Sprite) : Sprite :=
  mkBug (x b) (y b) (width b) (height b) (groundedAnchorY b) (anchor_y b)
        (currentState b) (rotationDeg b) (idleDeg b) (direction b)
        (rotationSpeed b) (isFlying b) (gravity b) v (wereOverArrow b)
        (rotation b).
Definition set_anchor_y (v : Q) (b : Sprite) : Sprite :=
  mkBug (x b) (y b) (width b) (height b) (groundedAnchorY b) v
        (currentState b) (rotationDeg b) (idleDeg b) (direction b)
        (rotationSpeed b) (isFlying b) (gravity b) (jumpSpeed b)
        (wereOverArrow b) (rotation b).
Definition set_isFlying (v : Z) (b : Sprite) : Sprite :=
  mkBug (x b) (y b) (width b) (height b) (groundedAnchorY b) (anchor_y b)
        (currentState b) (rotationDeg b) (idleDeg b) (direction b)
        (rotationSpeed b) v (gravity b) (jumpSpeed b) (wereOverArrow b)
        (rotation b).
Definition set_wereOverArrow (v : bool) (b : Sprite) : Sprite :=
  mkBug (x b) (y b) (width b) (height b) (groundedAnchorY b) (anchor_y b)
        (currentState b) (rotationDeg b) (idleDeg b) (direction b)
        (rotationSpeed b) (isFlying b) (gravity b) (jumpSpeed b) v
        (rotation b).

(** The part of the owning game the bug reads. *)
Record Game := mkGame {
  gameOver : bool;
  clock : Clock.Sprite;
  arrow1 : Arrows.Sprite;
  arrow2 : Arrows.Sprite
}.

(** The listeners of [clock_reposition] and [clock_resize]. *)
Definition defPosition (x_ y_ : Q) (b : Sprite) : Sprite :=
  mkBug x_ y_ (width b) (height b) (groundedAnchorY b) (anchor_y b)
        (currentState b) (rotationDeg b) (idleDeg b) (direction b)
        (rotationSpeed b) (isFlying b) (gravity b) (jumpSpeed b)
        (wereOverArrow b) (rotation b).
Definition defSize (radius : Q) (b : Sprite) : Sprite :=
  let size := (14 # 10) * radius / 4 in
  let groundedAnchorY_ := (size + radius) / size in
  mkBug (x b) (y b) size size groundedAnchorY_
        (if (isFlying b =? 0)%Z then groundedAnchorY_ else anchor_y b)
        (currentState b) (rotationDeg b) (idleDeg b) (direction b)
        (rotationSpeed b) (isFlying b) (gravity b) (jumpSpeed b)
        (wereOverArrow b) (rotation b).

(** [isOverArrow]: the arrows pushed on [res], in order. *)
Definition isOverArrow (game : Game) (this : Sprite) : list Arrows.Sprite :=
  let speed := Qmax (Arrows.rotationSpeed (arrow1 game))
                    (Arrows.rotationSpeed (arrow2 game)) + rotationSpeed this in
  if negb (isFlying this =? 0)%Z then
    filter (fun arrow =>
              JS.gtb (Arrows.rotationDeg arrow) (rotationDeg this - speed) &&
              JS.ltb (Arrows.rotationDeg arrow) (rotationDeg this + speed))
           [arrow1 game; arrow2 game]
  else [].

(** [updateIdleDeg]. *)
Definition updateIdleDeg (game : Game) (this : Sprite) : Sprite :=
  let arrow1_ := Arrows.idleDeg (arrow1 game) in
  let arrow2_ := Arrows.idleDeg (arrow2 game) in
  let p1 := Qmin arrow1_ arrow2_ + Qabs (arrow1_ - arrow2_) / 2 in
  let p2 := p1 + 180 in
  let p1 := JS.rem p1 360 in
  let p2 := JS.rem p2 360 in
  if JS.gtb (Qabs (p1 - Arrows.idleDeg (arrow1 game)))
            (Qabs (p2 - Arrows.idleDeg (arrow1 game)))
  then set_idleDeg p1 this
  else set_idleDeg p2 this.

(** The first part of [update]: the angle.  The statements that bring the
    angle into range and those that move it toward [idleDeg] are
    [Angle.normalize] and [Angle.converge]; the two calls that only advance
    the sprite animation are left out. *)
Definition update_angle (game : Game) (this : Sprite) : Sprite :=
  let this := set_rotationDeg (Angle.normalize (rotationDeg this)) this in
  let this := set_rotation (rotationDeg this) this in
  if gameOver game then
    let this := updateIdleDeg game this in
    let this :=
      set_rotationDeg (Angle.converge (rotationDeg this) (idleDeg this))
                      this in
    if JS.eqb (rotationDeg this) (idleDeg this)
    then set_direction 1 (set_currentState idle this)
    else this
  else
    set_rotationDeg (rotationDeg this + rotationSpeed this * direction this)
                    this.

(** The second part of [update]: the jump, up to the landing test. *)
Definition update_jump (game : Game) (this : Sprite) : Sprite :=
  let this := if JS.truthy (jumpSpeed this)
              then set_jumpSpeed (jumpSpeed this + gravity this) this
              else this in
  let this := set_anchor_y (anchor_y this + jumpSpeed this) this in
  if JS.ltb (anchor_y this) (groundedAnchorY this) then
    let this := set_anchor_y (groundedAnchorY this) this in
    let this := set_jumpSpeed 0 this in
    let this := set_isFlying 0 this in
    if negb (gameOver game) then set_currentState idle this else this
  else this.

(** [update] up to the call of [isOverArrow]. *)
Definition update_motion (game : Game) (this : Sprite) : Sprite :=
  update_jump game (update_angle game this).

(** The arrows under the bug in a frame: what [update] gets from its
    call of [isOverArrow]. *)
Definition under (game : Game) (this : Sprite) : list Arrows.Sprite :=
  isOverArrow game (update_motion game this).

(** The last part of [update]: the arrows under the bug, the
    [bug_overarrow] events emitted (one argument each), and the flag. *)
Definition update_overarrow (game : Game) (this : Sprite)
  : Sprite * list Arrows.Sprite :=
  let arrows := isOverArrow game this in
  if negb (Nat.eqb (List.length arrows) 0) then
    let emitted := if negb (wereOverArrow this) then arrows else [] in
    (set_wereOverArrow true this, emitted)
  else
    (set_wereOverArrow false this, []).

(** [update]: the new state and the [bug_overarrow] events of the frame. *)
Definition update (game : Game) (this : Sprite) : Sprite * list Arrows.Sprite :=
  update_overarrow game (update_motion game this).

(** [jump]; the sound is not part of the state. *)
Definition jump (this : Sprite) : Sprite :=
  if (isFlying this <? 2)%Z then
    let this := set_currentState jump_ this in
    let this := set_jumpSpeed (1 # 10) this in
    set_isFlying (isFlying this + 1) this
  else this.

Definition die (this : Sprite) : Sprite := set_currentState idle this.

Definition switchDirection (this : Sprite) : Sprite :=
  set_direction (direction this * -1) this.

Definition directionToString (this : Sprite) : string :=
  if JS.eqb (direction this) (-1) then "left"%string else "right"%string.

(** The sprite as the literal describes it ([null] fields are 0 until the
    factory fills them). *)
Definition literal : Sprite :=
  mkBug 0 0 0 0 0 0 idle 0 0 1 1 0 (-45 # 10000) 0 false 0.

(** [Bug(game, animations)]. *)
Definition Bug (game : JS.value Game)
  : JS.completion Sprite * list JS.effect :=
  match game with
  | JS.object game =>
      let bug := defSize (Clock.radius (clock game)) literal in
      let bug := defPosition (Clock.x (clock game)) (Clock.y (clock game)) bug in
      let bug := updateIdleDeg game bug in
      (JS.Return bug, [JS.On "clock_reposition"; JS.On "clock_resize"])
  | _ => (JS.Throw "game is not defined", [])
  end.

End Bug.

(* ================================================================== *)
(** * ColorSchemes.js : the colour transitions *)
(* ================================================================== *)

Module ColorSchemes.
Local Open Scope string_scope.
Local Open Scope Z_scope.

(** A colour channel: the result of [parseInt], an integer or NaN. *)
Inductive num := NaN | Int (z : Z).

Definition code (c : ascii) : Z := Z.of_nat (nat_of_ascii c).

(** The value of a character as a digit in base 16. *)
Definition digit_value (c : ascii) : option Z :=
  let n := code c in
  if (48 <=? n) && (n <=? 57) then Some (n - 48)
  else if (97 <=? n) && (n <=? 102) then Some (n - 87)
  else if (65 <=? n) && (n <=? 70) then Some (n - 55)
  else None.

(** White space that [parseInt] skips (the ASCII part of it). *)
Definition is_white (c : ascii) : bool :=
  let n := code c in
  ((9 <=? n) && (n <=? 13)) || (n =? 32).

Fixpoint skip_white (s : string) : string :=
  match s with
  | String c s' => if is_white c then skip_white s' else s
  | EmptyString => s
  end.

(** The longest prefix of digits, read in base 16; [None] without one. *)
Fixpoint digits (s : string) (acc : option Z) : option Z :=
  match s with
  | String c s' =>
      match digit_value c with
      | Some d =>
          digits s' (Some (16 * match acc with Some a => a | None => 0 end + d))
      | None => acc
      end
  | EmptyString => acc
  end.

Definition strip_0x (s : string) : string :=
  match s with
  | String "0" (String "x" s') => s'
  | String "0" (String "X" s') => s'
  | _ => s
  end.

(** [parseInt(s, 16)]. *)
Definition parseInt16 (s : string) : num :=
  let s := skip_white s in
  let '(sign, s) :=
    match s with
    | String "-" s' => (-1, s')
    | String "+" s' => (1, s')
    | _ => (1, s)
    end in
  match digits (strip_0x s) None with
  | Some v => Int (sign * v)
  | None => NaN
  end.

(** [s.slice(i, j)] for [0 <= i <= j]. *)
Definition slice (i j : nat) (s : string) : string := substring i (j - i) s.

Definition hex_digit (d : Z) : ascii :=
  ascii_of_nat (Z.to_nat (if d <? 10 then 48 + d else 87 + d)).

Fixpoint hex_of (fuel : nat) (n : Z) (acc : string) : string :=
  match fuel with
  | O => acc
  | S k =>
      let acc := String (hex_digit (n mod 16)) acc in
      if n / 16 =? 0 then acc else hex_of k (n / 16) acc
  end.

(** [v.toString(16)]. *)
Definition toString16 (v : num) : string :=
  match v with
  | NaN => "NaN"
  | Int z =>
      if z <? 0
      then "-" ++ hex_of (S (Z.to_nat (Z.log2 (- z)))) (- z) ""
      else hex_of (S (Z.to_nat (Z.log2 z))) z ""
  end.

(** Arithmetic and comparisons on channels; NaN spreads through the
    arithmetic and makes every comparison false. *)
Definition sub (a b : num) : num :=
  match a, b with Int x, Int y => Int (x - y) | _, _ => NaN end.
Definition add (a b : num) : num :=
  match a, b with Int x, Int y => Int (x + y) | _, _ => NaN end.
Definition mul (a b : num) : num :=
  match a, b with Int x, Int y => Int (x * y) | _, _ => NaN end.
Definition sign (a : num) : num :=
  match a with Int x => Int (Z.sgn x) | NaN => NaN end.
Definition lt (a b : num) : bool :=
  match a, b with Int x, Int y => x <? y | _, _ => false end.
Definition gt (a b : num) : bool := lt b a.
Definition eq (a b : num) : bool :=
  match a, b with Int x, Int y => x =? y | _, _ => false end.

(** What [next()] of a generator gives: [{value: v, done: false}] at a
    [yield], [{value: undefined, done: true}] at the end. *)
Inductive IterResult (A : Type) : Type :=
| Yield (value : A)
| Done.
Arguments Yield {A} value.
Arguments Done {A}.

(** The state of a suspended [transitionColor]: the arrays [f], [t] and
    [done], and whether the function has returned. *)
Record ColorGen := mkColorGen {
  f : num * num * num;
  t : num * num * num;
  done : bool * bool * bool;
  returned : bool
}.

Definition step : Z := 2.

(** One round of the inner [for], on channel [i]. *)
Definition channel (fi ti : num) (donei : bool) : num * bool :=
  let dir := sign (sub ti fi) in
  let fi := add fi (mul (Int step) dir) in
  let fi := if eq dir (Int (-1)) then (if lt fi ti then ti else fi) else fi in
  let fi := if eq dir (Int 1) then (if gt fi ti then ti else fi) else fi in
  let donei := if eq dir (Int 0) then true else donei in
  (fi, donei).

Definition pad (r : string) : string :=
  if Nat.eqb (String.length r) 1 then "0" ++ r else r.

(** [transitionColor(from, to)]: the generator before its first [next()].
    The two colours are read here; the source reads them at the first
    [next()], from the same strings. *)
Definition transitionColor (from to : string) : ColorGen :=
  mkColorGen
    (parseInt16 (slice 1 3 from), parseInt16 (slice 3 5 from),
     parseInt16 (slice 5 7 from))
    (parseInt16 (slice 1 3 to), parseInt16 (slice 3 5 to),
     parseInt16 (slice 5 7 to))
    (false, false, false)
    false.

(** [next()] on a [transitionColor] generator. *)
Definition next (g : ColorGen) : IterResult string * ColorGen :=
  if returned g then (Done, g)
  else
    let '(f0, f1, f2) := f g in
    let '(t0, t1, t2) := t g in
    let '(d0, d1, d2) := done g in
    if negb d0 || negb d1 || negb d2 then
      let '(f0, d0) := channel f0 t0 d0 in
      let '(f1, d1) := channel f1 t1 d1 in
      let '(f2, d2) := channel f2 t2 d2 in
      let r := pad (toString16 f0) in
      let g_ := pad (toString16 f1) in
      let b := pad (toString16 f2) in
      (Yield ("#" ++ r ++ g_ ++ b),
       mkColorGen (f0, f1, f2) (t0, t1, t2) (d0, d1, d2) false)
    else
      (Done, mkColorGen (f0, f1, f2) (t0, t1, t2) (d0, d1, d2) true).

(** The values a generator yields until it is done, when that takes at
    most [fuel] calls of [next()]. *)
Fixpoint drain (fuel : nat) (g : ColorGen) : option (list string) :=
  match fuel with
  | O => None
  | S k =>
      match next g with
      | (Yield v, g') =>
          match drain k g' with
          | Some vs => Some (v :: vs)
          | None => None
          end
      | (Done, _) => Some []
      end
  end.

(** The generator after [n] calls of [next()]. *)
Fixpoint after (n : nat) (g : ColorGen) : ColorGen :=
  match n with
  | O => g
  | S k => after k (snd (next g))
  end.

Record ColorScheme := mkColorScheme {
  background : string;
  scorebar : string;
  arrows : string;
  clock : string;
  numbers : string
}.

Definition b : string := "#000000".
Definition w : string := "#ffffff".

(** [new ColorScheme(background)]: the other roles take their defaults. *)
Definition newColorScheme (background : string) : ColorScheme :=
  mkColorScheme background w b b b.

Definition blue := newColorScheme "#0260E8".
Definition green := newColorScheme "#41B619".
Definition yellow := newColorScheme "#FFD600".
Definition red := newColorScheme "#F6522E".
Definition violet := newColorScheme "#6E36CA".
Definition complete_darkness := mkColorScheme "#000000" "#000000" b b b.

Definition pool : list ColorScheme :=
  [complete_darkness; blue; green; yellow; violet; red].

Definition length : Z := Z.of_nat (List.length pool).

(** [ColorSchemes.get(index)], a copy of [pool[index]].  Outside the pool
    the source copies [undefined] into a scheme without roles; the game
    never asks for one, and it is [None] here. *)
Definition get (index : Z) : option ColorScheme :=
  if index <? 0 then None else nth_error pool (Z.to_nat index).

(** The state of a suspended [transitionColorScheme]. *)
Record SchemeGen := mkSchemeGen {
  gen_background : ColorGen;
  gen_scorebar : ColorGen;
  gen_arrows : ColorGen;
  gen_clock : ColorGen;
  gen_numbers : ColorGen;
  colorScheme : ColorScheme;
  scheme_returned : bool
}.

Definition transitionColorScheme (from to : ColorScheme) : SchemeGen :=
  mkSchemeGen
    (transitionColor (background from) (background to))
    (transitionColor (scorebar from) (scorebar to))
    (transitionColor (arrows from) (arrows to))
    (transitionColor (clock from) (clock to))
    (transitionColor (numbers from) (numbers to))
    from
    false.

(** A string used as a condition: the empty string is falsy. *)
Definition truthy (s : string) : bool := negb (Nat.eqb (String.length s) 0).

(** One round of the [for ... of Object.keys(colorScheme)]: the new
    generator, the new colour of the role and the new [done]. *)
Definition role (g : ColorGen) (old : string) (done_ : bool)
  : ColorGen * string * bool :=
  match next g with
  | (Yield v, g') =>
      (g', if truthy v then v else old, if truthy v then false else done_)
  | (Done, g') => (g', old, done_)
  end.

(** [next()] on a [transitionColorScheme] generator. *)
Definition next_scheme (s : SchemeGen)
  : IterResult ColorScheme * SchemeGen :=
  if scheme_returned s then (Done, s)
  else
    let done_ := true in
    let '(g1, c1, done_) :=
      role (gen_background s) (background (colorScheme s)) done_ in
    let '(g2, c2, done_) :=
      role (gen_scorebar s) (scorebar (colorScheme s)) done_ in
    let '(g3, c3, done_) :=
      role (gen_arrows s) (arrows (colorScheme s)) done_ in
    let '(g4, c4, done_) :=
      role (gen_clock s) (clock (colorScheme s)) done_ in
    let '(g5, c5, done_) :=
      role (gen_numbers s) (numbers (colorScheme s)) done_ in
    let cs := mkColorScheme c1 c2 c3 c4 c5 in
    if done_ then (Done, mkSchemeGen g1 g2 g3 g4 g5 cs true)
    else (Yield cs, mkSchemeGen g1 g2 g3 g4 g5 cs false).

(** [ColorSchemes.transition(index1, index2)]. *)
Definition transition (index1 index2 : Z) : option SchemeGen :=
  match get index1, get index2 with
  | Some scheme1, Some scheme2 => Some (transitionColorScheme scheme1 scheme2)
  | _, _ => None
  end.

(** ** Vocabulary of the statements *)

(** The three channels of a colour, as [transitionColor] reads them. *)
Definition channels (colour : string) : num * num * num :=
  (parseInt16 (slice 1 3 colour), parseInt16 (slice 3 5 colour),
   parseInt16 (slice 5 7 colour)).

(** One step of a channel toward its target: by [step], not past the
    target. *)
Definition toward (target current : Z) : Z :=
  if current <? target then Z.min (current + step) target
  else if target <? current then Z.max (current - step) target
  else current.

(** Every value has each channel one step further toward [target] than
    the value before it; [previous] are the channels before the first. *)
Fixpoint follows (target previous : Z * Z * Z) (values : list string) : bool :=
  match values with
  | [] => true
  | v :: rest =>
      let '(tr, tg, tb) := target in
      let '(pr, pg, pb) := previous in
      match channels v with
      | (Int r, Int g_, Int b_) =>
          (r =? toward tr pr) && (g_ =? toward tg pg) &&
          (b_ =? toward tb pb) && follows target (r, g_, b_) rest
      | _ => false
      end
  end.

(** [x] lies between [p] and [q], whichever is larger. *)
Definition between (p q x : Z) : bool :=
  (Z.min p q <=? x) && (x <=? Z.max p q).

(** Every channel of the colour lies between the channels of the ends. *)
Definition within (from to : Z * Z * Z) (colour : string) : bool :=
  let '(fr, fg, fb) := from in
  let '(tr, tg, tb) := to in
  match channels colour with
  | (Int r, Int g_, Int b_) =>
      between fr tr r && between fg tg g_ && between fb tb b_
  | _ => false
  end.

Definition is_hex_digit (c : ascii) : bool :=
  match digit_value c with Some _ => true | None => false end.

(** A colour written [#rrggbb]. *)
Definition is_hex_colour (s : string) : bool :=
  match s with
  | String "#" (String c1 (String c2 (String c3 (String c4 (String c5
      (String c6 EmptyString)))))) =>
      is_hex_digit c1 && is_hex_digit c2 && is_hex_digit c3 &&
      is_hex_digit c4 && is_hex_digit c5 && is_hex_digit c6
  | _ => false
  end.

Definition lower (c : ascii) : ascii :=
  let n := code c in
  if (65 <=? n) && (n <=? 90) then ascii_of_nat (Z.to_nat (n + 32)) else c.

(** The string with its capital letters made small. *)
Fixpoint lowercase (s : string) : string :=
  match s with
  | String c s' => String (lower c) (lowercase s')
  | EmptyString => EmptyString
  end.

(** Every character there is. *)
Definition all_ascii : list ascii := List.map ascii_of_nat (seq 0 256).

(** Two digits read and written again come out in small letters. *)
Definition two_digits_round_trip (a c : ascii) : bool :=
  if is_hex_digit a && is_hex_digit c then
    match parseInt16 (String a (String c EmptyString)) with
    | Int v =>
        (0 <=? v) && (v <=? 255) &&
        String.eqb (pad (toString16 (Int v)))
                   (String (lower a) (String (lower c) EmptyString))
    | NaN => false
    end
  else true.

End ColorSchemes.

(* ================================================================== *)
(** * Game.js : the orchestrator *)
(* ================================================================== *)

Module Game.
Local Open Scope Q_scope.

Record Game := mkGame {
  gameOver : bool;
  colorSchemeIdx : Z;
  colorScheme : ColorSchemes.ColorScheme;
  transitionColorScheme : option ColorSchemes.SchemeGen;
  clock : Clock.Sprite;
  scoreBar : ScoreBar.Sprite;
  arrow1 : Arrows.Sprite;
  arrow2 : Arrows.Sprite;
  bug : Bug.Sprite
}.

Definition set_gameOver (v : bool) (g : Game) : Game :=
  mkGame v (colorSchemeIdx g) (colorScheme g) (transitionColorScheme g)
         (clock g) (scoreBar g) (arrow1 g) (arrow2 g) (bug g).
Definition set_colorSchemeIdx (v : Z) (g : Game) : Game :=
  mkGame (gameOver g) v (colorScheme g) (transitionColorScheme g)
         (clock g) (scoreBar g) (arrow1 g) (arrow2 g) (bug g).
Definition set_colorScheme (v : ColorSchemes.ColorScheme) (g : Game) : Game :=
  mkGame (gameOver g) (colorSchemeIdx g) v (transitionColorScheme g)
         (clock g) (scoreBar g) (arrow1 g) (arrow2 g) (bug g).
Definition set_transitionColorScheme (v : option ColorSchemes.SchemeGen)
    (g : Game) : Game :=
  mkGame (gameOver g) (colorSchemeIdx g) (colorScheme g) v
         (clock g) (scoreBar g) (arrow1 g) (arrow2 g) (bug g).
Definition set_clock (v : Clock.Sprite) (g : Game) : Game :=
  mkGame (gameOver g) (colorSchemeIdx g) (colorScheme g)
         (transitionColorScheme g) v (scoreBar g) (arrow1 g) (arrow2 g)
         (bug g).
Definition set_scoreBar (v : ScoreBar.Sprite) (g : Game) : Game :=
  mkGame (gameOver g) (colorSchemeIdx g) (colorScheme g)
         (transitionColorScheme g) (clock g) v (arrow1 g) (arrow2 g) (bug g).
Definition set_arrow1 (v : Arrows.Sprite) (g : Game) : Game :=
  mkGame (gameOver g) (colorSchemeIdx g) (colorScheme g)
         (transitionColorScheme g) (clock g) (scoreBar g) v (arrow2 g) (bug g).
Definition set_arrow2 (v : Arrows.Sprite) (g : Game) : Game :=
  mkGame (gameOver g) (colorSchemeIdx g) (colorScheme g)
         (transitionColorScheme g) (clock g) (scoreBar g) (arrow1 g) v (bug g).
Definition set_bug (v : Bug.Sprite) (g : Game) : Game :=
  mkGame (gameOver g) (colorSchemeIdx g) (colorScheme g)
         (transitionColorScheme g) (clock g) (scoreBar g) (arrow1 g)
         (arrow2 g) v.

(** The game as the bug reads it. *)
Definition for_bug (g : Game) : Bug.Game :=
  Bug.mkGame (gameOver g) (clock g) (arrow1 g) (arrow2 g).

(** The [do ... while(this.colorSchemeIdx==0)] of the first listener of
    [scorebar_add]: the index it leaves, when at most [fuel] rounds lead
    there. *)
Fixpoint next_colorSchemeIdx (fuel : nat) (colorSchemeIdx : Z) : option Z :=
  match fuel with
  | O => None
  | S k =>
      let colorSchemeIdx := (colorSchemeIdx + 1)%Z in
      let colorSchemeIdx := Z.rem colorSchemeIdx ColorSchemes.length in
      if (colorSchemeIdx =? 0)%Z then next_colorSchemeIdx k colorSchemeIdx
      else Some colorSchemeIdx
  end.

(** The first listener of [scorebar_add] (the colours). *)
Definition on_scorebar_add_colors (fuel : nat) (score : Z) (g : Game)
  : option Game :=
  if (Z.rem score 5 =? 0)%Z then
    let previous := colorSchemeIdx g in
    match next_colorSchemeIdx fuel (colorSchemeIdx g) with
    | Some idx =>
        let g := set_colorSchemeIdx idx g in
        Some (set_transitionColorScheme
                (ColorSchemes.transition previous (colorSchemeIdx g)) g)
    | None => None
    end
  else Some g.

(** The second listener of [scorebar_add] (the speed of the arrows). *)
Definition on_scorebar_add_speed (score : Z) (g : Game) : Game :=
  if (Z.rem score 10 =? 0)%Z then
    let g :=
      set_arrow1 (Arrows.set_rotationSpeed
                    (Arrows.rotationSpeed (arrow1 g) + (1 # 10)) (arrow1 g)) g in
    set_arrow2 (Arrows.set_rotationSpeed
                  (Arrows.rotationSpeed (arrow2 g) + (1 # 10)) (arrow2 g)) g
  else g.

(** [emit("scorebar_add", score)]: the two listeners, in the order of
    their registration. *)
Definition emit_scorebar_add (fuel : nat) (score : Z) (g : Game)
  : option Game :=
  match on_scorebar_add_colors fuel score g with
  | Some g => Some (on_scorebar_add_speed score g)
  | None => None
  end.

(** [this.scoreBar.add(earned)] with the listeners it reaches.  The high
    score also goes to the store, which is not part of the game. *)
Definition scoreBar_add (fuel : nat) (earned : Z) (g : Game) : option Game :=
  let '(bar, score) := ScoreBar.add earned (scoreBar g) in
  emit_scorebar_add fuel score (set_scoreBar bar g).

(** The listener of [bug_overarrow]; [arrow] names the sprite the event
    carries, [random] is the value of [Math.random()]. *)
Definition on_bug_overarrow (fuel : nat) (random : Q) (arrow : Arrows.Name)
    (g : Game) : option Game :=
  match scoreBar_add fuel 1 g with
  | Some g =>
      Some match arrow with
           | Arrows.arrow1 =>
               set_arrow1 (Arrows.randomDirectionChange random (arrow1 g)) g
           | Arrows.arrow2 =>
               set_arrow2 (Arrows.randomDirectionChange random (arrow2 g)) g
           end
  | None => None
  end.

(** The [bug_overarrow] events of one frame, in order; [random n] is the
    value of the [n]-th call of [Math.random()] from [n] on. *)
Fixpoint emit_bug_overarrow (fuel : nat) (random : nat -> Q) (n : nat)
    (arrows : list Arrows.Sprite) (g : Game) : option Game :=
  match arrows with
  | [] => Some g
  | a :: rest =>
      match on_bug_overarrow fuel (random n) (Arrows.name a) g with
      | Some g => emit_bug_overarrow fuel random (S n) rest g
      | None => None
      end
  end.

(** The listeners of [clock_resize], in the order of their registration:
    score bar, arrows, bug. *)
Definition emit_clock_resize (radius : Q) (g : Game) : Game :=
  let g := set_scoreBar (ScoreBar.defSize radius (scoreBar g)) g in
  let g := set_arrow1 (Arrows.defSize radius (arrow1 g)) g in
  let g := set_arrow2 (Arrows.defSize radius (arrow2 g)) g in
  set_bug (Bug.defSize radius (bug g)) g.

Fixpoint dispatch_clock (es : list JS.effect) (g : Game) : Game :=
  match es with
  | JS.Emit _ [radius] :: rest => dispatch_clock rest (emit_clock_resize radius g)
  | _ :: rest => dispatch_clock rest g
  | [] => g
  end.

(** The listeners of [clock_reposition], in the same order. *)
Definition emit_clock_reposition (x y : Q) (g : Game) : Game :=
  let g := set_scoreBar (ScoreBar.defPosition x y (scoreBar g)) g in
  let g := set_arrow1 (Arrows.defPosition x y (arrow1 g)) g in
  let g := set_arrow2 (Arrows.defPosition x y (arrow2 g)) g in
  set_bug (Bug.defPosition x y (bug g)) g.

(** [onresize()] on a desktop: [innerWidth] and [innerHeight] are those
    of the window. *)
Definition onresize (innerWidth innerHeight : Q) (g : Game) : Game :=
  let radius := innerHeight / 10 in
  let '(c, _) := Clock.resize radius (clock g) in
  let g := emit_clock_resize radius (set_clock c g) in
  let '(c, _) := Clock.reposition (innerWidth / 2) (innerHeight / 2) (clock g) in
  emit_clock_reposition (innerWidth / 2) (innerHeight / 2) (set_clock c g).

(** [new Game()] on a desktop.  [now] is the value of [new Date()],
    [stored] what the store holds for the high score.  The sprite sheet
    and the listeners of the document are not part of the state. *)
Definition constructor (now : JS.Date) (stored : option Z)
    (innerWidth innerHeight : Q) : JS.completion Game :=
  let colorScheme_ :=
    match ColorSchemes.get 0 with
    | Some scheme => scheme
    | None => ColorSchemes.complete_darkness
    end in
  match fst (Clock.Clock (JS.object tt) 270 270 None) with
  | JS.Throw m => JS.Throw m
  | JS.Return clock_ =>
  match fst (ScoreBar.ScoreBar (JS.object (ScoreBar.mkGame clock_)) stored) with
  | JS.Throw m => JS.Throw m
  | JS.Return scoreBar_ =>
  match fst (Arrows.Arrows (JS.object (Arrows.mkGame clock_)) now) with
  | JS.Throw m => JS.Throw m
  | JS.Return (arrow1_, arrow2_) =>
  match fst (Bug.Bug (JS.object (Bug.mkGame true clock_ arrow1_ arrow2_))) with
  | JS.Throw m => JS.Throw m
  | JS.Return bug_ =>
      JS.Return
        (onresize innerWidth innerHeight
           (mkGame true 1 colorScheme_ (ColorSchemes.transition 0 1)
                   clock_ scoreBar_ arrow1_ arrow2_ bug_))
  end end end end.


(** The index the colour listener leaves: the next one, around the pool,
    and 1 instead of 0. *)
Definition next_index (previous : Z) : Z :=
  if (Z.rem (previous + 1) 6 =? 0)%Z then 1%Z else Z.rem (previous + 1) 6.

Definition start (g : Game) : Game :=
  let g := set_gameOver false g in
  set_clock (Clock.set_scaleUp_hideNumbers true true (clock g)) g.

(** [finish()]; the sound is not part of the state. *)
Definition finish (g : Game) : Game :=
  let g := set_bug (Bug.die (bug g)) g in
  let g := set_gameOver true g in
  let g := set_clock (Clock.set_scaleUp_hideNumbers false false (clock g)) g in
  let g := set_transitionColorScheme
             (ColorSchemes.transition (colorSchemeIdx g) 1) g in
  set_colorSchemeIdx 1 g.

(** [update()], one frame.  [now] is the value of [new Date()], [random]
    gives the values of [Math.random()], and [collided] is the value of
    [this.collidedBugArrows()], which [SATCollision] computes from the
    rotated outlines. *)
Definition update (fuel : nat) (now : JS.Date) (random : nat -> Q)
    (collided : bool) (g : Game) : option Game :=
  let g :=
    match transitionColorScheme g with
    | Some gen =>
        match ColorSchemes.next_scheme gen with
        | (ColorSchemes.Yield v, gen) =>
            set_transitionColorScheme (Some gen) (set_colorScheme v g)
        | (ColorSchemes.Done, _) => set_transitionColorScheme None g
        end
    | None => g
    end in
  let '(c, emitted) := Clock.update (clock g) in
  let g := dispatch_clock emitted (set_clock c g) in
  let g := set_scoreBar (ScoreBar.update (gameOver g) (scoreBar g)) g in
  let g := set_arrow1 (Arrows.update (gameOver g) now (arrow1 g)) g in
  let g := set_arrow2 (Arrows.update (gameOver g) now (arrow2 g)) g in
  let '(b, arrows) := Bug.update (for_bug g) (bug g) in
  match emit_bug_overarrow fuel random 0 arrows (set_bug b g) with
  | Some g =>
      Some (if negb (gameOver g) && collided then finish g else g)
  | None => None
  end.

(** A key goes down (desktop): the two listeners, in the order of their
    registration. *)
Definition keydown (keyCode : Z) (g : Game) : Game :=
  let g :=
    if gameOver g then g
    else if (keyCode =? 38)%Z then set_bug (Bug.jump (bug g)) g
    else if (keyCode =? 32)%Z then set_bug (Bug.switchDirection (bug g)) g
    else g in
  if JS.eqb (Bug.idleDeg (bug g)) (Bug.rotationDeg (bug g)) &&
     JS.eqb (Arrows.idleDeg (arrow1 g)) (Arrows.rotationDeg (arrow1 g)) &&
     JS.eqb (Arrows.idleDeg (arrow2 g)) (Arrows.rotationDeg (arrow2 g))
  then start g else g.

End Game.

(* ================================================================== *)
(** * Concrete states for the examples *)
(* ================================================================== *)

Module Cases.
Local Open Scope Q_scope.

(** The clock of the game, [Clock(this,270,270)]. *)
Definition clock : Clock.Sprite :=
  fst (Clock.reposition 270 270 (fst (Clock.resize 100 Clock.literal))).

(** The first arrow one degree before a full turn. *)
Definition arrow1_at_359 : Arrows.Sprite :=
  Arrows.set_rotationDeg 359 Arrows.literal1.

(** The second arrow at 0 degrees, one minute before twelve: its idle
    angle is 359.5. *)
Definition arrow2_at_0 : Arrows.Sprite :=
  Arrows.set_rotationDeg 0 Arrows.literal2.
Definition one_to_twelve : JS.Date := JS.mkDate 59 11.

(** The first arrow at 350 degrees, two minutes past the hour: its idle
    angle is 12. *)
Definition arrow1_at_350 : Arrows.Sprite :=
  Arrows.set_rotationDeg 350 Arrows.literal1.
Definition two_past : JS.Date := JS.mkDate 2 0.

(** Three o'clock: the idle angles of the arrows are 0 and 90. *)
Definition three_oclock : JS.Date := JS.mkDate 0 3.
Definition game_at_three : Bug.Game :=
  Bug.mkGame true clock
    (Arrows.updateIdleDeg three_oclock Arrows.literal1)
    (Arrows.updateIdleDeg three_oclock Arrows.literal2).

(** Three frames of a round in which both arrows run at speed 1 and cross
    under the jumping bug. *)
Definition arrows_at (a1 a2 : Q) : Bug.Game :=
  Bug.mkGame false clock
    (Arrows.set_rotationDeg a1 Arrows.literal1)
    (Arrows.set_rotationDeg a2 (Arrows.set_rotationSpeed 1 Arrows.literal2)).
Definition frame1 : Bug.Game := arrows_at 100 101.
Definition frame2 : Bug.Game := arrows_at 101 100.
Definition frame3 : Bug.Game := arrows_at 102 99.
Definition jumping_bug : Bug.Sprite :=
  Bug.set_anchor_y 5
    (Bug.jump (Bug.set_rotationDeg 99 (Bug.defSize 100 Bug.literal))).

(** The game at a quarter past ten, in a window of 1280 by 800, with
    nothing in the store. *)
Definition new_game : JS.completion Game.Game :=
  Game.constructor (JS.mkDate 15 10) None 1280 800.

Definition game : Game.Game :=
  match new_game with
  | JS.Return g => g
  | JS.Throw _ =>
      Game.mkGame true 1 ColorSchemes.complete_darkness None clock
        (ScoreBar.mkScoreBar 0 0 0 0 0) Arrows.literal1 Arrows.literal2
        Bug.literal
  end.

Definition get (o : option Game.Game) : Game.Game :=
  match o with Some g => g | None => game end.

(** [n] frames at a quarter past ten, without a collision. *)
Fixpoint frames (n : nat) (g : Game.Game) : option Game.Game :=
  match n with
  | O => Some g
  | S k =>
      match Game.update 2 (JS.mkDate 15 10) (fun _ => 0) false g with
      | Some g => frames k g
      | None => None
      end
  end.


(** The same frames with the second arrow far away. *)
Definition frame1' : Bug.Game := arrows_at 100 281.
Definition frame2' : Bug.Game := arrows_at 101 280.
Definition frame3' : Bug.Game := arrows_at 102 279.

End Cases.

(* ================================================================== *)
(** * Util.js and the outlines of the sprites *)
(* ================================================================== *)

Module Util.
Import Collision.
Local Open Scope R_scope.

(** [rotatePoint(point, rad)]; [!rad] holds for [rad = 0]. *)
Definition rotatePoint (point : Point) (rad : R) : Point :=
  let x := px point in
  let y := py point in
  if Req_dec_T rad 0 then mkPoint x y
  else mkPoint (x * cos rad - y * sin rad) (x * sin rad + y * cos rad).

End Util.

Module Outline.
Import Collision.
Local Open Scope R_scope.

(** What [calculatePath] and [calculateTransformedPath] read of a sprite,
    as real numbers: the size, the anchor and [rotation] (in radians). *)
Record Box := mkBox {
  width : R;
  height : R;
  anchor_x : R;
  anchor_y : R;
  rotation : R
}.

(** [calculatePath] of the bug. *)
Definition bug_calculatePath (this : Box) : list Point :=
  [mkPoint 0 0;
   mkPoint (width this) 0;
   mkPoint (width this) (height this);
   mkPoint 0 (height this)].

(** [calculatePath] of an arrow. *)
Definition arrow_calculatePath (this : Box) : list Point :=
  [mkPoint 0 (width this);
   mkPoint (width this / 2) 0;
   mkPoint (width this) (width this);
   mkPoint (2 * width this / 3) (width this);
   mkPoint (2 * width this / 3) (height this);
   mkPoint (width this / 3) (height this);
   mkPoint (width this / 3) (width this);
   mkPoint 0 (width this)].

(** [calculateTransformedPath], on the path of the sprite. *)
Definition calculateTransformedPath (path : list Point) (this : Box)
  : list Point :=
  let anchorWidth := width this * anchor_x this in
  let anchorHeight := height this * anchor_y this in
  map (fun point =>
         let point := mkPoint (px point - anchorWidth) (py point - anchorHeight) in
         Util.rotatePoint point (rotation this))
      path.


(** The square of the distance of two points. *)
Definition dist2 (p q : Point) : R :=
  (px p - px q) * (px p - px q) + (py p - py q) * (py p - py q).

End Outline.

(* ================================================================== *)
(** * Vocabulary for polygons that are moved *)
(* ================================================================== *)

Module Plane.
Import Collision.
Local Open Scope R_scope.







End Plane.

(* ================================================================== *)
(** * Vocabulary for polygons that are turned *)
(* ================================================================== *)

Module Turn.
Import Collision.
Local Open Scope R_scope.



End Turn.

(* ================================================================== *)
(** * Vocabulary for the runs of the colour generators *)
(* ================================================================== *)

Module ColorRuns.
Import ColorSchemes.
Local Open Scope string_scope.
Local Open Scope Z_scope.

(** The colour [transitionColor] writes for three channels. *)
Definition colour (r g_ b_ : Z) : string :=
  "#" ++ pad (toString16 (Int r)) ++ pad (toString16 (Int g_)) ++
  pad (toString16 (Int b_)).

(** The channels of a colour as integers (0 where there is none). *)
Definition rgb (s : string) : Z * Z * Z :=
  match channels s with
  | (Int r, Int g_, Int b_) => (r, g_, b_)
  | _ => (0, 0, 0)
  end.

(** The number of steps a channel needs from [f] to [t]. *)
Definition steps (f t : Z) : Z := (Z.abs (t - f) + 1) / 2.

(** The rounds a channel still takes part in: none once it is marked
    done, else its steps and the round that marks it. *)
Definition rounds_left (f t : Z) (d : bool) : Z :=
  if d then 0 else steps f t + 1.

(** A number from 0 to 255 written and read again. *)
Definition byte_round_trip (n : nat) : bool :=
  let v := Z.of_nat n in
  match pad (toString16 (Int v)) with
  | String a (String c EmptyString) =>
      match parseInt16 (String a (String c EmptyString)) with
      | Int u => u =? v
      | NaN => false
      end
  | _ => false
  end.

(** The schemes a [transitionColorScheme] generator yields until it is
    done, when that takes at most [fuel] calls of [next()]. *)
Fixpoint drain_scheme (fuel : nat) (s : SchemeGen) : option (list ColorScheme) :=
  match fuel with
  | O => None
  | S k =>
      match next_scheme s with
      | (Yield v, s') =>
          match drain_scheme k s' with
          | Some vs => Some (v :: vs)
          | None => None
          end
      | (Done, _) => Some []
      end
  end.

(** Every role of the scheme is a colour written [#rrggbb]. *)
Definition is_hex_scheme (s : ColorScheme) : bool :=
  is_hex_colour (background s) && is_hex_colour (scorebar s) &&
  is_hex_colour (arrows s) && is_hex_colour (clock s) &&
  is_hex_colour (numbers s).

(** The scheme with its colours in small letters. *)
Definition lowercase_scheme (s : ColorScheme) : ColorScheme :=
  mkColorScheme (lowercase (background s)) (lowercase (scorebar s))
                (lowercase (arrows s)) (lowercase (clock s))
                (lowercase (numbers s)).

(** The generator yields exactly these values. *)
Definition yields (g : ColorGen) (values : list string) : Prop :=
  forall k, (List.length values <= k)%nat -> drain (S k) g = Some values.

End ColorRuns.

(* ================================================================== *)
(** * Frames in a row *)
(* ================================================================== *)

Module Frames.
Local Open Scope Q_scope.

(** The angle a game-over frame leaves, for the arrows and for the bug:
    the frame brings the angle into range and moves it toward [idle]. *)
Definition frame (idle rotationDeg : Q) : Q :=
  Angle.converge (Angle.normalize rotationDeg) idle.

(** [n] such frames in a row, with the same [idle]. *)
Fixpoint frames (n : nat) (idle rotationDeg : Q) : Q :=
  match n with
  | O => rotationDeg
  | S k => frames k idle (frame idle rotationDeg)
  end.

(** An arrow after [n] frames of a finished game, the clock of the wall
    showing [now] all along. *)
Fixpoint arrow_frames (n : nat) (now : JS.Date) (a : Arrows.Sprite)
  : Arrows.Sprite :=
  match n with
  | O => a
  | S k => arrow_frames k now (Arrows.update true now a)
  end.

(** A time of the day. *)
Definition time_of_day (now : JS.Date) : Prop :=
  (0 <= JS.getMinutes now < 60)%Z /\ (0 <= JS.getHours now < 24)%Z.

(** What is left of the way to [idle] from the angle [r] in range: twice
    the number of frames that are enough. *)
Definition way (idle r b : Q) : Prop :=
  (Qabs (idle - r) <= 180 /\ Qabs (idle - r) <= b) \/
  (180 < Qabs (idle - r) /\ 364 - Qabs (idle - r) <= b).

End Frames.

(* ================================================================== *)
(** * The game over many frames and events *)
(* ================================================================== *)

Module Play.
Import Game.
Local Open Scope Q_scope.

(** The steps of [update()], in their order: the colours, *)
Definition update_colors (g : Game) : Game :=
  match transitionColorScheme g with
  | Some gen =>
      match ColorSchemes.next_scheme gen with
      | (ColorSchemes.Yield v, gen) =>
          set_transitionColorScheme (Some gen) (set_colorScheme v g)
      | (ColorSchemes.Done, _) => set_transitionColorScheme None g
      end
  | None => g
  end.

(** the clock with the listeners of its events, *)
Definition update_clock (g : Game) : Game :=
  let '(c, emitted) := Clock.update (clock g) in
  dispatch_clock emitted (set_clock c g).

(** the score bar and the arrows, *)
Definition update_sprites (now : JS.Date) (g : Game) : Game :=
  let g := set_scoreBar (ScoreBar.update (gameOver g) (scoreBar g)) g in
  let g := set_arrow1 (Arrows.update (gameOver g) now (arrow1 g)) g in
  set_arrow2 (Arrows.update (gameOver g) now (arrow2 g)) g.

(** the bug with the listener of its events, *)
Definition update_bug (fuel : nat) (random : nat -> Q) (g : Game)
  : option Game :=
  let '(b, arrows) := Bug.update (for_bug g) (bug g) in
  emit_bug_overarrow fuel random 0 arrows (set_bug b g).

(** and the crash. *)
Definition update_crash (collided : bool) (g : Game) : Game :=
  if negb (gameOver g) && collided then finish g else g.

(** [n] frames in a row, the wall clock showing [now] all along. *)
Fixpoint game_frames (fuel n : nat) (now : JS.Date) (random : nat -> Q)
    (collided : bool) (g : Game) : option Game :=
  match n with
  | O => Some g
  | S k =>
      match update fuel now random collided g with
      | Some g => game_frames fuel k now random collided g
      | None => None
      end
  end.

(** What happens to a game: a frame of the loop, a key, a resize of the
    window. *)
Inductive event :=
| Frame (now : JS.Date) (random : nat -> Q) (collided : bool)
| Key (keyCode : Z)
| Resize (innerWidth innerHeight : Q).

Definition react (fuel : nat) (e : event) (g : Game) : option Game :=
  match e with
  | Frame now random collided => update fuel now random collided g
  | Key keyCode => Some (keydown keyCode g)
  | Resize innerWidth innerHeight => Some (onresize innerWidth innerHeight g)
  end.

Fixpoint run (fuel : nat) (es : list event) (g : Game) : option Game :=
  match es with
  | [] => Some g
  | e :: rest =>
      match react fuel e g with
      | Some g => run fuel rest g
      | None => None
      end
  end.

(** The angle the bug rests at, from the angles the two arrows rest at:
    the value [updateIdleDeg] of the bug computes. *)
Definition bug_idle (arrow1_ arrow2_ : Q) : Q :=
  let p1 := Qmin arrow1_ arrow2_ + Qabs (arrow1_ - arrow2_) / 2 in
  let p2 := p1 + 180 in
  let p1 := JS.rem p1 360 in
  let p2 := JS.rem p2 360 in
  if JS.gtb (Qabs (p1 - arrow1_)) (Qabs (p2 - arrow1_)) then p1 else p2.

(** What a game shows of its angles: the flag, and of the arrows and the
    bug the angle and the angle of rest. *)
Definition angles (g : Game)
  : bool * (Arrows.Name * Q * Q) * (Arrows.Name * Q * Q) * (Q * Q) :=
  (gameOver g,
   (Arrows.name (arrow1 g), Arrows.rotationDeg (arrow1 g),
    Arrows.idleDeg (arrow1 g)),
   (Arrows.name (arrow2 g), Arrows.rotationDeg (arrow2 g),
    Arrows.idleDeg (arrow2 g)),
   (Bug.rotationDeg (bug g), Bug.idleDeg (bug g))).

(** What a game shows of its count: the index of the colours, the score
    and the high score. *)
Definition tally (g : Game) : Z * Z * Z :=
  (colorSchemeIdx g, ScoreBar.score (scoreBar g),
   ScoreBar.hiScore (scoreBar g)).

(** The count is sound: the index is one of the pool and not the first,
    and the score lies between 0 and the high score. *)
Definition sound (g : Game) : Prop :=
  (1 <= colorSchemeIdx g <= 5)%Z /\
  (0 <= ScoreBar.score (scoreBar g) <= ScoreBar.hiScore (scoreBar g))%Z.

End Play.

(* ================================================================== *)
(** * The jump of the bug, frame by frame *)
(* ================================================================== *)

Module Jump.
Local Open Scope Q_scope.

Section Iterate.
Variables (A G : Type) (step : G -> A -> A).

(** One step for each element of the list, first to last. *)
Fixpoint iterate (games : list G) (a : A) : A :=
  match games with
  | [] => a
  | game :: rest => iterate rest (step game a)
  end.

End Iterate.

(** The bug after one frame for each game of the list (the game is what
    the bug reads of it in that frame). *)
Definition bug_frames : list Bug.Game -> Bug.Sprite -> Bug.Sprite :=
  iterate Bug.Sprite Bug.Game (fun game b => fst (Bug.update game b)).

(** The height above the ground and the speed, after one more frame in
    the air: the speed takes the gravity, the height takes the speed. *)
Definition fall (gravity : Q) (hs : Q * Q) : Q * Q :=
  let s := Qred (snd hs + gravity) in (Qred (fst hs + s), s).

Fixpoint falls (n : nat) (gravity : Q) (hs : Q * Q) : Q * Q :=
  match n with
  | O => hs
  | S k => fall gravity (falls k gravity hs)
  end.

(** The gravity and the speed of a jump, as the sprite sets them. *)
Definition gravity : Q := -45 # 10000.
Definition jumpSpeed : Q := 1 # 10.

(** The height and the speed [n] frames after a jump from the ground. *)
Definition flight (n : nat) : Q * Q := falls n gravity (0, jumpSpeed).

(** [n] frames after the jump the bug is still in the air, and its speed
    is not 0. *)
Definition in_the_air (n : nat) : bool :=
  Qle_bool 0 (fst (flight n)) && negb (Qeq_bool (snd (flight n)) 0).

(** The bug is in the air, [n] frames after a jump from the ground, with
    [jumps] jumps made. *)
Definition airborne (b : Bug.Sprite) (n : nat) (jumps : Z) : Prop :=
  Bug.isFlying b = jumps /\ Bug.gravity b = gravity /\
  Bug.jumpSpeed b == snd (flight n) /\
  Bug.anchor_y b == Bug.groundedAnchorY b + fst (flight n).

(** The greatest height of a jump from the ground. *)
Definition top : Q := 2123 # 2000.

(** The bug stands on the ground. *)
Definition on_the_ground (b : Bug.Sprite) : Prop :=
  Bug.isFlying b = 0%Z /\ Bug.jumpSpeed b == 0 /\
  Bug.anchor_y b == Bug.groundedAnchorY b.

End Jump.

(* ================================================================== *)
(** * The sizes of the clock and of the sprites *)
(* ================================================================== *)

Module Sizes.
Import Game.
Local Open Scope Q_scope.

(** The three parts of [update] of the clock: the numbers fade, *)
Definition update_opacity (this : Clock.Sprite) : Clock.Sprite :=
  if Clock.hideNumbers this then
    if JS.gtb (Clock.numbersOpacity this) 0 then
      let this :=
        Clock.set_numbersOpacity
          (Clock.numbersOpacity this - Clock.numbersHidingSpeed this) this in
      if JS.ltb (Clock.numbersOpacity this) 0
      then Clock.set_numbersOpacity 0 this
      else this
    else this
  else
    if JS.ltb (Clock.numbersOpacity this) 1 then
      let this :=
        Clock.set_numbersOpacity
          (Clock.numbersOpacity this + Clock.numbersHidingSpeed this) this in
      if JS.gtb (Clock.numbersOpacity this) 1
      then Clock.set_numbersOpacity 1 this
      else this
    else this.

(** the face grows or shrinks, *)
Definition update_scale (this : Clock.Sprite)
  : Clock.Sprite * list JS.effect :=
  if Clock.scaleUp this then
    if JS.ltb (Clock.radius this) (Clock.maxRadius this) then
      let this :=
        Clock.set_radius (Clock.radius this + Clock.scaleSpeed this) this in
      let this :=
        if JS.gtb (Clock.radius this) (Clock.maxRadius this)
        then Clock.set_scaleSpeed 1
               (Clock.set_radius (Clock.maxRadius this) this)
        else this in
      let this := Clock.set_numbersRadius (2 * Clock.radius this) this in
      (this, [JS.Emit "clock_resize" [Clock.radius this]])
    else (this, [])
  else
    if JS.gtb (Clock.radius this) (Clock.minRadius this) then
      let this :=
        Clock.set_radius (Clock.radius this - Clock.scaleSpeed this) this in
      let this :=
        if JS.ltb (Clock.radius this) (Clock.minRadius this)
        then Clock.set_scaleSpeed 1
               (Clock.set_radius (Clock.minRadius this) this)
        else this in
      let this := Clock.set_numbersRadius (2 * Clock.radius this) this in
      (this, [JS.Emit "clock_resize" [Clock.radius this]])
    else (this, []).

(** and the knock-back runs. *)
Definition update_offset (this : Clock.Sprite) : Clock.Sprite :=
  match Clock.offsetSpeed this, Clock.offsetAcceleration this with
  | Some (sx, sy), Some (ax, ay) =>
      let before := (JS.sign (fst (Clock.offset this)),
                     JS.sign (snd (Clock.offset this))) in
      let o := (fst (Clock.offset this) + sx, snd (Clock.offset this) + sy) in
      let sp := (sx + ax, sy + ay) in
      let after := (JS.sign (fst o), JS.sign (snd o)) in
      if JS.eqb (-1 * fst before) (fst after) ||
         JS.eqb (-1 * snd before) (snd after)
      then Clock.set_offsets (0, 0) None None this
      else Clock.set_offsets o (Some sp) (Some (ax, ay)) this
  | _, _ => this
  end.

(** The measures of a clock the knock-back leaves alone. *)
Definition measures (c : Clock.Sprite) : Q * Q * Q * Q * Q * Q * Q :=
  (Clock.radius c, Clock.numbersRadius c, Clock.minRadius c,
   Clock.maxRadius c, Clock.scaleSpeed c, Clock.numbersOpacity c,
   Clock.numbersHidingSpeed c).

(** The clock keeps its measures: the radius between its two ends, the
    radius of the numbers twice the radius, the opacity of the numbers
    between 0 and 1, and the two speeds not negative. *)
Definition clock_sound (c : Clock.Sprite) : Prop :=
  Clock.minRadius c <= Clock.radius c /\
  Clock.radius c <= Clock.maxRadius c /\
  Clock.numbersRadius c == 2 * Clock.radius c /\
  0 <= Clock.scaleSpeed c /\
  0 <= Clock.numbersOpacity c /\ Clock.numbersOpacity c <= 1 /\
  0 <= Clock.numbersHidingSpeed c.

(** The sizes the listeners of [clock_resize] give for a radius: of the
    score bar; of the first arrow and of the second, width and height; of
    the bug, width, height and the anchor on the ground. *)
Definition sizes_for (radius : Q)
  : Q * (Q * Q) * (Q * Q) * (Q * Q * Q) :=
  (radius / 2,
   (radius / 4, radius * (14 # 10)),
   (radius / 4, radius * (13 # 10)),
   ((14 # 10) * radius / 4, (14 # 10) * radius / 4,
    ((14 # 10) * radius / 4 + radius) / ((14 # 10) * radius / 4))).

(** The sizes the sprites of a game have. *)
Definition sizes (g : Game) : Q * (Q * Q) * (Q * Q) * (Q * Q * Q) :=
  (ScoreBar.size (scoreBar g),
   (Arrows.width (arrow1 g), Arrows.height (arrow1 g)),
   (Arrows.width (arrow2 g), Arrows.height (arrow2 g)),
   (Bug.width (bug g), Bug.height (bug g), Bug.groundedAnchorY (bug g))).

(** What a game shows of its shape: the names of the arrows, the sizes
    of the sprites, and the radius of the clock. *)
Definition shape (g : Game)
  : Arrows.Name * Arrows.Name * (Q * (Q * Q) * (Q * Q) * (Q * Q * Q)) * Q :=
  (Arrows.name (arrow1 g), Arrows.name (arrow2 g), sizes g,
   Clock.radius (clock g)).

(** The sprites have the sizes of the radius the clock has now, and the
    arrows their names. *)
Definition in_step (g : Game) : Prop :=
  Arrows.name (arrow1 g) = Arrows.arrow1 /\
  Arrows.name (arrow2 g) = Arrows.arrow2 /\
  sizes g = sizes_for (Clock.radius (clock g)).

End Sizes.

(* ================================================================== *)
(** * The games a run reaches *)
(* ================================================================== *)

Module Reach.
Import Game Play.
Local Open Scope Q_scope.







End Reach.

(* ================================================================== *)
(** * Properties of the collision detector *)
(* ================================================================== *)

Module CollisionFacts.
Import Collision.
Local Open Scope R_scope.

Lemma num_lt_opp (a b : num) : num_lt (num_opp a) (num_opp b) = num_lt b a.
Proof.
  destruct a, b; simpl; try reflexivity.
  destruct (Rlt_dec (- r) (- r0)), (Rlt_dec r0 r); try reflexivity; lra.
Qed.

Lemma num_le_opp (a b : num) : num_le (num_opp a) (num_opp b) = num_le b a.
Proof.
  destruct a, b; simpl; try reflexivity.
  destruct (Rle_dec (- r) (- r0)), (Rle_dec r0 r); try reflexivity; lra.
Qed.

Lemma project_step_opposite me v acc p :
  project_step me (opposite v) (mirror acc) p =
  mirror (project_step me v acc p).
Proof.
  unfold project_step, mirror, num_gt.
  cbn [min max opposite px py].
  replace ((x me + px p) * - px v + (y me + py p) * - py v)
    with (- ((x me + px p) * px v + (y me + py p) * py v)) by ring.
  set (proj := (x me + px p) * px v + (y me + py p) * py v).
  change (Fin (- proj)) with (num_opp (Fin proj)).
  rewrite !num_lt_opp.
  destruct (num_lt (max acc) (Fin proj)), (num_lt (Fin proj) (min acc));
    reflexivity.
Qed.

Lemma fold_project_opposite me v pts acc :
  fold_left (project_step me (opposite v)) pts (mirror acc) =
  mirror (fold_left (project_step me v) pts acc).
Proof.
  revert acc; induction pts as [|p pts IH]; intros acc; simpl.
  - reflexivity.
  - rewrite project_step_opposite. apply IH.
Qed.

Lemma project_opposite me v :
  project me (opposite v) = mirror (project me v).
Proof.
  unfold project.
  change (mkInterval Infinity NegInfinity)
    with (mirror (mkInterval Infinity NegInfinity)) at 1.
  apply fold_project_opposite.
Qed.

Lemma project_step_proper me v acc p :
  proper acc -> proper (project_step me v acc p).
Proof.
  intros (lo & hi & Hlo & Hhi & Hle).
  unfold project_step, num_gt; rewrite Hlo, Hhi; simpl.
  set (proj := (x me + px p) * px v + (y me + py p) * py v).
  destruct (Rlt_dec proj lo), (Rlt_dec hi proj); simpl;
    eexists; eexists; (split; [reflexivity | split; [reflexivity | lra]]).
Qed.

Lemma fold_project_proper me v pts acc :
  proper acc -> proper (fold_left (project_step me v) pts acc).
Proof.
  revert acc; induction pts as [|p pts IH]; intros acc H; simpl.
  - exact H.
  - apply IH, project_step_proper, H.
Qed.

Lemma project_proper me v :
  points me <> [] -> proper (project me v).
Proof.
  unfold project. destruct (points me) as [|p pts]; [congruence | intros _].
  simpl. apply fold_project_proper.
  unfold project_step; simpl.
  eexists; eexists; split; [reflexivity | split; [reflexivity | lra]].
Qed.

(** On two proper intervals the test of the code, taken on an axis and on
    the opposite axis, is the plain overlap test. *)
Lemma axis_test_both_directions me shape v :
  proper (project me v) -> proper (project shape v) ->
  axis_test me shape v = true ->
  axis_test me shape (opposite v) = true ->
  overlap_or_touch (project me v) (project shape v).
Proof.
  intros (a & b & Ha & Hb & Hab) (c & d & Hc & Hd & Hcd).
  unfold axis_test, overlap_or_touch.
  rewrite !project_opposite. unfold mirror, num_ge; simpl.
  rewrite Ha, Hb, Hc, Hd; simpl.
  destruct (Rle_dec a d), (Rle_dec c b), (Rle_dec b c), (Rle_dec a d),
    (Rle_dec (- b) (- c)), (Rle_dec (- d) (- a)), (Rle_dec (- a) (- d)),
    (Rle_dec (- b) (- c)); simpl; intros; try (split; reflexivity);
    try discriminate; lra.
Qed.

Lemma overlap_axis_test me shape v :
  overlap_or_touch (project me v) (project shape v) ->
  axis_test me shape v = true.
Proof.
  unfold overlap_or_touch, axis_test. intros [H1 H2].
  rewrite H1, H2. reflexivity.
Qed.

Lemma opposite_in_getNormals p v :
  In v (getNormals p) -> In (opposite v) (getNormals p).
Proof.
  unfold getNormals. rewrite !in_app_iff, !in_map_iff.
  intros [(i & <- & Hi) | (i & <- & Hi)]; [right | left];
    exists i; (split; [|exact Hi]); unfold opposite; simpl; f_equal;
    unfold Rdiv; ring.
Qed.


Lemma l_positive_conv p i :
  0 < x1 p i * x1 p i + y1 p i * y1 p i -> l p i <> 0.
Proof.
  intros H. unfold l. apply Rgt_not_eq, sqrt_lt_R0, H.
Qed.


Lemma checkCollision_spec A B :
  A <> [] -> B <> [] ->
  (SATCollision A B = true <->
   forall v, In v (getNormals A ++ getNormals B) ->
     overlap_or_touch (project (newShape A) v) (project (newShape B) v)).
Proof.
  intros HA HB. unfold SATCollision, checkCollision.
  rewrite forallb_forall. cbn [normals newShape].
  split; intros H v Hv.
  - apply axis_test_both_directions.
    + apply project_proper; exact HA.
    + apply project_proper; exact HB.
    + apply H, Hv.
    + apply H. rewrite in_app_iff in *.
      destruct Hv as [Hv|Hv]; [left|right]; apply opposite_in_getNormals, Hv.
  - apply overlap_axis_test, H, Hv.
Qed.














Lemma triangle0_nonzero_edges : nonzero_edges triangle0.
Proof.
  intros i Hi. apply l_positive_conv.
  destruct i as [|[|[|i]]]; [| | |simpl in Hi; lia];
    unfold x1, y1, nxt, crt; simpl; lra.
Qed.

Lemma triangle2_nonzero_edges : nonzero_edges triangle2.
Proof.
  intros i Hi. apply l_positive_conv.
  destruct i as [|[|[|i]]]; [| | |simpl in Hi; lia];
    unfold x1, y1, nxt, crt; simpl; lra.
Qed.


End CollisionFacts.

(* ================================================================== *)
(** * Properties of the angle arithmetic *)
(* ================================================================== *)

Module AngleFacts.
Import Angle.
Local Open Scope Q_scope.

Lemma trunc_bounds q :
  (0 <= q -> inject_Z (JS.trunc q) <= q /\ q < inject_Z (JS.trunc q) + 1) /\
  (q <= 0 -> q <= inject_Z (JS.trunc q) /\ inject_Z (JS.trunc q) - 1 < q).
Proof.
  destruct q as [n d].
  unfold JS.trunc, Qle, Qlt, Qplus, Qminus, Qopp, inject_Z; simpl.
  pose proof (Z.quot_rem' n (Zpos d)) as H.
  split; intros H0.
  - assert (0 <= n)%Z by lia.
    pose proof (Z.rem_bound_pos n (Zpos d) ltac:(lia) ltac:(lia)). nia.
  - assert (n <= 0)%Z by lia.
    pose proof (Z.rem_bound_pos (- n) (Zpos d) ltac:(lia) ltac:(lia)).
    rewrite Z.rem_opp_l in * by lia. nia.
Qed.

Lemma inject_Z_close (a b : Z) :
  inject_Z a < inject_Z b + 1 -> inject_Z b < inject_Z a + 1 -> a = b.
Proof.
  intros H1 H2.
  change 1 with (inject_Z 1) in *. rewrite <- inject_Z_plus in *.
  rewrite <- Zlt_Qlt in H1, H2. lia.
Qed.

Lemma trunc_wd (p q : Q) : p == q -> JS.trunc p = JS.trunc q.
Proof.
  intros E.
  destruct (trunc_bounds p) as [Pp Pn], (trunc_bounds q) as [Qp Qn].
  destruct (Qlt_le_dec p 0) as [Hneg|Hpos].
  - specialize (Pn ltac:(lra)). specialize (Qn ltac:(lra)).
    apply inject_Z_close; lra.
  - specialize (Pp ltac:(lra)). specialize (Qp ltac:(lra)).
    apply inject_Z_close; lra.
Qed.

#[export] Instance rem_wd : Proper (Qeq ==> Qeq ==> Qeq) JS.rem.
Proof.
  intros a a' Ha b b' Hb. unfold JS.rem.
  assert (E : a / b == a' / b') by (rewrite Ha, Hb; reflexivity).
  rewrite (trunc_wd _ _ E), Ha, Hb. reflexivity.
Qed.

Lemma div360 a : a / 360 == a * (1 # 360).
Proof. reflexivity. Qed.

Lemma rem360_bounds a :
  (0 <= a -> 0 <= JS.rem a 360 /\ JS.rem a 360 < 360) /\
  (a <= 0 -> -360 < JS.rem a 360 /\ JS.rem a 360 <= 0).
Proof.
  unfold JS.rem.
  destruct (trunc_bounds (a / 360)) as [Hp Hn].
  set (t := inject_Z (JS.trunc (a / 360))) in *.
  rewrite div360 in Hp, Hn.
  split; intros H.
  - specialize (Hp ltac:(lra)). lra.
  - specialize (Hn ltac:(lra)). lra.
Qed.

(** An angle already in the range is its own remainder. *)
Lemma rem360_small a : 0 <= a -> a < 360 -> JS.rem a 360 == a.
Proof.
  intros H0 H1. unfold JS.rem.
  destruct (trunc_bounds (a / 360)) as [Hp _].
  assert (E : JS.trunc (a / 360) = 0%Z).
  { set (t := JS.trunc (a / 360)) in *.
    rewrite div360 in Hp. specialize (Hp ltac:(lra)).
    apply inject_Z_close; change (inject_Z 0) with 0; lra. }
  rewrite E. change (inject_Z 0) with 0. lra.
Qed.

Lemma ltb_true a b : JS.ltb a b = true <-> a < b.
Proof.
  unfold JS.ltb. destruct (Qlt_le_dec a b); split; intros; try easy; lra.
Qed.

Lemma ltb_false a b : JS.ltb a b = false <-> b <= a.
Proof.
  unfold JS.ltb. destruct (Qlt_le_dec a b); split; intros; try easy; lra.
Qed.

#[export] Instance ltb_wd : Proper (Qeq ==> Qeq ==> eq) JS.ltb.
Proof.
  intros a a' Ha b b' Hb.
  destruct (JS.ltb a' b') eqn:E.
  - apply ltb_true. apply ltb_true in E. lra.
  - apply ltb_false. apply ltb_false in E. lra.
Qed.

Lemma normalize_range r : 0 <= normalize r /\ normalize r < 360.
Proof.
  unfold normalize.
  destruct (rem360_bounds r) as [Hp Hn].
  destruct (JS.ltb (JS.rem r 360) 0) eqn:E;
    [apply ltb_true in E | apply ltb_false in E];
    destruct (Qlt_le_dec 0 r) as [H0|H0];
    try specialize (Hp ltac:(lra)); try specialize (Hn ltac:(lra)); lra.
Qed.

#[export] Instance normalize_wd : Proper (Qeq ==> Qeq) normalize.
Proof.
  intros a b E. unfold normalize.
  assert (R : JS.rem a 360 == JS.rem b 360) by (rewrite E; reflexivity).
  rewrite (ltb_wd _ _ R 0 0 ltac:(reflexivity)).
  destruct (JS.ltb (JS.rem b 360) 0); lra.
Qed.

Lemma normalize_small r : 0 <= r -> r < 360 -> normalize r == r.
Proof.
  intros H0 H1. unfold normalize.
  pose proof (rem360_small r H0 H1) as E.
  destruct (JS.ltb (JS.rem r 360) 0) eqn:L; [apply ltb_true in L|]; lra.
Qed.

Lemma Qabs_cases x :
  (0 <= x /\ Qabs x == x) \/ (x <= 0 /\ Qabs x == - x).
Proof.
  destruct (Qlt_le_dec x 0).
  - right. split; [lra | apply Qabs_neg; lra].
  - left. split; [lra | apply Qabs_pos; lra].
Qed.

Ltac split_decisions :=
  repeat match goal with
         | |- context [Qlt_le_dec ?a ?b] =>
             lazymatch a with
             | context [Qlt_le_dec _ _] => fail
             | _ => idtac
             end;
             lazymatch b with
             | context [Qlt_le_dec _ _] => fail
             | _ => idtac
             end;
             destruct (Qlt_le_dec a b)
         end.

Ltac pick_case :=
  lazymatch goal with
  | |- _ \/ _ => first [left; solve [pick_case] | right; pick_case]
  | |- _ => repeat split; lra
  end.

(** The six ways of a converging frame: on the direct arc a full step or
    a landing, from above or from below; through the seam, up or down. *)
Lemma converge_cases r idle :
  (Qabs (idle - r) <= 180 /\ idle + 2 <= r /\ converge r idle == r - 2) \/
  (Qabs (idle - r) <= 180 /\ idle <= r /\ r < idle + 2 /\
   converge r idle == idle) \/
  (Qabs (idle - r) <= 180 /\ r + 2 <= idle /\ converge r idle == r + 2) \/
  (Qabs (idle - r) <= 180 /\ r < idle /\ idle < r + 2 /\
   converge r idle == idle) \/
  (180 < Qabs (idle - r) /\ idle < r /\ converge r idle == r + 2) \/
  (180 < Qabs (idle - r) /\ r < idle /\ converge r idle == r - 2).
Proof.
  unfold converge, JS.sign, JS.gtb, JS.ltb.
  destruct (Qabs_cases (idle - r)) as [[H0 HA]|[H0 HA]];
    split_decisions; pick_case.
Qed.


Ltac abs_cases :=
  repeat match goal with
         | |- context [Qabs ?x] =>
             let H := fresh "A" in
             let v := fresh "v" in
             destruct (Qabs_cases x) as [[? H]|[? H]];
             revert H; generalize (Qabs x); intros v H
         end.

Lemma converge_frame r idle : converging_frame r idle (converge r idle).
Proof.
  unfold converging_frame.
  destruct (converge_cases r idle)
    as [(D & H & E)|[(D & H & H' & E)|[(D & H & E)|[(D & H & H' & E)|
        [(D & H & E)|(D & H & E)]]]]];
  rewrite !E; clear E; revert D; abs_cases; intros D;
  (split;
   [ intros ?; split;
     [ intros ?; lra
     | split;
       [ intros ?; split; lra
       | split; [lra | first [left; split; lra | right; split; lra]]]]
   | intros [? ?]; repeat split; lra ]).
Qed.

Lemma converge_within_step r idle : Qabs (converge r idle - r) <= 2.
Proof.
  destruct (converge_cases r idle)
    as [(D & H & E)|[(D & H & H' & E)|[(D & H & E)|[(D & H & H' & E)|
        [(D & H & E)|(D & H & E)]]]]];
  rewrite E; apply Qabs_Qle_condition; lra.
Qed.

(** ** The arrows *)

Lemma Arrows_update_rotation go now a :
  Arrows.rotation (Arrows.update go now a) = normalize (Arrows.rotationDeg a).
Proof. destruct go, a as [[] ? ? ? ? ? ? ? ? ? ?]; reflexivity. Qed.

Lemma Arrows_update_playing now a :
  Arrows.rotationDeg (Arrows.update false now a) =
  normalize (Arrows.rotationDeg a) +
  Arrows.rotationSpeed a * Arrows.direction a.
Proof. reflexivity. Qed.

Lemma Arrows_update_over now a :
  Arrows.rotationDeg (Arrows.update true now a) =
  converge (normalize (Arrows.rotationDeg a))
           (Arrows.idleDeg (Arrows.updateIdleDeg now a)).
Proof. destruct a as [[] ? ? ? ? ? ? ? ? ? ?]; reflexivity. Qed.

(** ** The bug *)

Lemma Bug_update_overarrow_fields g b :
  Bug.rotationDeg (fst (Bug.update_overarrow g b)) = Bug.rotationDeg b /\
  Bug.rotation (fst (Bug.update_overarrow g b)) = Bug.rotation b.
Proof.
  unfold Bug.update_overarrow.
  destruct (negb _); split; reflexivity.
Qed.

Lemma Bug_updateIdleDeg_only_idleDeg g b :
  Bug.rotationDeg (Bug.updateIdleDeg g b) = Bug.rotationDeg b /\
  Bug.rotation (Bug.updateIdleDeg g b) = Bug.rotation b /\
  Bug.wereOverArrow (Bug.updateIdleDeg g b) = Bug.wereOverArrow b.
Proof.
  unfold Bug.updateIdleDeg. destruct (JS.gtb _ _); repeat split.
Qed.

Lemma Bug_updateIdleDeg_any g b b' :
  Bug.idleDeg (Bug.updateIdleDeg g b) = Bug.idleDeg (Bug.updateIdleDeg g b').
Proof.
  unfold Bug.updateIdleDeg. destruct (JS.gtb _ _); reflexivity.
Qed.

Lemma Bug_update_jump_fields g b :
  Bug.rotationDeg (Bug.update_jump g b) = Bug.rotationDeg b /\
  Bug.rotation (Bug.update_jump g b) = Bug.rotation b /\
  Bug.idleDeg (Bug.update_jump g b) = Bug.idleDeg b /\
  Bug.rotationSpeed (Bug.update_jump g b) = Bug.rotationSpeed b /\
  Bug.wereOverArrow (Bug.update_jump g b) = Bug.wereOverArrow b.
Proof.
  unfold Bug.update_jump.
  destruct (JS.truthy (Bug.jumpSpeed b)); cbv zeta;
    match goal with |- context [JS.ltb ?a ?c] => destruct (JS.ltb a c) end;
    destruct (negb (Bug.gameOver g)).
  all: repeat split.
Qed.

Lemma if_same {A B : Type} (f : A -> B) (c : bool) (x y : A) (v : B) :
  f x = v -> f y = v -> f (if c then x else y) = v.
Proof. destruct c; auto. Qed.

Lemma Bug_update_angle_fields g b :
  Bug.rotation (Bug.update_angle g b) = normalize (Bug.rotationDeg b) /\
  Bug.wereOverArrow (Bug.update_angle g b) = Bug.wereOverArrow b /\
  Bug.rotationDeg (Bug.update_angle g b) =
  if Bug.gameOver g
  then converge (normalize (Bug.rotationDeg b))
                (Bug.idleDeg (Bug.updateIdleDeg g b))
  else normalize (Bug.rotationDeg b) + Bug.rotationSpeed b * Bug.direction b.
Proof.
  unfold Bug.update_angle.
  destruct (Bug.gameOver g); [|repeat split].
  cbv zeta.
  set (b1 := Bug.set_rotation _ _).
  assert (H1 : Bug.rotationDeg b1 = normalize (Bug.rotationDeg b))
    by reflexivity.
  assert (H2 : Bug.rotation b1 = normalize (Bug.rotationDeg b))
    by reflexivity.
  assert (H3 : Bug.wereOverArrow b1 = Bug.wereOverArrow b) by reflexivity.
  clearbody b1.
  destruct (Bug_updateIdleDeg_only_idleDeg g b1) as (I1 & I2 & I3).
  rewrite (Bug_updateIdleDeg_any g b b1).
  set (b2 := Bug.updateIdleDeg g b1) in *. clearbody b2.
  repeat split; apply if_same;
    cbn [Bug.rotation Bug.wereOverArrow Bug.rotationDeg
         Bug.set_direction Bug.set_currentState Bug.set_rotationDeg];
    congruence.
Qed.

Lemma Arrows_update_idleDeg now a :
  Arrows.idleDeg (Arrows.update true now a) =
  Arrows.idleDeg (Arrows.updateIdleDeg now a).
Proof. destruct a as [[] ? ? ? ? ? ? ? ? ? ?]; reflexivity. Qed.

Lemma Arrows_updateIdleDeg_any now a a' :
  Arrows.name a = Arrows.name a' ->
  Arrows.idleDeg (Arrows.updateIdleDeg now a) =
  Arrows.idleDeg (Arrows.updateIdleDeg now a').
Proof.
  intros E. unfold Arrows.updateIdleDeg. rewrite E.
  destruct (Arrows.name a'); reflexivity.
Qed.

Lemma Bug_update_overarrow_idleDeg g b :
  Bug.idleDeg (fst (Bug.update_overarrow g b)) = Bug.idleDeg b /\
  Bug.isFlying (fst (Bug.update_overarrow g b)) = Bug.isFlying b.
Proof.
  unfold Bug.update_overarrow.
  destruct (negb _); split; reflexivity.
Qed.

Lemma Bug_update_rotation g b :
  Bug.rotation (fst (Bug.update g b)) = normalize (Bug.rotationDeg b).
Proof.
  unfold Bug.update, Bug.update_motion.
  destruct (Bug_update_overarrow_fields g (Bug.update_jump g (Bug.update_angle g b)))
    as [_ ->].
  destruct (Bug_update_jump_fields g (Bug.update_angle g b)) as (_ & -> & _).
  apply Bug_update_angle_fields.
Qed.

Lemma Bug_update_rotationDeg go c a1 a2 b :
  Bug.rotationDeg (fst (Bug.update (Bug.mkGame go c a1 a2) b)) =
  if go
  then converge (normalize (Bug.rotationDeg b))
                (Bug.idleDeg (Bug.updateIdleDeg (Bug.mkGame go c a1 a2) b))
  else normalize (Bug.rotationDeg b) + Bug.rotationSpeed b * Bug.direction b.
Proof.
  set (g := Bug.mkGame go c a1 a2).
  unfold Bug.update, Bug.update_motion.
  destruct (Bug_update_overarrow_fields g (Bug.update_jump g (Bug.update_angle g b)))
    as [-> _].
  destruct (Bug_update_jump_fields g (Bug.update_angle g b)) as (-> & _).
  apply Bug_update_angle_fields.
Qed.

Lemma Bug_update_angle_idleDeg c a1 a2 b :
  Bug.idleDeg (Bug.update_angle (Bug.mkGame true c a1 a2) b) =
  Bug.idleDeg (Bug.updateIdleDeg (Bug.mkGame true c a1 a2) b).
Proof.
  set (g := Bug.mkGame true c a1 a2).
  unfold Bug.update_angle. change (Bug.gameOver g) with true. cbv iota zeta.
  set (b1 := Bug.set_rotation _ _).
  rewrite (Bug_updateIdleDeg_any g b b1).
  set (b2 := Bug.updateIdleDeg g b1). clearbody b2.
  apply if_same; reflexivity.
Qed.

Lemma Bug_update_idleDeg c a1 a2 b :
  Bug.idleDeg (fst (Bug.update (Bug.mkGame true c a1 a2) b)) =
  Bug.idleDeg (Bug.updateIdleDeg (Bug.mkGame true c a1 a2) b).
Proof.
  set (g := Bug.mkGame true c a1 a2).
  unfold Bug.update, Bug.update_motion.
  destruct (Bug_update_overarrow_idleDeg g (Bug.update_jump g (Bug.update_angle g b)))
    as [-> _].
  destruct (Bug_update_jump_fields g (Bug.update_angle g b)) as (_ & _ & -> & _).
  apply Bug_update_angle_idleDeg.
Qed.
End AngleFacts.

(* ================================================================== *)
(** * Properties of the arrows and of the bug *)
(* ================================================================== *)

Module EntityFacts.
Import Angle AngleFacts.
Local Open Scope Q_scope.

(** ** C4: the range of [rotationDeg] *)

(** ** The rounding of [rotationDeg += 360] *)

Lemma nearest_whole_near (q : Q) :
  (Qfloor q <= nearest_whole q <= Qfloor q + 1)%Z.
Proof.
  unfold nearest_whole. cbv zeta.
  destruct (JS.ltb (q - inject_Z (Qfloor q)) (1 # 2)),
           (JS.ltb (1 # 2) (q - inject_Z (Qfloor q))),
           (Z.even (Qfloor q)); lia.
Qed.

Lemma nearest_whole_mono (p q : Q) :
  p <= q -> (nearest_whole p <= nearest_whole q)%Z.
Proof.
  intros L.
  pose proof (Qfloor_resp_le p q L) as F.
  destruct (Z.eq_dec (Qfloor p) (Qfloor q)) as [E|N].
  - unfold nearest_whole. cbv zeta. rewrite <- E.
    set (n := Qfloor p) in *. clearbody n.
    destruct (JS.ltb (p - inject_Z n) (1 # 2)) eqn:P1;
      [apply ltb_true in P1 | apply ltb_false in P1];
      destruct (JS.ltb (q - inject_Z n) (1 # 2)) eqn:Q1;
      [apply ltb_true in Q1 | apply ltb_false in Q1 |
       apply ltb_true in Q1 | apply ltb_false in Q1].
    + lia.
    + destruct (JS.ltb (1 # 2) (q - inject_Z n)); [lia|].
      destruct (Z.even n); lia.
    + exfalso. lra.
    + destruct (JS.ltb (1 # 2) (p - inject_Z n)) eqn:P2;
        [apply ltb_true in P2 | apply ltb_false in P2];
        destruct (JS.ltb (1 # 2) (q - inject_Z n)) eqn:Q2;
        [apply ltb_true in Q2 | apply ltb_false in Q2 |
         apply ltb_true in Q2 | apply ltb_false in Q2].
      * lia.
      * exfalso. lra.
      * destruct (Z.even n); lia.
      * destruct (Z.even n); lia.
  - pose proof (nearest_whole_near p). pose proof (nearest_whole_near q).
    lia.
Qed.

Lemma nearest_double_rounding : rounding nearest_double.
Proof.
  split; [|split; vm_compute; reflexivity].
  intros x y L. unfold nearest_double.
  assert (P : 0 < inject_Z (2 ^ 44)) by (vm_compute; reflexivity).
  assert (M : x * inject_Z (2 ^ 44) <= y * inject_Z (2 ^ 44))
    by (apply Qmult_le_compat_r; [exact L | apply Qlt_le_weak, P]).
  pose proof (nearest_whole_mono _ _ M) as W.
  unfold Qdiv. apply Qmult_le_compat_r.
  - rewrite <- Zle_Qle. exact W.
  - apply Qlt_le_weak, Qinv_lt_0_compat, P.
Qed.

(** With the sum rounded the angle of the frame lies between 0 and 360,
    both included. *)
Lemma normalize_rounded_range (fl : Q -> Q) (r : Q) :
  rounding fl ->
  0 <= normalize_rounded fl r /\ normalize_rounded fl r <= 360.
Proof.
  intros (Mono & F0 & F360). unfold normalize_rounded. cbv zeta.
  destruct (rem360_bounds r) as [Hp Hn].
  destruct (JS.ltb (JS.rem r 360) 0) eqn:E;
    [apply ltb_true in E | apply ltb_false in E].
  - destruct (Qlt_le_dec 0 r) as [H0|H0];
      [specialize (Hp ltac:(lra)); exfalso; lra|].
    specialize (Hn H0).
    pose proof (Mono 0 (JS.rem r 360 + 360) ltac:(lra)) as L.
    pose proof (Mono (JS.rem r 360 + 360) 360 ltac:(lra)) as U.
    rewrite F0 in L. rewrite F360 in U. split; assumption.
  - destruct (Qlt_le_dec 0 r) as [H0|H0];
      [specialize (Hp ltac:(lra)) | specialize (Hn H0)]; lra.
Qed.

(** C4, as the code has it.  Every [update] of an arrow or of the bug
    first brings [rotationDeg] into the range: the angle of the frame,
    which [rotation] is taken from, lies between 0 and 360.  It is below
    360 when the sum [rotationDeg + 360] is exact; on doubles the sum is
    rounded, the angle then lies between 0 and 360 with both ends
    included, and 360 is reached: a remainder of -2^-48 gives exactly
    360.  The value left in [rotationDeg] is the angle of the frame plus
    the move of the frame ([rotationSpeed*direction] in play, at most 2
    degrees when the game is over), so it can leave the range until the
    next [update]. *)
Theorem rotationDeg_in_range_at_top_of_update :
  (forall go now a,
     0 <= Arrows.rotation (Arrows.update go now a) /\
     Arrows.rotation (Arrows.update go now a) <= 360 /\
     Arrows.rotation (Arrows.update go now a) =
     normalize (Arrows.rotationDeg a)) /\
  (forall now a,
     Arrows.rotationDeg (Arrows.update false now a) ==
     normalize (Arrows.rotationDeg a) +
     Arrows.rotationSpeed a * Arrows.direction a) /\
  (forall now a,
     Qabs (Arrows.rotationDeg (Arrows.update true now a) -
           normalize (Arrows.rotationDeg a)) <= 2) /\
  (forall g b,
     0 <= Bug.rotation (fst (Bug.update g b)) /\
     Bug.rotation (fst (Bug.update g b)) <= 360 /\
     Bug.rotation (fst (Bug.update g b)) = normalize (Bug.rotationDeg b)) /\
  (forall c a1 a2 b,
     Bug.rotationDeg (fst (Bug.update (Bug.mkGame false c a1 a2) b)) ==
     normalize (Bug.rotationDeg b) + Bug.rotationSpeed b * Bug.direction b) /\
  (forall c a1 a2 b,
     Qabs (Bug.rotationDeg (fst (Bug.update (Bug.mkGame true c a1 a2) b)) -
           normalize (Bug.rotationDeg b)) <= 2) /\
  (forall r,
     normalize r = normalize_rounded (fun x => x) r /\
     normalize_rounded (fun x => x) r < 360) /\
  (forall fl r, rounding fl ->
     0 <= normalize_rounded fl r /\ normalize_rounded fl r <= 360) /\
  rounding nearest_double /\
  256 <= JS.rem (- (1 # 2 ^ 48)) 360 + 360 /\
  JS.rem (- (1 # 2 ^ 48)) 360 + 360 < 512 /\
  normalize_rounded nearest_double (- (1 # 2 ^ 48)) == 360.
Proof.
  split; [|split; [|split; [|split; [|split; [|split; [|split;
    [|split; [|split; [|split; [|split]]]]]]]]]].
  - intros go now a. rewrite Arrows_update_rotation.
    pose proof (normalize_range (Arrows.rotationDeg a)) as [L U].
    split; [exact L|]. split; [apply Qlt_le_weak, U | reflexivity].
  - intros now a. rewrite Arrows_update_playing. reflexivity.
  - intros now a. rewrite Arrows_update_over. apply converge_within_step.
  - intros g b. rewrite Bug_update_rotation.
    pose proof (normalize_range (Bug.rotationDeg b)) as [L U].
    split; [exact L|]. split; [apply Qlt_le_weak, U | reflexivity].
  - intros c a1 a2 b. rewrite Bug_update_rotationDeg. reflexivity.
  - intros c a1 a2 b. rewrite Bug_update_rotationDeg.
    apply converge_within_step.
  - intros r. split; [reflexivity|].
    change (normalize_rounded (fun x => x) r) with (normalize r).
    apply normalize_range.
  - intros fl r. apply normalize_rounded_range.
  - exact nearest_double_rounding.
  - vm_compute. discriminate.
  - vm_compute. reflexivity.
  - vm_compute. reflexivity.
Qed.

(** C4, as the claim states it, fails: the first arrow at 359 degrees,
    in play at speed 1, leaves its [update] at 360. *)
Lemma rotationDeg_can_leave_range :
  let a := Arrows.update false Cases.two_past Cases.arrow1_at_359 in
  Arrows.rotationDeg a == 360 /\
  ~ (0 <= Arrows.rotationDeg a /\ Arrows.rotationDeg a < 360).
Proof.
  split.
  - vm_compute. reflexivity.
  - intros [_ H]. vm_compute in H. discriminate H.
Qed.

(** ** C6: the converging frame *)

(** C6, as the code has it.  In a converging frame let [r] be the
    normalised angle and [d = |idleDeg - r|].  When [d <= 180] the frame
    moves the angle by exactly 2 toward [idleDeg], or exactly onto it when
    [d <= 2]; the angle stays between [r] and [idleDeg] and [d] does not
    grow.  When [180 < d <= 358] the shorter arc runs through the seam of
    0 and 360: the frame moves the angle by exactly 2 the other way, so
    [d] grows by 2 while the arc [360 - d] shrinks by 2. *)
Theorem converging_frame_of_update :
  (forall now a,
     converging_frame (normalize (Arrows.rotationDeg a))
                      (Arrows.idleDeg (Arrows.update true now a))
                      (Arrows.rotationDeg (Arrows.update true now a))) /\
  (forall c a1 a2 b,
     let g := Bug.mkGame true c a1 a2 in
     converging_frame (normalize (Bug.rotationDeg b))
                      (Bug.idleDeg (fst (Bug.update g b)))
                      (Bug.rotationDeg (fst (Bug.update g b)))).
Proof.
  split.
  - intros now a. rewrite Arrows_update_over, Arrows_update_idleDeg.
    apply converge_frame.
  - intros c a1 a2 b; cbv zeta. rewrite Bug_update_rotationDeg, Bug_update_idleDeg.
    apply converge_frame.
Qed.

(** C6, as the claim states it, fails: the second arrow at 0 degrees, one
    minute before twelve, has its idle angle at 359.5; the frame takes it to
    -2, past the idle angle, and both [|idleDeg - rotationDeg|] and the
    distance on the circle grow. *)
Lemma converging_distance_can_grow :
  let a := Cases.arrow2_at_0 in
  let a' := Arrows.update true Cases.one_to_twelve a in
  Arrows.idleDeg a' == 719 # 2 /\
  Arrows.rotationDeg a' == -2 /\
  ~ (Qabs (Arrows.idleDeg a' - Arrows.rotationDeg a') <=
     Qabs (Arrows.idleDeg a' - normalize (Arrows.rotationDeg a))) /\
  ~ (arc (Arrows.idleDeg a') (Arrows.rotationDeg a') <=
     arc (Arrows.idleDeg a') (Arrows.rotationDeg a)).
Proof.
  cbv zeta. split; [|split; [|split]].
  - vm_compute. reflexivity.
  - vm_compute. reflexivity.
  - intros H; vm_compute in H; apply H; reflexivity.
  - intros H; vm_compute in H; apply H; reflexivity.
Qed.

(** ** C2: the idle angle of the bug *)

Lemma midpoint_formula (a b : Q) :
  Qmin a b + Qabs (a - b) / 2 == (a + b) / 2.
Proof.
  destruct (Q.min_spec a b) as [[H E]|[H E]]; rewrite E;
    destruct (Qabs_cases (a - b)) as [[H' A]|[H' A]]; rewrite A;
    unfold Qdiv; change (/ 2) with (1 # 2); lra.
Qed.

Lemma gtb_true a b : JS.gtb a b = true <-> b < a.
Proof. apply ltb_true. Qed.

Lemma gtb_false a b : JS.gtb a b = false <-> a <= b.
Proof. apply ltb_false. Qed.

(** C2, as the code has it.  [updateIdleDeg] sets the idle angle of the
    bug to one of the two candidates, the midpoint of the idle angles of the
    arrows and its opposite (both modulo 360): to the one whose difference to
    the idle angle of the first arrow is larger in absolute value, and to the
    opposite when the two differences are equal. *)
Theorem bug_idleDeg_is_the_farther_candidate (g : Bug.Game) (b : Bug.Sprite) :
  let arrow1 := Arrows.idleDeg (Bug.arrow1 g) in
  let arrow2 := Arrows.idleDeg (Bug.arrow2 g) in
  let midpoint := JS.rem ((arrow1 + arrow2) / 2) 360 in
  let opposite := JS.rem ((arrow1 + arrow2) / 2 + 180) 360 in
  let idleDeg := Bug.idleDeg (Bug.updateIdleDeg g b) in
  (Qabs (opposite - arrow1) < Qabs (midpoint - arrow1) ->
   idleDeg == midpoint) /\
  (Qabs (midpoint - arrow1) <= Qabs (opposite - arrow1) ->
   idleDeg == opposite) /\
  (idleDeg == midpoint \/ idleDeg == opposite) /\
  closer arrow1 midpoint idleDeg /\
  closer arrow1 opposite idleDeg.
Proof.
  cbv zeta. unfold closer, Bug.updateIdleDeg.
  set (a1 := Arrows.idleDeg (Bug.arrow1 g)).
  set (a2 := Arrows.idleDeg (Bug.arrow2 g)).
  assert (E1 : JS.rem (Qmin a1 a2 + Qabs (a1 - a2) / 2) 360 ==
               JS.rem ((a1 + a2) / 2) 360)
    by (rewrite midpoint_formula; reflexivity).
  assert (E2 : JS.rem (Qmin a1 a2 + Qabs (a1 - a2) / 2 + 180) 360 ==
               JS.rem ((a1 + a2) / 2 + 180) 360)
    by (rewrite midpoint_formula; reflexivity).
  set (p1 := JS.rem (Qmin a1 a2 + Qabs (a1 - a2) / 2) 360) in *.
  set (p2 := JS.rem (Qmin a1 a2 + Qabs (a1 - a2) / 2 + 180) 360) in *.
  set (m := JS.rem ((a1 + a2) / 2) 360) in *.
  set (o := JS.rem ((a1 + a2) / 2 + 180) 360) in *.
  clearbody p1 p2 m o.
  destruct (JS.gtb (Qabs (p1 - a1)) (Qabs (p2 - a1))) eqn:C;
    [apply gtb_true in C | apply gtb_false in C];
    cbn [Bug.idleDeg Bug.set_idleDeg];
    rewrite E1, E2 in C; rewrite ?E1, ?E2;
    repeat split; try lra; try (intros; lra); try (left; lra);
    try (right; lra).
Qed.

(** C2, as the claim states it, fails: at three o'clock the idle angles of
    the arrows are 0 and 90, the candidates are 45 and 225, and the bug
    takes 225, which is not the one closer to the first arrow, neither by
    the difference nor on the circle. *)
Lemma bug_idleDeg_is_not_the_closer_candidate :
  let arrow1 := Arrows.idleDeg (Bug.arrow1 Cases.game_at_three) in
  let arrow2 := Arrows.idleDeg (Bug.arrow2 Cases.game_at_three) in
  let idleDeg := Bug.idleDeg (Bug.updateIdleDeg Cases.game_at_three Bug.literal) in
  arrow1 == 0 /\ arrow2 == 90 /\
  JS.rem ((arrow1 + arrow2) / 2) 360 == 45 /\
  JS.rem ((arrow1 + arrow2) / 2 + 180) 360 == 225 /\
  idleDeg == 225 /\
  ~ closer arrow1 idleDeg 45 /\
  ~ arc idleDeg arrow1 <= arc 45 arrow1.
Proof.
  cbv zeta. unfold closer.
  split; [|split; [|split; [|split; [|split; [|split]]]]];
    try (vm_compute; reflexivity);
    intros H; vm_compute in H; apply H; reflexivity.
Qed.

(** ** C3: the arrows under the bug *)




(** ** C8: the [bug_overarrow] events *)

Lemma Bug_update_motion_wereOverArrow g b :
  Bug.wereOverArrow (Bug.update_motion g b) = Bug.wereOverArrow b.
Proof.
  unfold Bug.update_motion.
  destruct (Bug_update_jump_fields g (Bug.update_angle g b))
    as (_ & _ & _ & _ & ->).
  apply Bug_update_angle_fields.
Qed.

Lemma isOverArrow_length g b : (List.length (Bug.isOverArrow g b) <= 2)%nat.
Proof.
  unfold Bug.isOverArrow. destruct (negb _); [|simpl; lia].
  cbn [filter]. destruct (_ && _), (_ && _); simpl; lia.
Qed.

(** What a frame emits and what it leaves in the flag. *)
Lemma Bug_update_events g b :
  snd (Bug.update g b) =
  (if Bug.wereOverArrow b then [] else Bug.under g b) /\
  Bug.wereOverArrow (fst (Bug.update g b)) =
  match Bug.under g b with [] => false | _ => true end.
Proof.
  unfold Bug.update, Bug.update_overarrow, Bug.under.
  rewrite Bug_update_motion_wereOverArrow.
  destruct (Bug.isOverArrow g (Bug.update_motion g b)) as [|a l];
    cbn [List.length Nat.eqb negb fst snd Bug.wereOverArrow
         Bug.set_wereOverArrow];
    destruct (Bug.wereOverArrow b); split; reflexivity.
Qed.

Lemma nonempty_by_length (l : list Arrows.Sprite) :
  (List.length l =? 0)%nat = false -> l <> [].
Proof. destruct l; simpl; congruence. Qed.

(** C8, as the code has it.  Over three consecutive frames in which some
    arrow is under the bug, the first of them entered with the flag down,
    [bug_overarrow] is emitted in the first frame only: once for each arrow
    under the bug in that frame, so once or twice.  In any frame, an event
    means that the flag was down and that an arrow is under the bug. *)
Theorem bug_overarrow_only_on_entry
    (g1 g2 g3 : Bug.Game) (b1 b2 b3 : Bug.Sprite) :
  Bug.wereOverArrow b1 = false ->
  Bug.under g1 b1 <> [] ->
  Bug.wereOverArrow b2 = Bug.wereOverArrow (fst (Bug.update g1 b1)) ->
  Bug.under g2 b2 <> [] ->
  Bug.wereOverArrow b3 = Bug.wereOverArrow (fst (Bug.update g2 b2)) ->
  Bug.under g3 b3 <> [] ->
  snd (Bug.update g1 b1) = Bug.under g1 b1 /\
  (1 <= List.length (snd (Bug.update g1 b1)) <= 2)%nat /\
  snd (Bug.update g2 b2) = [] /\
  snd (Bug.update g3 b3) = [] /\
  (forall g b, snd (Bug.update g b) <> [] ->
     Bug.wereOverArrow b = false /\ Bug.under g b <> []).
Proof.
  intros W1 U1 W2 U2 W3 U3.
  destruct (Bug_update_events g1 b1) as [E1 F1].
  destruct (Bug_update_events g2 b2) as [E2 F2].
  destruct (Bug_update_events g3 b3) as [E3 F3].
  rewrite W1 in E1.
  assert (T2 : Bug.wereOverArrow b2 = true).
  { rewrite W2, F1. clear - U1. destruct (Bug.under g1 b1); congruence. }
  assert (T3 : Bug.wereOverArrow b3 = true).
  { rewrite W3, F2. clear - U2. destruct (Bug.under g2 b2); congruence. }
  rewrite T2 in E2. rewrite T3 in E3.
  split; [exact E1|]. split; [|split; [exact E2|split; [exact E3|]]].
  - rewrite E1.
    pose proof (isOverArrow_length g1 (Bug.update_motion g1 b1)) as L.
    fold (Bug.under g1 b1) in L. clear - L U1.
    destruct (Bug.under g1 b1); [congruence | cbn [List.length] in *; lia].
  - intros g b H. destruct (Bug_update_events g b) as [E _].
    rewrite E in H. clear E.
    destruct (Bug.wereOverArrow b); [exfalso; apply H; reflexivity|].
    split; [reflexivity | exact H].
Qed.

Lemma bug_overarrow_only_on_entry_witness :
  let b1 := Cases.jumping_bug in
  let b2 := fst (Bug.update Cases.frame1' b1) in
  let b3 := fst (Bug.update Cases.frame2' b2) in
  snd (Bug.update Cases.frame1' b1) = Bug.under Cases.frame1' b1 /\
  (1 <= List.length (snd (Bug.update Cases.frame1' b1)) <= 2)%nat /\
  snd (Bug.update Cases.frame2' b2) = [] /\
  snd (Bug.update Cases.frame3' b3) = [].
Proof.
  cbv zeta.
  pose proof (bug_overarrow_only_on_entry
                Cases.frame1' Cases.frame2' Cases.frame3'
                Cases.jumping_bug
                (fst (Bug.update Cases.frame1' Cases.jumping_bug))
                (fst (Bug.update Cases.frame2'
                        (fst (Bug.update Cases.frame1' Cases.jumping_bug)))))
    as H.
  destruct H as (H1 & H2 & H3 & H4 & _).
  - vm_compute. reflexivity.
  - apply nonempty_by_length. vm_compute. reflexivity.
  - exact eq_refl.
  - apply nonempty_by_length. vm_compute. reflexivity.
  - exact eq_refl.
  - apply nonempty_by_length. vm_compute. reflexivity.
  - split; [exact H1 | split; [exact H2 | split; [exact H3 | exact H4]]].
Defined.

(** C8, as the claim states it, fails: when both arrows are under the bug
    in the first of three such frames, that frame emits the event twice. *)
Lemma bug_overarrow_twice_in_one_frame :
  let b1 := Cases.jumping_bug in
  let b2 := fst (Bug.update Cases.frame1 b1) in
  let b3 := fst (Bug.update Cases.frame2 b2) in
  Bug.wereOverArrow b1 = false /\
  Bug.under Cases.frame1 b1 <> [] /\
  Bug.under Cases.frame2 b2 <> [] /\
  Bug.under Cases.frame3 b3 <> [] /\
  List.map Arrows.name (snd (Bug.update Cases.frame1 b1)) =
    [Arrows.arrow1; Arrows.arrow2] /\
  List.length (snd (Bug.update Cases.frame1 b1)) <> 1%nat.
Proof.
  cbv zeta.
  split; [reflexivity|].
  split; [apply nonempty_by_length; vm_compute; reflexivity|].
  split; [apply nonempty_by_length; vm_compute; reflexivity|].
  split; [apply nonempty_by_length; vm_compute; reflexivity|].
  split; [vm_compute; reflexivity|].
  vm_compute. discriminate.
Qed.

End EntityFacts.

(* ================================================================== *)
(** * Properties of the colour transitions *)
(* ================================================================== *)

Module ColorFacts.
Import ColorSchemes.
Local Open Scope string_scope.
Local Open Scope Z_scope.

Lemma in_all_ascii (c : ascii) : In c all_ascii.
Proof.
  unfold all_ascii. rewrite <- (ascii_nat_embedding c).
  apply in_map, in_seq. pose proof (nat_ascii_bounded c). lia.
Qed.

Lemma two_digits_checked :
  forallb (fun a => forallb (two_digits_round_trip a) all_ascii) all_ascii
  = true.
Proof. vm_compute. reflexivity. Qed.

(** Two hexadecimal digits are read as a number from 0 to 255, which is
    written as the same two digits in small letters. *)
Lemma two_digits (a c : ascii) :
  is_hex_digit a = true -> is_hex_digit c = true ->
  exists v, parseInt16 (String a (String c EmptyString)) = Int v /\
            0 <= v <= 255 /\
            pad (toString16 (Int v)) =
            String (lower a) (String (lower c) EmptyString).
Proof.
  intros Ha Hc.
  pose proof two_digits_checked as H.
  rewrite forallb_forall in H. specialize (H a (in_all_ascii a)).
  rewrite forallb_forall in H. specialize (H c (in_all_ascii c)).
  unfold two_digits_round_trip in H. rewrite Ha, Hc in H. cbn [andb] in H.
  destruct (parseInt16 (String a (String c EmptyString))) as [|v];
    [discriminate|].
  exists v. rewrite !andb_true_iff in H. destruct H as [[H1 H2] H3].
  split; [reflexivity|]. split; [lia|]. apply String.eqb_eq, H3.
Qed.

(** A channel that has reached its target stays, and is marked done. *)
Lemma channel_at_target (v : Z) (d : bool) :
  channel (Int v) (Int v) d = (Int v, true).
Proof.
  unfold channel. cbn [sub sign]. rewrite Z.sub_diag. cbn.
  rewrite Z.add_0_r. reflexivity.
Qed.

(** One round on integer channels is one step [toward] the target. *)
Lemma channel_toward (fi ti : Z) (d : bool) :
  channel (Int fi) (Int ti) d =
  (Int (toward ti fi), if fi =? ti then true else d).
Proof.
  unfold channel, toward, gt, step. cbn [sub sign mul add eq lt].
  destruct (Z.ltb_spec fi ti) as [L|L].
  - rewrite (Z.sgn_pos (ti - fi)) by lia. cbn.
    destruct (Z.eqb_spec fi ti); [lia|].
    destruct (Z.ltb_spec ti (fi + 2)); f_equal; f_equal; lia.
  - destruct (Z.ltb_spec ti fi) as [G|G].
    + rewrite (Z.sgn_neg (ti - fi)) by lia. cbn.
      destruct (Z.eqb_spec fi ti); [lia|].
      destruct (Z.ltb_spec (fi + -2) ti); f_equal; f_equal; lia.
    + assert (fi = ti) by lia. subst. rewrite Z.sub_diag. cbn.
      rewrite Z.add_0_r, Z.eqb_refl. reflexivity.
Qed.

Lemma drain_more (n m : nat) (g : ColorGen) (values : list string) :
  drain n g = Some values -> (n <= m)%nat -> drain m g = Some values.
Proof.
  revert m g values. induction n as [|n IH]; intros m g values H L.
  - discriminate.
  - destruct m as [|m]; [lia|]. cbn [drain] in *.
    destruct (next g) as [[v|] g']; [|exact H].
    destruct (drain n g') as [vs|] eqn:E; [|discriminate].
    rewrite (IH m g' vs E ltac:(lia)). exact H.
Qed.

Lemma after_add (a c : nat) (g : ColorGen) :
  after (a + c) g = after c (after a g).
Proof.
  revert g. induction a as [|a IH]; intros g; [reflexivity|].
  cbn [Nat.add after]. apply IH.
Qed.

(** A generator that has returned stays as it is and reports done. *)
Lemma next_returned (g : ColorGen) :
  returned g = true -> next g = (Done, g).
Proof. intros H. unfold next. rewrite H. reflexivity. Qed.

Lemma after_returned (n : nat) (g : ColorGen) :
  returned g = true -> after n g = g.
Proof.
  intros H. induction n as [|n IH]; [reflexivity|].
  cbn [after]. rewrite (next_returned g H). exact IH.
Qed.

(** C7.  [transitionColor("#000000","#0260e8")] yields finitely many
    colours (117 of them); from one to the next every channel moves by 2
    toward its target, and not past it; the channels of every value lie
    between those of the two ends; the last value is ["#0260e8"], and the
    next call of [next()] reports done, as does every call after it. *)
Theorem transitionColor_black_to_blue :
  let g := transitionColor "#000000" "#0260e8" in
  exists values,
    (forall fuel, (118 <= fuel)%nat -> drain fuel g = Some values) /\
    List.length values = 117%nat /\
    follows (2, 96, 232) (0, 0, 0) values = true /\
    forallb (within (0, 0, 0) (2, 96, 232)) values = true /\
    last values "" = "#0260e8" /\
    fst (next (after 116 g)) = Yield "#0260e8" /\
    (forall n, fst (next (after (117 + n) g)) = Done).
Proof.
  cbv zeta. eexists. split; [|split; [|split; [|split; [|split; [|split]]]]].
  - intros fuel Hf. apply (drain_more 118); [|exact Hf].
    vm_compute. reflexivity.
  - vm_compute. reflexivity.
  - vm_compute. reflexivity.
  - vm_compute. reflexivity.
  - vm_compute. reflexivity.
  - vm_compute. reflexivity.
  - intros [|n].
    + vm_compute. reflexivity.
    + replace (117 + S n)%nat with (118 + n)%nat by lia.
      rewrite after_add, after_returned by (vm_compute; reflexivity).
      vm_compute. reflexivity.
Qed.

(** The first [next()] on a transition from a colour to itself. *)
Lemma next_same_colour (c : string) :
  is_hex_colour c = true ->
  exists f, next (transitionColor c c) =
            (Yield (lowercase c), mkColorGen f f (true, true, true) false).
Proof.
  intros H.
  destruct c as [|h [|c1 [|c2 [|c3 [|c4 [|c5 [|c6 [|c7 rest]]]]]]]];
    try discriminate H;
    try (destruct h as [[] [] [] [] [] [] [] []]; discriminate H).
  destruct h as [[] [] [] [] [] [] [] []]; try discriminate H.
  cbn [is_hex_colour] in H. rewrite !andb_true_iff in H.
    destruct H as [[[[[H1 H2] H3] H4] H5] H6].
    destruct (two_digits c1 c2 H1 H2) as (r & Pr & _ & Wr).
    destruct (two_digits c3 c4 H3 H4) as (g & Pg & _ & Wg).
    destruct (two_digits c5 c6 H5 H6) as (b & Pb & _ & Wb).
    exists (Int r, Int g, Int b).
    unfold transitionColor, next.
    cbn [slice substring Nat.sub returned f t done negb orb].
    rewrite Pr, Pg, Pb. rewrite !channel_at_target.
    rewrite Wr, Wg, Wb. reflexivity.
Qed.

(** C10, as the code has it.  For a colour [c] written [#rrggbb],
    [transitionColor(c, c)] yields exactly one value before it is done: [c]
    in small letters, which is [c] itself when [c] has no capital letter. *)
Theorem transitionColor_same_colour (c : string) :
  is_hex_colour c = true ->
  (forall fuel, (2 <= fuel)%nat ->
     drain fuel (transitionColor c c) = Some [lowercase c]) /\
  fst (next (transitionColor c c)) = Yield (lowercase c) /\
  fst (next (snd (next (transitionColor c c)))) = Done /\
  (lowercase c = c -> drain 2 (transitionColor c c) = Some [c]).
Proof.
  intros H. destruct (next_same_colour c H) as (f & N).
  assert (D : drain 2 (transitionColor c c) = Some [lowercase c]).
  { cbn [drain]. rewrite N. destruct f as [[f0 f1] f2]. reflexivity. }
  split; [|split; [|split]].
  - intros fuel Hf. apply (drain_more 2); assumption.
  - rewrite N. reflexivity.
  - rewrite N. destruct f as [[f0 f1] f2]. reflexivity.
  - intros E. rewrite D, E. reflexivity.
Qed.

Lemma transitionColor_same_colour_witness :
  drain 2 (transitionColor "#0260E8" "#0260E8") = Some [lowercase "#0260E8"].
Proof.
  apply (transitionColor_same_colour "#0260E8"); [reflexivity | lia].
Defined.

(** C10, as the claim states it, fails: the background of the blue scheme
    of the pool is written with capital letters, and the one value of the
    transition from it to itself is not that string. *)
Lemma transitionColor_same_colour_in_small_letters :
  background blue = "#0260E8" /\
  drain 2 (transitionColor (background blue) (background blue)) =
    Some ["#0260e8"] /\
  "#0260e8" <> background blue.
Proof.
  split; [reflexivity|]. split; [vm_compute; reflexivity|].
  vm_compute. discriminate.
Qed.

End ColorFacts.

(* ================================================================== *)
(** * Properties of the orchestrator and of the factories *)
(* ================================================================== *)

Module GameFacts.
Import Game.
Local Open Scope Q_scope.

Lemma next_colorSchemeIdx_spec (fuel : nat) (idx : Z) :
  (2 <= fuel)%nat -> next_colorSchemeIdx fuel idx = Some (next_index idx).
Proof.
  intros H. destruct fuel as [|[|fuel]]; try lia.
  unfold next_index. cbn [next_colorSchemeIdx].
  change ColorSchemes.length with 6%Z.
  destruct (Z.eqb_spec (Z.rem (idx + 1) 6) 0) as [E|E]; [|reflexivity].
  rewrite E. reflexivity.
Qed.



Lemma on_scorebar_add_colors_spec (fuel : nat) (score : Z) (g : Game) :
  (2 <= fuel)%nat ->
  on_scorebar_add_colors fuel score g =
  Some (if (Z.rem score 5 =? 0)%Z
        then set_transitionColorScheme
               (ColorSchemes.transition (colorSchemeIdx g)
                                        (next_index (colorSchemeIdx g)))
               (set_colorSchemeIdx (next_index (colorSchemeIdx g)) g)
        else g).
Proof.
  intros H. unfold on_scorebar_add_colors.
  rewrite (next_colorSchemeIdx_spec fuel _ H).
  destruct (Z.rem score 5 =? 0)%Z; reflexivity.
Qed.








(** ** C9: the factories *)

(** C9 at the clock.  [Bug], [Arrows] and [ScoreBar] throw when the game is
    missing or falsy, and register nothing; [Clock] has no such test: called
    without a game it registers its listener, builds the clock and returns
    it, the same clock as with a game. *)
Theorem Clock_without_game_returns_a_clock :
  Clock.Clock (@JS.undefined unit) 270 270 None =
    (JS.Return Cases.clock,
     [JS.On "bug_hitground"; JS.Emit "clock_resize" [100];
      JS.Emit "clock_reposition" [270; 270]]) /\
  (forall (G : Type) (game : JS.value G) x y radius,
     Clock.Clock game x y radius = Clock.Clock (JS.object tt) x y radius /\
     exists clock, fst (Clock.Clock game x y radius) = JS.Return clock) /\
  (forall game, JS.not game = true ->
     Bug.Bug game = (JS.Throw "game is not defined", [])) /\
  (forall game now, JS.not game = true ->
     Arrows.Arrows game now = (JS.Throw "game is not defined", [])) /\
  (forall game stored, JS.not game = true ->
     ScoreBar.ScoreBar game stored = (JS.Throw "game is not defined", [])).
Proof.
  split; [reflexivity|]. split; [|split; [|split]].
  - intros G game x y radius. split; [reflexivity|].
    eexists. reflexivity.
  - intros [] H; try reflexivity; discriminate H.
  - intros [] now H; try reflexivity; discriminate H.
  - intros [] stored H; try reflexivity; discriminate H.
Qed.

End GameFacts.

(* ================================================================== *)
(** * More properties of the collision detector *)
(* ================================================================== *)

Module PlaneFacts.
Import Collision CollisionFacts Plane.
Local Open Scope R_scope.

(** ** Symmetry *)

Lemma overlap_or_touch_sym p1 p2 :
  overlap_or_touch p1 p2 <-> overlap_or_touch p2 p1.
Proof. unfold overlap_or_touch, num_ge. tauto. Qed.

Lemma getNormals_nonempty p : p <> [] -> getNormals p <> [].
Proof.
  destruct p as [|q p]; [congruence|]. intros _. unfold getNormals.
  cbn [List.length seq map app]. discriminate.
Qed.

Lemma project_empty v : project (newShape []) v = mkInterval Infinity NegInfinity.
Proof. reflexivity. Qed.

(** Against an empty polygon no axis passes the test. *)
Lemma axis_test_empty_left B v :
  B <> [] -> axis_test (newShape []) (newShape B) v = false.
Proof.
  intros HB. unfold axis_test. rewrite project_empty.
  destruct (project_proper (newShape B) v HB) as (lo & hi & -> & -> & _).
  reflexivity.
Qed.

Lemma axis_test_empty_right A v :
  A <> [] -> axis_test (newShape A) (newShape []) v = false.
Proof.
  intros HA. unfold axis_test. rewrite project_empty.
  destruct (project_proper (newShape A) v HA) as (lo & hi & -> & -> & _).
  reflexivity.
Qed.

Lemma forallb_all_false {T : Type} (f : T -> bool) (l : list T) :
  l <> [] -> (forall v, f v = false) -> forallb f l = false.
Proof.
  destruct l as [|a l]; [congruence|]. intros _ H. cbn. rewrite H. reflexivity.
Qed.

Lemma SATCollision_empty_left B : B <> [] -> SATCollision [] B = false.
Proof.
  intros HB. unfold SATCollision, checkCollision.
  apply forallb_all_false.
  - cbn [normals newShape getNormals List.length seq map app].
    apply getNormals_nonempty, HB.
  - intros v. apply axis_test_empty_left, HB.
Qed.

Lemma SATCollision_empty_right A : A <> [] -> SATCollision A [] = false.
Proof.
  intros HA. unfold SATCollision, checkCollision.
  apply forallb_all_false.
  - cbn [normals newShape]. intros E. apply app_eq_nil in E.
    destruct E as [E _]. revert E. apply getNormals_nonempty, HA.
  - intros v. apply axis_test_empty_right, HA.
Qed.

Lemma SATCollision_swap (A B : list Point) :
  SATCollision A B = SATCollision B A.
Proof.
  destruct A as [|a A], B as [|b B].
  - reflexivity.
  - rewrite SATCollision_empty_left, SATCollision_empty_right by discriminate.
    reflexivity.
  - rewrite SATCollision_empty_left, SATCollision_empty_right by discriminate.
    reflexivity.
  - apply eq_true_iff_eq.
    rewrite (checkCollision_spec (a :: A) (b :: B)) by discriminate.
    rewrite (checkCollision_spec (b :: B) (a :: A)) by discriminate.
    split; intros H v Hv; apply overlap_or_touch_sym, H;
      rewrite in_app_iff in *; tauto.
Qed.

(** X1.  The detector does not depend on the order of its arguments:
    for polygons without an edge of length zero (there the source divides
    by zero), [SATCollision A B] and [SATCollision B A] are the same. *)
Theorem SATCollision_symmetric (A B : list Point) :
  nonzero_edges A -> nonzero_edges B ->
  SATCollision A B = SATCollision B A.
Proof.
  intros _ _. apply SATCollision_swap.
Qed.

Lemma SATCollision_symmetric_witness :
  SATCollision triangle0 triangle2 = SATCollision triangle2 triangle0.
Proof.
  apply (SATCollision_symmetric triangle0 triangle2).
  - exact triangle0_nonzero_edges.
  - exact triangle2_nonzero_edges.
Defined.

(** X2.  An empty list of points collides with nothing but another empty
    list: against a polygon with at least one point, and no edge of length
    zero, the result is [false] on either side, and two empty lists give
    [true]. *)
Theorem SATCollision_with_empty_polygon :
  SATCollision [] [] = true /\
  (forall p B, nonzero_edges (p :: B) -> SATCollision [] (p :: B) = false) /\
  (forall p A, nonzero_edges (p :: A) -> SATCollision (p :: A) [] = false).
Proof.
  split; [reflexivity|]. split; intros p C _.
  - apply SATCollision_empty_left. discriminate.
  - apply SATCollision_empty_right. discriminate.
Qed.

(** ** A common point *)









(** ** Translation *)
















End PlaneFacts.

(* ================================================================== *)
(** * Properties of the rotation and of the outlines *)
(* ================================================================== *)

Module OutlineFacts.
Import Collision CollisionFacts Outline.
Local Open Scope R_scope.

(** The short way of [rotatePoint] for an angle of 0 agrees with the
    formula. *)
Lemma rotatePoint_formula (p : Point) (rad : R) :
  Util.rotatePoint p rad =
  mkPoint (px p * cos rad - py p * sin rad) (px p * sin rad + py p * cos rad).
Proof.
  unfold Util.rotatePoint. cbv zeta.
  destruct (Req_dec_T rad 0) as [->|_]; [|reflexivity].
  rewrite cos_0, sin_0. f_equal; ring.
Qed.

Lemma rotatePoint_dist2 (p q : Point) (rad : R) :
  dist2 (Util.rotatePoint p rad) (Util.rotatePoint q rad) = dist2 p q.
Proof.
  rewrite !rotatePoint_formula. unfold dist2. cbn [px py].
  pose proof (sin2_cos2 rad) as T. unfold Rsqr in T.
  replace ((px p * cos rad - py p * sin rad -
            (px q * cos rad - py q * sin rad)) *
           (px p * cos rad - py p * sin rad -
            (px q * cos rad - py q * sin rad)) +
           (px p * sin rad + py p * cos rad -
            (px q * sin rad + py q * cos rad)) *
           (px p * sin rad + py p * cos rad -
            (px q * sin rad + py q * cos rad)))
    with (((px p - px q) * (px p - px q) + (py p - py q) * (py p - py q)) *
          (sin rad * sin rad + cos rad * cos rad)) by ring.
  rewrite T. ring.
Qed.

(** X5.  [rotatePoint] is the rotation about the origin, for every angle
    (0 included): it keeps the distance of two points, and so the distance
    to the origin; two rotations in a row are the rotation by the sum of the
    angles; the rotation by the opposite angle undoes it. *)
Theorem rotatePoint_is_a_rotation :
  (forall p q rad,
     dist2 (Util.rotatePoint p rad) (Util.rotatePoint q rad) = dist2 p q) /\
  (forall p rad,
     px (Util.rotatePoint p rad) * px (Util.rotatePoint p rad) +
     py (Util.rotatePoint p rad) * py (Util.rotatePoint p rad) =
     px p * px p + py p * py p) /\
  (forall p a b,
     Util.rotatePoint (Util.rotatePoint p a) b = Util.rotatePoint p (a + b)) /\
  (forall p a, Util.rotatePoint (Util.rotatePoint p a) (- a) = p) /\
  (forall p, Util.rotatePoint p 0 = p).
Proof.
  split; [|split; [|split; [|split]]].
  - apply rotatePoint_dist2.
  - intros p rad. rewrite !rotatePoint_formula. cbn [px py].
    pose proof (sin2_cos2 rad) as T. unfold Rsqr in T.
    replace ((px p * cos rad - py p * sin rad) *
             (px p * cos rad - py p * sin rad) +
             (px p * sin rad + py p * cos rad) *
             (px p * sin rad + py p * cos rad))
      with ((px p * px p + py p * py p) *
            (sin rad * sin rad + cos rad * cos rad)) by ring.
    rewrite T. ring.
  - intros p a b. rewrite !rotatePoint_formula. cbn [px py].
    rewrite cos_plus, sin_plus. f_equal; ring.
  - intros p a. rewrite !rotatePoint_formula. cbn [px py].
    rewrite cos_neg, sin_neg.
    pose proof (sin2_cos2 a) as T. unfold Rsqr in T.
    destruct p as [x y]. cbn [px py]. f_equal.
    + replace ((x * cos a - y * sin a) * cos a -
               (x * sin a + y * cos a) * - sin a)
        with (x * (sin a * sin a + cos a * cos a)) by ring.
      rewrite T. ring.
    + replace ((x * cos a - y * sin a) * - sin a +
               (x * sin a + y * cos a) * cos a)
        with (y * (sin a * sin a + cos a * cos a)) by ring.
      rewrite T. ring.
  - intros [x y]. unfold Util.rotatePoint. cbv zeta.
    destruct (Req_dec_T 0 0) as [_|N]; [reflexivity | exfalso; apply N; reflexivity].
Qed.

(** ** The outlines handed to the detector *)

(** What [calculateTransformedPath] does to one point. *)
Lemma calculateTransformedPath_dist2 (this : Box) (p q : Point) :
  let place point :=
    Util.rotatePoint
      (mkPoint (px point - width this * anchor_x this)
               (py point - height this * anchor_y this))
      (rotation this) in
  dist2 (place p) (place q) = dist2 p q.
Proof.
  cbv beta zeta. rewrite rotatePoint_dist2. unfold dist2. cbn [px py]. ring.
Qed.

Lemma edge_length_by_dist2 (p : list Point) (i : nat) :
  x1 p i * x1 p i + y1 p i * y1 p i = dist2 (nxt p i) (crt p i).
Proof. unfold x1, y1, dist2. ring.
Qed.

Lemma square_positive (a : R) : a <> 0 -> 0 < a * a.
Proof. intros H. nra. Qed.

(** X6.  The outlines the game hands to the detector meet what the
    detector asks for: for a bug of non-zero width and height and an arrow of
    non-zero width, whatever their anchors and rotations, the outline of the
    bug has four points and the cut outline of the arrow three, and all
    their edges have non-zero length.  The uncut outline of an arrow would
    not do: it ends on its first point, an edge of length 0. *)
Theorem outlines_fit_the_detector (bug arrow : Box) :
  width bug <> 0 -> height bug <> 0 -> width arrow <> 0 ->
  let b := calculateTransformedPath (bug_calculatePath bug) bug in
  let whole := calculateTransformedPath (arrow_calculatePath arrow) arrow in
  let a := firstn 3 whole in
  List.length b = 4%nat /\ List.length a = 3%nat /\
  nonzero_edges b /\ nonzero_edges a /\
  List.length whole = 8%nat /\ l whole 7 = 0.
Proof.
  intros Wb Hb Wa. cbv zeta.
  pose proof (square_positive _ Wb) as Pw.
  pose proof (square_positive _ Hb) as Ph.
  pose proof (square_positive _ Wa) as Pa.
  split; [reflexivity|]. split; [reflexivity|].
  split; [|split; [|split; [reflexivity|]]].
  - intros i Hi. apply l_positive_conv. rewrite edge_length_by_dist2.
    unfold calculateTransformedPath, bug_calculatePath in *.
    cbn [map List.length] in Hi.
    destruct i as [|[|[|[|i]]]]; [| | | |lia];
      cbn [map nxt crt nth nth_error Nat.add];
      rewrite (calculateTransformedPath_dist2 bug);
      unfold dist2; cbn [px py]; nra.
  - intros i Hi. apply l_positive_conv. rewrite edge_length_by_dist2.
    unfold calculateTransformedPath, arrow_calculatePath in *.
    cbn [map firstn List.length] in Hi.
    destruct i as [|[|[|i]]]; [| | |lia];
      cbn [map firstn nxt crt nth nth_error Nat.add];
      rewrite (calculateTransformedPath_dist2 arrow);
      unfold dist2; cbn [px py]; nra.
  - unfold l. rewrite edge_length_by_dist2.
    unfold calculateTransformedPath, arrow_calculatePath.
    cbn [map nxt crt nth nth_error Nat.add].
    rewrite (calculateTransformedPath_dist2 arrow).
    unfold dist2. cbn [px py].
    replace ((0 - 0) * (0 - 0) + (width arrow - width arrow) * (width arrow - width arrow))
      with 0 by ring.
    apply sqrt_0.
Qed.

Lemma outlines_fit_the_detector_witness :
  let box := mkBox 20 112 (1 / 2) 1 0 in
  nonzero_edges (calculateTransformedPath (bug_calculatePath box) box).
Proof.
  cbv zeta.
  apply (outlines_fit_the_detector (mkBox 20 112 (1 / 2) 1 0)
                                   (mkBox 20 112 (1 / 2) 1 0));
    cbn [width height]; lra.
Defined.

End OutlineFacts.

(* ================================================================== *)
(** * The collision detector and the rotation *)
(* ================================================================== *)

Module TurnFacts.
Import Collision CollisionFacts Plane PlaneFacts Outline OutlineFacts Turn.
Local Open Scope R_scope.


















(** ** The crash test of the game *)






End TurnFacts.

(* ================================================================== *)
(** * The runs of the colour generators *)
(* ================================================================== *)

Module ColorRunFacts.
Import ColorSchemes ColorFacts ColorRuns.
Local Open Scope string_scope.
Local Open Scope Z_scope.

Lemma bytes_checked : forallb byte_round_trip (seq 0 256) = true.
Proof. vm_compute. reflexivity. Qed.

(** A channel is written with two digits, which read as the channel. *)
Lemma byte_written (v : Z) :
  0 <= v <= 255 ->
  exists a c, pad (toString16 (Int v)) = String a (String c EmptyString) /\
              parseInt16 (String a (String c EmptyString)) = Int v.
Proof.
  intros H. pose proof bytes_checked as C. rewrite forallb_forall in C.
  specialize (C (Z.to_nat v)). unfold byte_round_trip in C.
  rewrite Z2Nat.id in C by lia.
  specialize (C ltac:(apply in_seq; lia)).
  destruct (pad (toString16 (Int v))) as [|a [|c [|? ?]]]; try discriminate.
  exists a, c. split; [reflexivity|].
  destruct (parseInt16 (String a (String c ""))) as [|u]; [discriminate|].
  apply Z.eqb_eq in C. congruence.
Qed.

Lemma channels_of_colour (r g b : Z) :
  0 <= r <= 255 -> 0 <= g <= 255 -> 0 <= b <= 255 ->
  channels (colour r g b) = (Int r, Int g, Int b).
Proof.
  intros Hr Hg Hb. unfold colour, channels.
  destruct (byte_written r Hr) as (a1 & c1 & -> & P1).
  destruct (byte_written g Hg) as (a2 & c2 & -> & P2).
  destruct (byte_written b Hb) as (a3 & c3 & -> & P3).
  cbn [append slice substring Nat.sub]. rewrite P1, P2, P3. reflexivity.
Qed.

Lemma toward_between (f t : Z) :
  Z.min f t <= toward t f <= Z.max f t /\
  Z.abs (t - toward t f) = Z.max (Z.abs (t - f) - 2) 0.
Proof.
  unfold toward, step.
  destruct (Z.ltb_spec f t); [lia|]. destruct (Z.ltb_spec t f); lia.
Qed.

Lemma steps_toward (f t : Z) :
  f <> t -> steps (toward t f) t = steps f t - 1.
Proof.
  intros H. unfold steps. destruct (toward_between f t) as [_ ->].
  Z.div_mod_to_equations. lia.
Qed.

Lemma steps_nonneg (f t : Z) : 0 <= steps f t.
Proof. unfold steps. Z.div_mod_to_equations. lia. Qed.

Lemma steps_bound (f t : Z) :
  0 <= f <= 255 -> 0 <= t <= 255 -> steps f t <= 128.
Proof.
  intros Hf Ht. unfold steps. Z.div_mod_to_equations. lia.
Qed.

(** One round takes one off the rounds a channel has left. *)
Lemma rounds_left_next (f t : Z) (d : bool) :
  (d = true -> f = t) ->
  rounds_left (toward t f) t (if f =? t then true else d) =
  Z.max (rounds_left f t d - 1) 0 /\
  ((if f =? t then true else d) = true -> toward t f = t).
Proof.
  intros I. unfold rounds_left.
  destruct (Z.eqb_spec f t) as [E|E].
  - subst. split.
    + destruct d; [reflexivity|].
      assert (steps t t = 0) as -> by (unfold steps; rewrite Z.sub_diag; reflexivity).
      reflexivity.
    + intros _. unfold toward. rewrite Z.ltb_irrefl. reflexivity.
  - destruct d; [exfalso; apply E, I; reflexivity|]. split; [|discriminate].
    rewrite steps_toward by exact E.
    assert (1 <= steps f t).
    { unfold steps. Z.div_mod_to_equations. lia. }
    lia.
Qed.

(** [next()] on a generator whose channels are integers. *)
Lemma next_on_integers f0 f1 f2 t0 t1 t2 (d0 d1 d2 : bool) :
  next (mkColorGen (Int f0, Int f1, Int f2) (Int t0, Int t1, Int t2)
                   (d0, d1, d2) false) =
  if negb d0 || negb d1 || negb d2 then
    (Yield (colour (toward t0 f0) (toward t1 f1) (toward t2 f2)),
     mkColorGen (Int (toward t0 f0), Int (toward t1 f1), Int (toward t2 f2))
                (Int t0, Int t1, Int t2)
                (if f0 =? t0 then true else d0,
                 if f1 =? t1 then true else d1,
                 if f2 =? t2 then true else d2) false)
  else
    (Done, mkColorGen (Int f0, Int f1, Int f2) (Int t0, Int t1, Int t2)
                      (d0, d1, d2) true).
Proof.
  unfold next. cbn [returned f t done].
  destruct (negb d0 || negb d1 || negb d2); [|reflexivity].
  rewrite !channel_toward. reflexivity.
Qed.

Lemma toward_stays_between (F f t : Z) :
  Z.min F t <= f <= Z.max F t -> Z.min F t <= toward t f <= Z.max F t.
Proof. intros H. destruct (toward_between f t) as [T _]. lia. Qed.

Lemma toward_same (t : Z) : toward t t = t.
Proof. unfold toward. rewrite Z.ltb_irrefl. reflexivity. Qed.

(** In its last round a channel is at its target. *)
Lemma last_round (f t : Z) (d : bool) :
  (d = true -> f = t) -> rounds_left f t d <= 1 -> toward t f = t.
Proof.
  intros I H. assert (f = t) as ->; [|apply toward_same].
  destruct d; [apply I; reflexivity|].
  unfold rounds_left, steps in H.
  revert H. Z.div_mod_to_equations. lia.
Qed.

Lemma no_round_left (f t : Z) (d : bool) : rounds_left f t d <= 0 -> d = true.
Proof.
  unfold rounds_left. destruct d; [reflexivity|].
  pose proof (steps_nonneg f t). lia.
Qed.

Section Run.
Variables F0 F1 F2 t0 t1 t2 : Z.
Hypothesis HF0 : 0 <= F0 <= 255.
Hypothesis HF1 : 0 <= F1 <= 255.
Hypothesis HF2 : 0 <= F2 <= 255.
Hypothesis Ht0 : 0 <= t0 <= 255.
Hypothesis Ht1 : 0 <= t1 <= 255.
Hypothesis Ht2 : 0 <= t2 <= 255.

(** A generator under way: its channels lie between the ends, and a
    channel marked done is at its target. *)
Let sound (f0 f1 f2 : Z) (d0 d1 d2 : bool) : Prop :=
  (Z.min F0 t0 <= f0 <= Z.max F0 t0) /\
  (Z.min F1 t1 <= f1 <= Z.max F1 t1) /\
  (Z.min F2 t2 <= f2 <= Z.max F2 t2) /\
  (d0 = true -> f0 = t0) /\ (d1 = true -> f1 = t1) /\ (d2 = true -> f2 = t2).

Lemma run_to_the_end (n : nat) :
  forall f0 f1 f2 d0 d1 d2,
    sound f0 f1 f2 d0 d1 d2 ->
    Z.of_nat n =
      Z.max (rounds_left f0 t0 d0)
            (Z.max (rounds_left f1 t1 d1) (rounds_left f2 t2 d2)) ->
    exists values,
      drain (S n) (mkColorGen (Int f0, Int f1, Int f2) (Int t0, Int t1, Int t2)
                              (d0, d1, d2) false) = Some values /\
      List.length values = n /\
      follows (t0, t1, t2) (f0, f1, f2) values = true /\
      forallb (within (F0, F1, F2) (t0, t1, t2)) values = true /\
      forallb truthy values = true /\
      (n <> O -> last values "" = colour t0 t1 t2).
Proof.
  induction n as [|n IH]; intros f0 f1 f2 d0 d1 d2 S E.
  - exists []. cbn [drain]. rewrite next_on_integers.
    assert (d0 = true /\ d1 = true /\ d2 = true) as (-> & -> & ->).
    { split; [|split];
        [apply (no_round_left f0 t0) | apply (no_round_left f1 t1)
        | apply (no_round_left f2 t2)]; clear - E; lia. }
    repeat split; try reflexivity. congruence.
  - destruct S as (B0 & B1 & B2 & I0 & I1 & I2).
    destruct (rounds_left_next f0 t0 d0 I0) as [R0 J0].
    destruct (rounds_left_next f1 t1 d1 I1) as [R1 J1].
    destruct (rounds_left_next f2 t2 d2 I2) as [R2 J2].
    pose proof (toward_stays_between F0 f0 t0 B0) as T0.
    pose proof (toward_stays_between F1 f1 t1 B1) as T1.
    pose proof (toward_stays_between F2 f2 t2 B2) as T2.
    assert (C : negb d0 || negb d1 || negb d2 = true).
    { destruct d0, d1, d2; try reflexivity.
      unfold rounds_left in E. clear - E. lia. }
    destruct (IH (toward t0 f0) (toward t1 f1) (toward t2 f2)
                 (if f0 =? t0 then true else d0)
                 (if f1 =? t1 then true else d1)
                 (if f2 =? t2 then true else d2))
      as (vs & D & L & Fo & W & Tr & La).
    { unfold sound. tauto. }
    { rewrite R0, R1, R2. clear - E. lia. }
    exists (colour (toward t0 f0) (toward t1 f1) (toward t2 f2) :: vs).
    assert (Ch : channels (colour (toward t0 f0) (toward t1 f1) (toward t2 f2)) =
                 (Int (toward t0 f0), Int (toward t1 f1), Int (toward t2 f2)))
      by (apply channels_of_colour; clear - HF0 HF1 HF2 Ht0 Ht1 Ht2 T0 T1 T2; lia).
    split; [|split; [|split; [|split; [|split]]]].
    + change (drain (S (S n)) ?g) with
        (match next g with
         | (Yield v, g') =>
             match drain (S n) g' with
             | Some vs => Some (v :: vs)
             | None => None
             end
         | (Done, _) => Some []
         end).
      rewrite next_on_integers, C, D. reflexivity.
    + cbn [List.length]. rewrite L. reflexivity.
    + cbn [follows]. rewrite Ch, !Z.eqb_refl, Fo. reflexivity.
    + cbn [forallb]. rewrite W, andb_true_r. unfold within. rewrite Ch.
      unfold between. rewrite !andb_true_iff, !Z.leb_le.
      clear - T0 T1 T2. lia.
    + cbn [forallb]. rewrite Tr. reflexivity.
    + intros _. destruct n as [|n].
      * destruct vs; [|discriminate L]. cbn [last].
        rewrite (last_round f0 t0 d0 I0), (last_round f1 t1 d1 I1),
          (last_round f2 t2 d2 I2) by (clear - E; lia).
        reflexivity.
      * destruct vs as [|v vs]; [discriminate L|].
        change (last (?a :: v :: vs) "") with (last (v :: vs) "").
        apply La. discriminate.
Qed.

End Run.

(** A colour written [#rrggbb] has three channels from 0 to 255, which
    [transitionColor] writes as the colour in small letters. *)
Lemma hex_colour_channels (s : string) :
  is_hex_colour s = true ->
  exists r g b,
    0 <= r <= 255 /\ 0 <= g <= 255 /\ 0 <= b <= 255 /\
    channels s = (Int r, Int g, Int b) /\ colour r g b = lowercase s.
Proof.
  intros H.
  destruct s as [|h [|c1 [|c2 [|c3 [|c4 [|c5 [|c6 [|c7 rest]]]]]]]];
    try discriminate H;
    try (destruct h as [[] [] [] [] [] [] [] []]; discriminate H).
  destruct h as [[] [] [] [] [] [] [] []]; try discriminate H.
  cbn [is_hex_colour] in H. rewrite !andb_true_iff in H.
  destruct H as [[[[[H1 H2] H3] H4] H5] H6].
  destruct (two_digits c1 c2 H1 H2) as (r & Pr & Br & Wr).
  destruct (two_digits c3 c4 H3 H4) as (g & Pg & Bg & Wg).
  destruct (two_digits c5 c6 H5 H6) as (b & Pb & Bb & Wb).
  exists r, g, b. repeat (split; [assumption|]).
  split.
  - unfold channels. cbn [slice substring Nat.sub].
    rewrite Pr, Pg, Pb. reflexivity.
  - unfold colour. rewrite Wr, Wg, Wb. reflexivity.
Qed.

(** The values of a transition between two colours written [#rrggbb]. *)
Lemma transitionColor_values (from to : string) :
  is_hex_colour from = true -> is_hex_colour to = true ->
  exists values,
    drain 130 (transitionColor from to) = Some values /\
    (1 <= List.length values <= 129)%nat /\
    (let '(f0, f1, f2) := rgb from in
     let '(t0, t1, t2) := rgb to in
     Z.of_nat (List.length values) =
     1 + Z.max (steps f0 t0) (Z.max (steps f1 t1) (steps f2 t2))) /\
    follows (rgb to) (rgb from) values = true /\
    forallb (within (rgb from) (rgb to)) values = true /\
    forallb truthy values = true /\
    last values "" = lowercase to.
Proof.
  intros Hf Ht.
  destruct (hex_colour_channels from Hf)
    as (f0 & f1 & f2 & Bf0 & Bf1 & Bf2 & Cf & _).
  destruct (hex_colour_channels to Ht)
    as (t0 & t1 & t2 & Bt0 & Bt1 & Bt2 & Ct & Wt).
  assert (G : transitionColor from to =
              mkColorGen (Int f0, Int f1, Int f2) (Int t0, Int t1, Int t2)
                         (false, false, false) false).
  { unfold transitionColor. unfold channels in Cf, Ct.
    injection Cf as -> -> ->. injection Ct as -> -> ->. reflexivity. }
  unfold rgb. rewrite Cf, Ct, G.
  pose proof (steps_nonneg f0 t0) as N0. pose proof (steps_nonneg f1 t1) as N1.
  pose proof (steps_nonneg f2 t2) as N2.
  pose proof (steps_bound f0 t0 Bf0 Bt0) as U0.
  pose proof (steps_bound f1 t1 Bf1 Bt1) as U1.
  pose proof (steps_bound f2 t2 Bf2 Bt2) as U2.
  set (n := Z.to_nat (1 + Z.max (steps f0 t0) (Z.max (steps f1 t1) (steps f2 t2)))).
  destruct (run_to_the_end f0 f1 f2 t0 t1 t2 Bf0 Bf1 Bf2 Bt0 Bt1 Bt2 n
              f0 f1 f2 false false false)
    as (values & D & L & Fo & W & Tr & La).
  { repeat split; try discriminate; lia. }
  { unfold rounds_left, n. rewrite Z2Nat.id by lia. lia. }
  exists values.
  assert (Ln : (1 <= n <= 129)%nat) by (unfold n; lia).
  split; [|split; [|split; [|split; [|split; [|split]]]]].
  - apply (drain_more (S n)); [exact D | lia].
  - rewrite L. exact Ln.
  - rewrite L. unfold n. rewrite Z2Nat.id by lia. reflexivity.
  - exact Fo.
  - exact W.
  - exact Tr.
  - rewrite La by lia. exact Wt.
Qed.

(** X7.  Between any two colours written [#rrggbb], [transitionColor]
    comes to an end: it yields one value more than the largest number of
    steps of 2 a channel needs, so from 1 to 129 values; from one value to
    the next every channel moves one step toward its target and not past
    it; every channel of every value lies between the two ends; and the last
    value is the target colour, in small letters. *)
Theorem transitionColor_reaches_its_target (from to : string) :
  is_hex_colour from = true -> is_hex_colour to = true ->
  exists values,
    (forall fuel, (130 <= fuel)%nat ->
       drain fuel (transitionColor from to) = Some values) /\
    (1 <= List.length values <= 129)%nat /\
    (let '(f0, f1, f2) := rgb from in
     let '(t0, t1, t2) := rgb to in
     Z.of_nat (List.length values) =
     1 + Z.max (steps f0 t0) (Z.max (steps f1 t1) (steps f2 t2))) /\
    follows (rgb to) (rgb from) values = true /\
    forallb (within (rgb from) (rgb to)) values = true /\
    last values "" = lowercase to.
Proof.
  intros Hf Ht.
  destruct (transitionColor_values from to Hf Ht)
    as (values & D & L & N & Fo & W & _ & La).
  exists values. split; [|tauto].
  intros fuel Hfuel. apply (drain_more 130); assumption.
Qed.

Lemma transitionColor_reaches_its_target_witness :
  exists values,
    drain 130 (transitionColor "#F6522E" "#0260E8") = Some values /\
    last values "" = "#0260e8".
Proof.
  destruct (transitionColor_reaches_its_target "#F6522E" "#0260E8")
    as (values & D & _ & _ & _ & _ & La); [reflexivity | reflexivity |].
  exists values. split; [apply D; lia | exact La].
Defined.

Lemma next_done_returned (g g' : ColorGen) :
  next g = (Done, g') -> returned g' = true.
Proof.
  unfold next. destruct (returned g) eqn:R.
  - intros E. injection E as <-. exact R.
  - destruct (f g) as [[f0 f1] f2], (t g) as [[t0 t1] t2],
      (done g) as [[d0 d1] d2].
    destruct (negb d0 || negb d1 || negb d2).
    + destruct (channel f0 t0 d0), (channel f1 t1 d1), (channel f2 t2 d2).
      discriminate.
    + intros E. injection E as <-. reflexivity.
Qed.

Lemma yields_nothing_when_returned (g : ColorGen) :
  returned g = true -> yields g [].
Proof.
  intros R k _. cbn [drain]. rewrite (next_returned g R). reflexivity.
Qed.

Lemma yields_by_drain (n : nat) (g : ColorGen) (values : list string) :
  drain n g = Some values -> yields g values.
Proof.
  revert g values. induction n as [|n IH]; intros g values D; [discriminate|].
  cbn [drain] in D. intros k Hk. cbn [drain].
  destruct (next g) as [[v|] g'] eqn:N.
  - destruct (drain n g') as [vs|] eqn:E; [|discriminate].
    injection D as <-. cbn [List.length] in Hk.
    destruct k as [|k]; [lia|].
    rewrite (IH g' vs E k ltac:(lia)). reflexivity.
  - exact D.
Qed.

(** One role of one round. *)
Lemma role_of_yields (g : ColorGen) (values : list string) (old : string)
    (done_ : bool) :
  yields g values -> forallb truthy values = true ->
  exists g',
    role g old done_ =
      (g', hd old values,
       match values with [] => done_ | _ => false end) /\
    yields g' (tl values).
Proof.
  intros Y T. pose proof (Y (List.length values) (Nat.le_refl _)) as D.
  cbn [drain] in D. unfold role.
  destruct (next g) as [[v|] g'] eqn:N.
  - destruct (drain (List.length values) g') as [vs|] eqn:E; [|discriminate].
    injection D as <-. cbn [forallb] in T. apply andb_true_iff in T.
    destruct T as [Tv _]. rewrite Tv.
    exists g'. split; [reflexivity|]. cbn [tl].
    apply (yields_by_drain _ _ _ E).
  - injection D as <-. exists g'. split; [reflexivity|].
    apply yields_nothing_when_returned, (next_done_returned g g' N).
Qed.

Lemma last_cons {T : Type} (a d : T) (l : list T) : last (a :: l) d = last l a.
Proof.
  revert a d. induction l as [|b l IH]; intros a d; [reflexivity|].
  change (last (a :: b :: l) d) with (last (b :: l) d).
  rewrite (IH b d), (IH b a). reflexivity.
Qed.

Lemma last_tl_hd {T : Type} (c : T) (l : list T) :
  last (tl l) (hd c l) = last l c.
Proof. destruct l as [|a l]; [reflexivity|]. cbn [tl hd]. symmetry. apply last_cons. Qed.

Lemma last_indep_of_default {T : Type} (l : list T) (c d : T) :
  (1 <= List.length l)%nat -> last l c = last l d.
Proof.
  destruct l as [|a l]; cbn [List.length]; [lia|]. intros _.
  rewrite !last_cons. reflexivity.
Qed.

Lemma length_tl {T : Type} (l : list T) :
  List.length (tl l) = Nat.pred (List.length l).
Proof. destruct l; reflexivity. Qed.

Lemma truthy_tl (l : list string) :
  forallb truthy l = true -> forallb truthy (tl l) = true.
Proof.
  destruct l as [|a l]; [trivial|]. cbn [forallb tl].
  intros H. apply andb_true_iff in H. tauto.
Qed.

Lemma pred_max2 (a b : nat) :
  Nat.pred (Nat.max a b) = Nat.max (Nat.pred a) (Nat.pred b).
Proof. lia. Qed.

Lemma flag_true {T : Type} (l : list T) (d : bool) :
  match l with [] => d | _ => false end = true -> l = [] /\ d = true.
Proof. destruct l; [tauto | discriminate]. Qed.

(** A scheme generator whose five colour generators yield the given
    values runs for as many rounds as the longest of them, and ends on the
    last value of each (or on the colour it started with). *)
Lemma scheme_run (M : nat) :
  forall g1 g2 g3 g4 g5 vs1 vs2 vs3 vs4 vs5 c1 c2 c3 c4 c5,
    yields g1 vs1 -> yields g2 vs2 -> yields g3 vs3 -> yields g4 vs4 ->
    yields g5 vs5 ->
    forallb truthy vs1 = true -> forallb truthy vs2 = true ->
    forallb truthy vs3 = true -> forallb truthy vs4 = true ->
    forallb truthy vs5 = true ->
    M = Nat.max (List.length vs1)
          (Nat.max (List.length vs2)
             (Nat.max (List.length vs3)
                (Nat.max (List.length vs4) (List.length vs5)))) ->
    exists schemes,
      drain_scheme (S M)
        (mkSchemeGen g1 g2 g3 g4 g5 (mkColorScheme c1 c2 c3 c4 c5) false) =
        Some schemes /\
      List.length schemes = M /\
      last schemes (mkColorScheme c1 c2 c3 c4 c5) =
      mkColorScheme (last vs1 c1) (last vs2 c2) (last vs3 c3) (last vs4 c4)
                    (last vs5 c5).
Proof.
  induction M as [|M IH];
    intros g1 g2 g3 g4 g5 vs1 vs2 vs3 vs4 vs5 c1 c2 c3 c4 c5
           Y1 Y2 Y3 Y4 Y5 T1 T2 T3 T4 T5 E.
  - assert (vs1 = [] /\ vs2 = [] /\ vs3 = [] /\ vs4 = [] /\ vs5 = [])
      as (-> & -> & -> & -> & ->).
    { repeat split; apply length_zero_iff_nil; lia. }
    exists []. cbn [drain_scheme]. unfold next_scheme.
    cbn [scheme_returned gen_background gen_scorebar gen_arrows gen_clock
         gen_numbers colorScheme background scorebar arrows clock numbers].
    destruct (role_of_yields g1 [] c1 true Y1 T1) as (g1' & -> & _).
    destruct (role_of_yields g2 [] c2 true Y2 T2) as (g2' & -> & _).
    destruct (role_of_yields g3 [] c3 true Y3 T3) as (g3' & -> & _).
    destruct (role_of_yields g4 [] c4 true Y4 T4) as (g4' & -> & _).
    destruct (role_of_yields g5 [] c5 true Y5 T5) as (g5' & -> & _).
    repeat split.
  - set (d1 := match vs1 with [] => true | _ => false end).
    set (d2 := match vs2 with [] => d1 | _ => false end).
    set (d3 := match vs3 with [] => d2 | _ => false end).
    set (d4 := match vs4 with [] => d3 | _ => false end).
    set (d5 := match vs5 with [] => d4 | _ => false end).
    destruct (role_of_yields g1 vs1 c1 true Y1 T1) as (g1' & R1 & Y1').
    destruct (role_of_yields g2 vs2 c2 d1 Y2 T2) as (g2' & R2 & Y2').
    destruct (role_of_yields g3 vs3 c3 d2 Y3 T3) as (g3' & R3 & Y3').
    destruct (role_of_yields g4 vs4 c4 d3 Y4 T4) as (g4' & R4 & Y4').
    destruct (role_of_yields g5 vs5 c5 d4 Y5 T5) as (g5' & R5 & Y5').
    fold d1 in R1. fold d2 in R2. fold d3 in R3. fold d4 in R4. fold d5 in R5.
    assert (D : d5 = false).
    { destruct d5 eqn:D5; [exfalso|reflexivity].
      apply flag_true in D5. destruct D5 as [E5 D4].
      apply flag_true in D4. destruct D4 as [E4 D3].
      apply flag_true in D3. destruct D3 as [E3 D2].
      apply flag_true in D2. destruct D2 as [E2 D1].
      apply flag_true in D1. destruct D1 as [E1 _].
      subst vs1 vs2 vs3 vs4 vs5. discriminate E. }
    destruct (IH g1' g2' g3' g4' g5' (tl vs1) (tl vs2) (tl vs3) (tl vs4)
                 (tl vs5) (hd c1 vs1) (hd c2 vs2) (hd c3 vs3) (hd c4 vs4)
                 (hd c5 vs5))
      as (schemes & DS & L & La); try assumption; try (apply truthy_tl; assumption).
    { rewrite !length_tl, <- !pred_max2, <- E. reflexivity. }
    exists (mkColorScheme (hd c1 vs1) (hd c2 vs2) (hd c3 vs3) (hd c4 vs4)
                          (hd c5 vs5) :: schemes).
    split; [|split].
    + change (drain_scheme (S (S M)) ?s) with
        (match next_scheme s with
         | (Yield v, s') =>
             match drain_scheme (S M) s' with
             | Some vs => Some (v :: vs)
             | None => None
             end
         | (Done, _) => Some []
         end).
      unfold next_scheme.
      cbn [scheme_returned gen_background gen_scorebar gen_arrows gen_clock
           gen_numbers colorScheme background scorebar arrows clock numbers].
      rewrite R1, R2, R3, R4, R5, D, DS. reflexivity.
    + cbn [List.length]. rewrite L. reflexivity.
    + rewrite last_cons, La, !last_tl_hd. reflexivity.
Qed.

Lemma drain_scheme_more (n m : nat) (s : SchemeGen) (schemes : list ColorScheme) :
  drain_scheme n s = Some schemes -> (n <= m)%nat ->
  drain_scheme m s = Some schemes.
Proof.
  revert m s schemes. induction n as [|n IH]; intros m s schemes H L.
  - discriminate.
  - destruct m as [|m]; [lia|]. cbn [drain_scheme] in *.
    destruct (next_scheme s) as [[v|] s']; [|exact H].
    destruct (drain_scheme n s') as [vs|] eqn:E; [|discriminate].
    rewrite (IH m s' vs E ltac:(lia)). exact H.
Qed.

(** The run of a transition between two schemes of colours [#rrggbb]. *)
Lemma transitionColorScheme_run (from to : ColorScheme) :
  is_hex_scheme from = true -> is_hex_scheme to = true ->
  exists schemes,
    drain_scheme 130 (transitionColorScheme from to) = Some schemes /\
    (1 <= List.length schemes <= 129)%nat /\
    last schemes from = lowercase_scheme to.
Proof.
  destruct from as [b1 b2 b3 b4 b5].
  unfold is_hex_scheme. rewrite !andb_true_iff.
  cbn [background scorebar arrows clock numbers].
  intros [[[[F1 F2] F3] F4] F5] [[[[T1 T2] T3] T4] T5].
  destruct (transitionColor_values _ _ F1 T1) as (v1 & D1 & L1 & _ & _ & _ & R1 & E1).
  destruct (transitionColor_values _ _ F2 T2) as (v2 & D2 & L2 & _ & _ & _ & R2 & E2).
  destruct (transitionColor_values _ _ F3 T3) as (v3 & D3 & L3 & _ & _ & _ & R3 & E3).
  destruct (transitionColor_values _ _ F4 T4) as (v4 & D4 & L4 & _ & _ & _ & R4 & E4).
  destruct (transitionColor_values _ _ F5 T5) as (v5 & D5 & L5 & _ & _ & _ & R5 & E5).
  destruct (scheme_run _ _ _ _ _ _ v1 v2 v3 v4 v5
              b1 b2 b3 b4 b5
              (yields_by_drain _ _ _ D1) (yields_by_drain _ _ _ D2)
              (yields_by_drain _ _ _ D3) (yields_by_drain _ _ _ D4)
              (yields_by_drain _ _ _ D5) R1 R2 R3 R4 R5 eq_refl)
    as (schemes & DS & L & La).
  exists schemes.
  assert (Lm : (1 <= List.length schemes <= 129)%nat) by (rewrite L; lia).
  split; [|split].
  - unfold transitionColorScheme. apply (drain_scheme_more _ _ _ _ DS). lia.
  - exact Lm.
  - rewrite La. unfold lowercase_scheme. 
    rewrite <- E1, <- E2, <- E3, <- E4, <- E5.
    f_equal; apply last_indep_of_default; lia.
Qed.

Lemma pool_is_hex : forallb is_hex_scheme pool = true.
Proof. vm_compute. reflexivity. Qed.

Lemma get_is_hex (index : Z) (scheme : ColorScheme) :
  get index = Some scheme -> is_hex_scheme scheme = true.
Proof.
  unfold get. destruct (index <? 0); [discriminate|]. intros H.
  apply nth_error_In in H.
  exact (proj1 (forallb_forall is_hex_scheme pool) pool_is_hex scheme H).
Qed.

Lemma get_in_pool (index : Z) :
  0 <= index < length -> exists scheme, get index = Some scheme.
Proof.
  intros H. unfold get. destruct (index <? 0) eqn:E; [lia|].
  destruct (nth_error pool (Z.to_nat index)) as [scheme|] eqn:N.
  - exists scheme. reflexivity.
  - apply nth_error_None in N. unfold length in H. lia.
Qed.

(** X8.  Between two schemes whose five colours are written [#rrggbb],
    [transitionColorScheme] comes to an end: it yields from 1 to 129
    schemes, and the last one it yields is the target scheme, its colours in
    small letters. *)
Theorem transitionColorScheme_reaches_its_target (from to : ColorScheme) :
  is_hex_scheme from = true -> is_hex_scheme to = true ->
  exists schemes,
    (forall fuel, (130 <= fuel)%nat ->
       drain_scheme fuel (transitionColorScheme from to) = Some schemes) /\
    (1 <= List.length schemes <= 129)%nat /\
    last schemes from = lowercase_scheme to.
Proof.
  intros Hf Ht.
  destruct (transitionColorScheme_run from to Hf Ht) as (schemes & D & L & La).
  exists schemes. split; [|split; assumption].
  intros fuel Hfuel. apply (drain_scheme_more 130); assumption.
Qed.

Lemma transitionColorScheme_reaches_its_target_witness :
  exists schemes,
    (forall fuel, (130 <= fuel)%nat ->
       drain_scheme fuel (transitionColorScheme red blue) = Some schemes) /\
    (1 <= List.length schemes <= 129)%nat /\
    last schemes red = lowercase_scheme blue.
Proof.
  apply (transitionColorScheme_reaches_its_target red blue);
    vm_compute; reflexivity.
Defined.

(** X9.  [ColorSchemes.transition] between any two indices of the pool
    gives a generator that ends within 129 schemes on the scheme of the
    second index, its colours in small letters. *)
Theorem transition_within_the_pool (index1 index2 : Z) :
  0 <= index1 < length -> 0 <= index2 < length ->
  exists scheme1 scheme2 gen schemes,
    get index1 = Some scheme1 /\ get index2 = Some scheme2 /\
    transition index1 index2 = Some gen /\
    drain_scheme 130 gen = Some schemes /\
    (1 <= List.length schemes <= 129)%nat /\
    last schemes scheme1 = lowercase_scheme scheme2.
Proof.
  intros H1 H2.
  destruct (get_in_pool index1 H1) as (scheme1 & G1).
  destruct (get_in_pool index2 H2) as (scheme2 & G2).
  destruct (transitionColorScheme_run scheme1 scheme2
              (get_is_hex _ _ G1) (get_is_hex _ _ G2)) as (schemes & D & L & La).
  exists scheme1, scheme2, (transitionColorScheme scheme1 scheme2), schemes.
  unfold transition. rewrite G1, G2. repeat split; try assumption; apply L.
Qed.

Lemma transition_within_the_pool_witness :
  exists scheme1 scheme2 gen schemes,
    get 5 = Some scheme1 /\ get 1 = Some scheme2 /\
    transition 5 1 = Some gen /\
    drain_scheme 130 gen = Some schemes /\
    (1 <= List.length schemes <= 129)%nat /\
    last schemes scheme1 = lowercase_scheme scheme2.
Proof.
  apply (transition_within_the_pool 5 1); unfold length; simpl; lia.
Defined.

End ColorRunFacts.

(* ================================================================== *)
(** * The angles settle *)
(* ================================================================== *)

Module FramesFacts.
Import Angle AngleFacts Frames.
Local Open Scope Q_scope.

(** ** Normalising *)

Lemma trunc_unique (q : Q) (k : Z) :
  (0 <= q -> inject_Z k <= q < inject_Z k + 1 -> JS.trunc q = k) /\
  (q <= 0 -> inject_Z k - 1 < q <= inject_Z k -> JS.trunc q = k).
Proof.
  destruct (trunc_bounds q) as [Hp Hn].
  split; intros H0 [H1 H2].
  - specialize (Hp H0). apply inject_Z_close; lra.
  - specialize (Hn H0). apply inject_Z_close; lra.
Qed.

Lemma normalize_above r : 360 <= r -> r < 720 -> normalize r == r - 360.
Proof.
  intros H0 H1.
  assert (T : JS.trunc (r / 360) = 1%Z).
  { apply (proj1 (trunc_unique (r / 360) 1)); rewrite div360;
      change (inject_Z 1) with 1; lra. }
  unfold normalize, JS.rem. rewrite T. change (inject_Z 1) with 1.
  destruct (JS.ltb (r - 360 * 1) 0) eqn:L; [apply ltb_true in L|]; lra.
Qed.

Lemma normalize_below r : -360 < r -> r < 0 -> normalize r == r + 360.
Proof.
  intros H0 H1.
  assert (T : JS.trunc (r / 360) = 0%Z).
  { apply (proj2 (trunc_unique (r / 360) 0)); rewrite div360;
      change (inject_Z 0) with 0; lra. }
  unfold normalize, JS.rem. rewrite T. change (inject_Z 0) with 0.
  destruct (JS.ltb (r - 360 * 0) 0) eqn:L; [|apply ltb_false in L]; lra.
Qed.

(** ** One frame *)

Lemma frames_add (m n : nat) (idle r : Q) :
  frames (m + n) idle r = frames n idle (frames m idle r).
Proof.
  revert r. induction m as [|m IH]; intros r; [reflexivity|].
  cbn [Nat.add frames]. apply IH.
Qed.

Lemma at_idle (idle r : Q) : r == idle -> converge r idle == idle.
Proof.
  intros E.
  destruct (converge_cases r idle)
    as [(D & H & C)|[(D & H & H' & C)|[(D & H & C)|[(D & H & H' & C)|
        [(D & H & C)|(D & H & C)]]]]]; lra.
Qed.

(** A frame reaches [idle], or shortens the way by 2. *)
Lemma frame_shortens (idle r b : Q) :
  0 <= idle -> idle < 360 -> 0 <= r -> r < 360 -> way idle r b ->
  converge r idle == idle \/ way idle (normalize (converge r idle)) (b - 2).
Proof.
  intros I0 I1 R0 R1 W. unfold way in *.
  destruct (converge_cases r idle)
    as [(D & H & C)|[(D & H & H' & C)|[(D & H & C)|[(D & H & H' & C)|
        [(D & H & C)|(D & H & C)]]]]].
  - (* a full step down *)
    right. left.
    assert (N : normalize (converge r idle) == r - 2).
    { rewrite C. apply normalize_small; lra. }
    rewrite N. clear N C.
    destruct W as [[_ W]|[W _]]; [|lra].
    revert D W. abs_cases. intros D W.
    all: split; lra.
  - left. exact C.
  - right. left.
    assert (N : normalize (converge r idle) == r + 2).
    { rewrite C. apply normalize_small; lra. }
    rewrite N. clear N C.
    destruct W as [[_ W]|[W _]]; [|lra].
    revert D W. abs_cases. intros D W.
    all: split; lra.
  - left. exact C.
  - (* through the seam, upward *)
    right.
    destruct W as [[W _]|[_ W]]; [lra|].
    destruct (Qlt_le_dec (r + 2) 360) as [In|Out].
    + right.
      assert (N : normalize (converge r idle) == r + 2).
      { rewrite C. apply normalize_small; lra. }
      rewrite N. clear N C.
      revert D W. abs_cases. intros D W.
      all: split; lra.
    + left.
      assert (N : normalize (converge r idle) == r + 2 - 360).
      { rewrite C. apply normalize_above; lra. }
      rewrite N. clear N C.
      revert D W. abs_cases. intros D W.
      all: split; lra.
  - (* through the seam, downward *)
    right.
    destruct W as [[W _]|[_ W]]; [lra|].
    destruct (Qlt_le_dec (r - 2) 0) as [Out|In].
    + left.
      assert (N : normalize (converge r idle) == r - 2 + 360).
      { rewrite C. apply normalize_below; lra. }
      rewrite N. clear N C.
      revert D W. abs_cases. intros D W.
      all: split; lra.
    + right.
      assert (N : normalize (converge r idle) == r - 2).
      { rewrite C. apply normalize_small; lra. }
      rewrite N. clear N C.
      revert D W. abs_cases. intros D W.
      all: split; lra.
Qed.

Lemma way_longer (idle r b b' : Q) : way idle r b -> b <= b' -> way idle r b'.
Proof.
  unfold way. intros [[D W]|[D W]] L; [left|right]; split; lra.
Qed.

Lemma way_of_any (idle r : Q) :
  0 <= idle -> idle < 360 -> 0 <= r -> r < 360 -> way idle r 184.
Proof.
  intros I0 I1 R0 R1. unfold way.
  destruct (Qlt_le_dec 180 (Qabs (idle - r))) as [L|L]; [right|left];
    (split; [exact L|]); lra.
Qed.

Lemma way_is_positive (idle r b : Q) :
  0 <= idle -> idle < 360 -> 0 <= r -> r < 360 -> way idle r b -> 0 <= b.
Proof.
  intros I0 I1 R0 R1. unfold way. abs_cases. 
  all: intros [[D W]|[D W]]; lra.
Qed.

(** Once at [idle], the angle stays there. *)
Lemma frames_at_idle (n : nat) (idle r : Q) :
  0 <= idle -> idle < 360 -> r == idle -> frames n idle r == idle.
Proof.
  intros I0 I1. revert r. induction n as [|n IH]; intros r E; [exact E|].
  cbn [frames]. apply IH. unfold frame. apply at_idle.
  rewrite E. apply normalize_small; assumption.
Qed.

Lemma count_next (n : nat) :
  inject_Z (Z.of_nat (S n)) == inject_Z (Z.of_nat n) + 1.
Proof.
  rewrite Nat2Z.inj_succ. unfold Z.succ. rewrite inject_Z_plus. reflexivity.
Qed.

(** A way of [2 n] takes [n] frames, and one more for an angle that is
    not yet in range. *)
Lemma frames_of_way (idle : Q) (n : nat) :
  0 <= idle -> idle < 360 ->
  forall r, way idle (normalize r) (2 * inject_Z (Z.of_nat n)) ->
            frames (S n) idle r == idle.
Proof.
  intros I0 I1. induction n as [|n IH]; intros r W.
  - destruct (normalize_range r) as [R0 R1].
    destruct (frame_shortens idle (normalize r) _ I0 I1 R0 R1 W) as [E|W'].
    + exact E.
    + destruct (normalize_range (converge (normalize r) idle)) as [C0 C1].
      pose proof (way_is_positive _ _ _ I0 I1 C0 C1 W') as P.
      change (inject_Z (Z.of_nat 0)) with 0 in P. lra.
  - destruct (normalize_range r) as [R0 R1].
    change (frames (S (S n)) idle r) with (frames (S n) idle (frame idle r)).
    destruct (frame_shortens idle (normalize r) _ I0 I1 R0 R1 W) as [E|W'].
    + apply frames_at_idle; assumption.
    + apply IH. apply (way_longer _ _ _ _ W'). rewrite count_next. lra.
Qed.

(** From any angle, 93 frames are enough, and so are more. *)
Lemma frames_settle (idle r : Q) (n : nat) :
  0 <= idle -> idle < 360 -> (93 <= n)%nat -> frames n idle r == idle.
Proof.
  intros I0 I1 L.
  replace n with ((n - 93) + 93)%nat by lia.
  rewrite frames_add.
  apply (frames_of_way idle 92 I0 I1).
  destruct (normalize_range (frames (n - 93) idle r)) as [R0 R1].
  apply (way_longer idle _ 184); [apply way_of_any; assumption|].
  vm_compute. discriminate.
Qed.

(** ** The idle angles *)

Lemma minutes_in_Q (now : JS.Date) :
  time_of_day now ->
  0 <= inject_Z (JS.getMinutes now) /\ inject_Z (JS.getMinutes now) <= 59.
Proof.
  intros [[M0 M1] _]. change 0 with (inject_Z 0). change 59 with (inject_Z 59).
  rewrite <- !Zle_Qle. lia.
Qed.

Lemma hours_in_Q (now : JS.Date) :
  time_of_day now ->
  0 <= inject_Z (Z.rem (JS.getHours now) 12) /\
  inject_Z (Z.rem (JS.getHours now) 12) <= 11.
Proof.
  intros [_ [H0 H1]]. change 0 with (inject_Z 0). change 11 with (inject_Z 11).
  rewrite <- !Zle_Qle.
  pose proof (Z.rem_bound_pos (JS.getHours now) 12 H0 ltac:(lia)). lia.
Qed.

Lemma Arrows_idleDeg_formula (now : JS.Date) (a : Arrows.Sprite) :
  Arrows.idleDeg (Arrows.updateIdleDeg now a) ==
  match Arrows.name a with
  | Arrows.arrow1 => 6 * inject_Z (JS.getMinutes now)
  | Arrows.arrow2 =>
      30 * inject_Z (Z.rem (JS.getHours now) 12) +
      (1 # 2) * inject_Z (JS.getMinutes now)
  end.
Proof.
  unfold Arrows.updateIdleDeg.
  destruct (Arrows.name a); cbn [Arrows.idleDeg Arrows.set_idleDeg].
  - setoid_replace (360 / 60) with 6 by reflexivity. reflexivity.
  - setoid_replace (360 / 12) with 30 by reflexivity.
    setoid_replace (360 / 60 / 12) with (1 # 2) by reflexivity. reflexivity.
Qed.

Lemma Arrows_idleDeg_range (now : JS.Date) (a : Arrows.Sprite) :
  time_of_day now ->
  0 <= Arrows.idleDeg (Arrows.updateIdleDeg now a) /\
  Arrows.idleDeg (Arrows.updateIdleDeg now a) < 360.
Proof.
  intros T. rewrite Arrows_idleDeg_formula.
  destruct (minutes_in_Q now T) as [M0 M1], (hours_in_Q now T) as [H0 H1].
  destruct (Arrows.name a); lra.
Qed.

(** ** The arrows *)

Lemma Arrows_update_name go now a :
  Arrows.name (Arrows.update go now a) = Arrows.name a.
Proof. destruct go, a as [[] ? ? ? ? ? ? ? ? ? ?]; reflexivity. Qed.

Lemma arrow_frames_rotationDeg (n : nat) (now : JS.Date) (a : Arrows.Sprite) :
  Arrows.rotationDeg (arrow_frames n now a) =
  frames n (Arrows.idleDeg (Arrows.updateIdleDeg now a)) (Arrows.rotationDeg a).
Proof.
  revert a. induction n as [|n IH]; intros a; [reflexivity|].
  cbn [arrow_frames frames]. rewrite IH, Arrows_update_over.
  rewrite (Arrows_updateIdleDeg_any now (Arrows.update true now a) a)
    by apply Arrows_update_name.
  reflexivity.
Qed.

Lemma arrow_frames_idleDeg (n : nat) (now : JS.Date) (a : Arrows.Sprite) :
  Arrows.idleDeg (arrow_frames (S n) now a) =
  Arrows.idleDeg (Arrows.updateIdleDeg now a).
Proof.
  revert a. induction n as [|n IH]; intros a.
  - apply Arrows_update_idleDeg.
  - change (arrow_frames (S (S n)) now a)
      with (arrow_frames (S n) now (Arrows.update true now a)).
    rewrite IH. apply Arrows_updateIdleDeg_any, Arrows_update_name.
Qed.

(** X10.  When the game is over, each arrow turns to the angle of the
    time of day and stays there: whatever angle it starts from, after 93
    frames, and after any number of frames beyond, its [rotationDeg] is its
    [idleDeg], so that the test the game makes before it starts a round
    holds for the arrow.  (The wall clock is taken to show the same minute
    all along.) *)
Theorem arrows_settle (now : JS.Date) (a : Arrows.Sprite) (n : nat) :
  time_of_day now -> (93 <= n)%nat ->
  let a' := arrow_frames n now a in
  Arrows.idleDeg a' = Arrows.idleDeg (Arrows.updateIdleDeg now a) /\
  Arrows.rotationDeg a' == Arrows.idleDeg a' /\
  JS.eqb (Arrows.idleDeg a') (Arrows.rotationDeg a') = true.
Proof.
  intros T L a'.
  assert (I : Arrows.idleDeg a' = Arrows.idleDeg (Arrows.updateIdleDeg now a)).
  { unfold a'. destruct n as [|n]; [lia|]. apply arrow_frames_idleDeg. }
  assert (R : Arrows.rotationDeg a' == Arrows.idleDeg a').
  { rewrite I. unfold a'. rewrite arrow_frames_rotationDeg.
    destruct (Arrows_idleDeg_range now a T) as [I0 I1].
    apply frames_settle; assumption. }
  split; [exact I|]. split; [exact R|].
  unfold JS.eqb. apply Qeq_bool_iff. symmetry. exact R.
Qed.

Lemma arrows_settle_witness :
  Arrows.idleDeg (arrow_frames 93 (JS.mkDate 15 10) Arrows.literal2) =
  Arrows.idleDeg (Arrows.updateIdleDeg (JS.mkDate 15 10) Arrows.literal2) /\
  Arrows.rotationDeg (arrow_frames 93 (JS.mkDate 15 10) Arrows.literal2) ==
  Arrows.idleDeg (arrow_frames 93 (JS.mkDate 15 10) Arrows.literal2) /\
  JS.eqb (Arrows.idleDeg (arrow_frames 93 (JS.mkDate 15 10) Arrows.literal2))
         (Arrows.rotationDeg (arrow_frames 93 (JS.mkDate 15 10) Arrows.literal2))
  = true.
Proof.
  apply (arrows_settle (JS.mkDate 15 10) Arrows.literal2 93).
  - unfold time_of_day. cbn. lia.
  - lia.
Defined.

End FramesFacts.

(* ================================================================== *)
(** * Properties of the game over many frames *)
(* ================================================================== *)

Module PlayFacts.
Import Angle AngleFacts Frames FramesFacts Game GameFacts Play.
Local Open Scope Q_scope.

(** [update] is its five steps. *)
Lemma update_steps fuel now random collided g :
  update fuel now random collided g =
  match update_bug fuel random
          (update_sprites now (update_clock (update_colors g))) with
  | Some g => Some (update_crash collided g)
  | None => None
  end.
Proof.
  unfold update, update_bug, update_sprites, update_clock, update_crash.
  fold (update_colors g). generalize (update_colors g). clear g. intros g.
  cbv zeta.
  destruct (Clock.update (clock g)) as [c emitted].
  match goal with
  | |- context [Bug.update ?a ?b] => destruct (Bug.update a b) as [b' arrows]
  end.
  reflexivity.
Qed.

(** ** What each step leaves as it is *)

Lemma update_colors_keeps g :
  angles (update_colors g) = angles g /\ tally (update_colors g) = tally g.
Proof.
  unfold update_colors.
  destruct (transitionColorScheme g) as [gen|]; [|split; reflexivity].
  destruct (ColorSchemes.next_scheme gen) as [[v|] gen']; split; reflexivity.
Qed.

Lemma emit_clock_resize_keeps radius g :
  angles (emit_clock_resize radius g) = angles g /\
  tally (emit_clock_resize radius g) = tally g.
Proof. split; reflexivity. Qed.

Lemma dispatch_clock_keeps es g :
  angles (dispatch_clock es g) = angles g /\
  tally (dispatch_clock es g) = tally g.
Proof.
  revert g. induction es as [|e es IH]; intros g; [split; reflexivity|].
  cbn [dispatch_clock].
  destruct e as [ev|ev [|radius [|? ?]]]; try apply IH.
  destruct (IH (emit_clock_resize radius g)) as [-> ->].
  apply emit_clock_resize_keeps.
Qed.

Lemma update_clock_keeps g :
  angles (update_clock g) = angles g /\ tally (update_clock g) = tally g.
Proof.
  unfold update_clock. destruct (Clock.update (clock g)) as [c emitted].
  destruct (dispatch_clock_keeps emitted (set_clock c g)) as [-> ->].
  split; reflexivity.
Qed.

Lemma update_sprites_fields now g :
  gameOver (update_sprites now g) = gameOver g /\
  arrow1 (update_sprites now g) = Arrows.update (gameOver g) now (arrow1 g) /\
  arrow2 (update_sprites now g) = Arrows.update (gameOver g) now (arrow2 g) /\
  bug (update_sprites now g) = bug g /\
  tally (update_sprites now g) =
    (colorSchemeIdx g,
     if gameOver g then 0%Z else ScoreBar.score (scoreBar g),
     ScoreBar.hiScore (scoreBar g)).
Proof.
  repeat split. unfold tally, update_sprites, ScoreBar.update.
  destruct (gameOver g); reflexivity.
Qed.

(** One point: the angles stay, the count moves on. *)
Lemma scoreBar_add_keeps fuel g :
  (2 <= fuel)%nat ->
  exists g',
    scoreBar_add fuel 1 g = Some g' /\
    angles g' = angles g /\ bug g' = bug g /\
    tally g' =
      (let score := (ScoreBar.score (scoreBar g) + 1)%Z in
       (if (Z.rem score 5 =? 0)%Z then next_index (colorSchemeIdx g)
        else colorSchemeIdx g,
        score,
        if (ScoreBar.hiScore (scoreBar g) <? score)%Z then score
        else ScoreBar.hiScore (scoreBar g))).
Proof.
  intros H. unfold scoreBar_add. cbn [ScoreBar.add]. unfold emit_scorebar_add.
  rewrite (on_scorebar_add_colors_spec fuel _ _ H).
  eexists. split; [reflexivity|]. unfold on_scorebar_add_speed. cbv zeta.
  destruct (Z.rem (ScoreBar.score (scoreBar g) + 1) 5 =? 0)%Z,
           (Z.rem (ScoreBar.score (scoreBar g) + 1) 10 =? 0)%Z;
    repeat split.
Qed.

Lemma next_index_sound (previous : Z) :
  (0 <= previous)%Z -> (1 <= next_index previous <= 5)%Z.
Proof.
  intros H. unfold next_index.
  pose proof (Z.rem_bound_pos (previous + 1) 6 ltac:(lia) ltac:(lia)).
  destruct (Z.eqb_spec (Z.rem (previous + 1) 6) 0); lia.
Qed.

(** The count after one point is sound when it was, and the high score
    has not gone down. *)
Lemma tally_of_a_point (g g' : Game) :
  tally g' =
    (let score := (ScoreBar.score (scoreBar g) + 1)%Z in
     (if (Z.rem score 5 =? 0)%Z then next_index (colorSchemeIdx g)
      else colorSchemeIdx g,
      score,
      if (ScoreBar.hiScore (scoreBar g) <? score)%Z then score
      else ScoreBar.hiScore (scoreBar g))) ->
  (ScoreBar.hiScore (scoreBar g) <= ScoreBar.hiScore (scoreBar g'))%Z /\
  (sound g -> sound g').
Proof.
  unfold tally, sound. cbv zeta. intros E. injection E as E1 E2 E3.
  rewrite E1, E2, E3. clear E1 E2 E3.
  set (score := ScoreBar.score (scoreBar g)).
  set (hi := ScoreBar.hiScore (scoreBar g)).
  set (idx := colorSchemeIdx g). clearbody score hi idx.
  pose proof (next_index_sound idx) as N.
  destruct (Z.ltb_spec hi (score + 1)),
           (Z.rem (score + 1) 5 =? 0)%Z; split; try lia;
    intros [I S]; split; try lia; apply N; lia.
Qed.

Lemma on_bug_overarrow_keeps fuel random arrow g :
  (2 <= fuel)%nat ->
  exists g',
    on_bug_overarrow fuel random arrow g = Some g' /\
    angles g' = angles g /\ bug g' = bug g /\
    (ScoreBar.hiScore (scoreBar g) <= ScoreBar.hiScore (scoreBar g'))%Z /\
    (sound g -> sound g').
Proof.
  intros H. unfold on_bug_overarrow.
  destruct (scoreBar_add_keeps fuel g H) as (g1 & -> & A & B & T).
  destruct (tally_of_a_point g g1 T) as [Hi So].
  eexists. split; [reflexivity|].
  destruct arrow; (split; [exact A|]); (split; [exact B|]);
    (split; [exact Hi|]); exact So.
Qed.

Lemma emit_bug_overarrow_keeps fuel random arrows :
  (2 <= fuel)%nat ->
  forall n g,
  exists g',
    emit_bug_overarrow fuel random n arrows g = Some g' /\
    angles g' = angles g /\ bug g' = bug g /\
    (ScoreBar.hiScore (scoreBar g) <= ScoreBar.hiScore (scoreBar g'))%Z /\
    (sound g -> sound g').
Proof.
  intros H. induction arrows as [|a arrows IH]; intros n g.
  - exists g. cbn [emit_bug_overarrow].
    split; [reflexivity|]. split; [reflexivity|]. split; [reflexivity|].
    split; [lia|]. intros S; exact S.
  - cbn [emit_bug_overarrow].
    destruct (on_bug_overarrow_keeps fuel (random n) (Arrows.name a) g H)
      as (g1 & -> & A1 & B1 & H1 & S1).
    destruct (IH (S n) g1) as (g2 & E2 & A2 & B2 & H2 & S2).
    exists g2. split; [exact E2|]. rewrite A2, B2, A1, B1.
    split; [reflexivity|]. split; [reflexivity|]. split; [lia|].
    intros S. apply S2, S1, S.
Qed.

Lemma angles_fields g b n1 r1 i1 n2 r2 i2 rb ib :
  angles g = (b, (n1, r1, i1), (n2, r2, i2), (rb, ib)) ->
  gameOver g = b /\
  (Arrows.name (arrow1 g) = n1 /\ Arrows.rotationDeg (arrow1 g) = r1 /\
   Arrows.idleDeg (arrow1 g) = i1) /\
  (Arrows.name (arrow2 g) = n2 /\ Arrows.rotationDeg (arrow2 g) = r2 /\
   Arrows.idleDeg (arrow2 g) = i2) /\
  Bug.rotationDeg (bug g) = rb /\ Bug.idleDeg (bug g) = ib.
Proof.
  unfold angles. intros E.
  apply pair_equal_spec in E. destruct E as [E Eb].
  apply pair_equal_spec in E. destruct E as [E E2].
  apply pair_equal_spec in E. destruct E as [Eg E1].
  apply pair_equal_spec in Eb. destruct Eb as [Eb1 Eb2].
  apply pair_equal_spec in E1. destruct E1 as [E1 Ei1].
  apply pair_equal_spec in E1. destruct E1 as [En1 Er1].
  apply pair_equal_spec in E2. destruct E2 as [E2 Ei2].
  apply pair_equal_spec in E2. destruct E2 as [En2 Er2].
  repeat split; assumption.
Qed.

Lemma update_bug_keeps fuel random g :
  (2 <= fuel)%nat ->
  exists g',
    update_bug fuel random g = Some g' /\
    angles g' =
      (gameOver g,
       (Arrows.name (arrow1 g), Arrows.rotationDeg (arrow1 g),
        Arrows.idleDeg (arrow1 g)),
       (Arrows.name (arrow2 g), Arrows.rotationDeg (arrow2 g),
        Arrows.idleDeg (arrow2 g)),
       (Bug.rotationDeg (fst (Bug.update (for_bug g) (bug g))),
        Bug.idleDeg (fst (Bug.update (for_bug g) (bug g))))) /\
    (ScoreBar.hiScore (scoreBar g) <= ScoreBar.hiScore (scoreBar g'))%Z /\
    (sound g -> sound g').
Proof.
  intros H. unfold update_bug.
  destruct (Bug.update (for_bug g) (bug g)) as [b arrows].
  destruct (emit_bug_overarrow_keeps fuel random arrows H 0%nat (set_bug b g))
    as (g' & E & A & _ & Hi & So).
  exists g'. split; [exact E|]. split; [exact A|]. split; [exact Hi|].
  intros S. apply So. exact S.
Qed.

Lemma update_crash_keeps collided g :
  (ScoreBar.hiScore (scoreBar (update_crash collided g)) =
   ScoreBar.hiScore (scoreBar g)) /\
  (sound g -> sound (update_crash collided g)) /\
  (gameOver g = true -> update_crash collided g = g).
Proof.
  unfold update_crash.
  destruct (gameOver g), collided; cbn [negb andb];
    (split; [reflexivity|]); (split; [|try reflexivity; discriminate]);
    try (intros S; exact S).
  unfold sound. intros [_ S]. split; [cbn; lia | exact S].
Qed.

(** ** The count in a frame, at a key and at a resize *)

Lemma sound_sprites now g : sound g -> sound (update_sprites now g).
Proof.
  destruct (update_sprites_fields now g) as (_ & _ & _ & _ & T).
  unfold tally in T. apply pair_equal_spec in T. destruct T as [T T3].
  apply pair_equal_spec in T. destruct T as [T1 T2].
  unfold sound. rewrite T1, T2, T3. destruct (gameOver g); lia.
Qed.

Lemma sound_by_tally g g' : tally g' = tally g -> sound g -> sound g'.
Proof.
  unfold tally, sound. intros E. injection E as -> -> ->. tauto.
Qed.

Lemma hiScore_by_tally g g' :
  tally g' = tally g ->
  ScoreBar.hiScore (scoreBar g') = ScoreBar.hiScore (scoreBar g).
Proof. unfold tally. intros E. injection E as _ _ ->. reflexivity. Qed.

Lemma update_sound fuel now random collided g :
  (2 <= fuel)%nat -> sound g ->
  exists g',
    update fuel now random collided g = Some g' /\ sound g' /\
    (ScoreBar.hiScore (scoreBar g) <= ScoreBar.hiScore (scoreBar g'))%Z.
Proof.
  intros H S. rewrite update_steps.
  destruct (update_colors_keeps g) as [_ T1].
  destruct (update_clock_keeps (update_colors g)) as [_ T2].
  set (g2 := update_clock (update_colors g)) in *.
  destruct (update_sprites_fields now g2) as (_ & _ & _ & _ & T3).
  assert (S3 : sound (update_sprites now g2)).
  { apply sound_sprites, (sound_by_tally (update_colors g)); [exact T2|].
    apply (sound_by_tally g); assumption. }
  assert (H3 : ScoreBar.hiScore (scoreBar (update_sprites now g2)) =
               ScoreBar.hiScore (scoreBar g)).
  { unfold tally in T3. apply pair_equal_spec in T3.
    destruct T3 as [_ ->].
    rewrite (hiScore_by_tally _ _ T2). apply hiScore_by_tally, T1. }
  clearbody g2. set (g3 := update_sprites now g2) in *. clearbody g3.
  destruct (update_bug_keeps fuel random g3 H) as (g4 & -> & _ & Hi & So).
  destruct (update_crash_keeps collided g4) as (Hc & Sc & _).
  exists (update_crash collided g4).
  split; [reflexivity|]. split; [apply Sc, So, S3|]. rewrite Hc. lia.
Qed.

Lemma keydown_tally keyCode g : tally (keydown keyCode g) = tally g.
Proof.
  unfold keydown.
  destruct (gameOver g), (keyCode =? 38)%Z, (keyCode =? 32)%Z;
    match goal with
    | |- context [if ?c then start _ else _] => destruct c
    end; reflexivity.
Qed.

Lemma onresize_tally w h g : tally (onresize w h g) = tally g.
Proof. reflexivity. Qed.

Lemma react_sound fuel e g :
  (2 <= fuel)%nat -> sound g ->
  exists g',
    react fuel e g = Some g' /\ sound g' /\
    (ScoreBar.hiScore (scoreBar g) <= ScoreBar.hiScore (scoreBar g'))%Z.
Proof.
  intros H S. destruct e as [now random collided|keyCode|w h]; cbn [react].
  - apply update_sound; assumption.
  - eexists. split; [reflexivity|].
    split; [apply (sound_by_tally g); [apply keydown_tally | exact S]|].
    rewrite (hiScore_by_tally _ _ (keydown_tally keyCode g)). lia.
  - eexists. split; [reflexivity|].
    split; [apply (sound_by_tally g); [apply onresize_tally | exact S]|].
    rewrite (hiScore_by_tally _ _ (onresize_tally w h g)). lia.
Qed.

Lemma run_sound fuel es :
  (2 <= fuel)%nat ->
  forall g, sound g ->
  exists g',
    run fuel es g = Some g' /\ sound g' /\
    (ScoreBar.hiScore (scoreBar g) <= ScoreBar.hiScore (scoreBar g'))%Z.
Proof.
  intros H. induction es as [|e es IH]; intros g S.
  - exists g. cbn [run]. split; [reflexivity|]. split; [exact S | lia].
  - cbn [run].
    destruct (react_sound fuel e g H S) as (g1 & -> & S1 & H1).
    destruct (IH g1 S1) as (g2 & E2 & S2 & H2).
    exists g2. split; [exact E2|]. split; [exact S2 | lia].
Qed.

(** ** The game as it is built *)

Lemma constructor_returns now stored w h :
  exists g0,
    constructor now stored w h = JS.Return g0 /\
    gameOver g0 = true /\
    tally g0 =
      (1%Z, 0%Z,
       match stored with
       | Some hi => if (hi =? 0)%Z then 0%Z else hi
       | None => 0%Z
       end).
Proof.
  eexists. split.
  - cbv beta iota zeta delta
        [constructor Clock.Clock ScoreBar.ScoreBar Arrows.Arrows Bug.Bug fst
         Clock.resize Clock.reposition].
    reflexivity.
  - split; reflexivity.
Qed.

Lemma transition_of_sound g :
  sound g ->
  (exists gen,
     ColorSchemes.transition (colorSchemeIdx g)
                             (next_index (colorSchemeIdx g)) = Some gen) /\
  (exists gen, ColorSchemes.transition (colorSchemeIdx g) 1 = Some gen).
Proof.
  intros [I _].
  pose proof (next_index_sound (colorSchemeIdx g) ltac:(lia)) as N.
  unfold ColorSchemes.transition.
  destruct (ColorRunFacts.get_in_pool (colorSchemeIdx g)) as (s1 & ->);
    [unfold ColorSchemes.length; cbn; lia|].
  destruct (ColorRunFacts.get_in_pool (next_index (colorSchemeIdx g)))
    as (s2 & ->); [unfold ColorSchemes.length; cbn; lia|].
  split; eexists; reflexivity.
Qed.

(** X11.  Through every run of the game (frames, keys and resizes, in
    any order and number, from the game as [new Game()] builds it) every
    frame returns, the index of the colours stays one of 1 to 5, the score
    stays between 0 and the high score, and the high score never goes down.
    So the listener of [scorebar_add] and [finish] only ever ask
    [ColorSchemes.transition] for schemes of the pool.  (The do-while of the
    listener needs two rounds at most; the store must not hold a negative
    high score.) *)
Theorem count_is_sound_in_every_run (fuel : nat) (now : JS.Date)
    (stored : option Z) (w h : Q) (es : list event) :
  (2 <= fuel)%nat ->
  (forall hi, stored = Some hi -> (0 <= hi)%Z) ->
  exists g0 g,
    constructor now stored w h = JS.Return g0 /\
    run fuel es g0 = Some g /\
    sound g /\
    (ScoreBar.hiScore (scoreBar g0) <= ScoreBar.hiScore (scoreBar g))%Z /\
    (exists gen,
       ColorSchemes.transition (colorSchemeIdx g)
                               (next_index (colorSchemeIdx g)) = Some gen) /\
    (exists gen, ColorSchemes.transition (colorSchemeIdx g) 1 = Some gen).
Proof.
  intros H St.
  destruct (constructor_returns now stored w h) as (g0 & E0 & _ & T0).
  assert (S0 : sound g0).
  { unfold tally in T0. apply pair_equal_spec in T0. destruct T0 as [T0 T3].
    apply pair_equal_spec in T0. destruct T0 as [T1 T2].
    unfold sound. rewrite T1, T2, T3. split; [lia|].
    destruct stored as [hi|]; [|lia].
    specialize (St hi eq_refl). destruct (Z.eqb_spec hi 0); lia. }
  destruct (run_sound fuel es H g0 S0) as (g & E & S & Hi).
  exists g0, g. split; [exact E0|]. split; [exact E|]. split; [exact S|].
  split; [exact Hi|]. apply transition_of_sound, S.
Qed.

Lemma count_is_sound_in_every_run_witness :
  exists g0 g,
    constructor (JS.mkDate 15 10) (Some 7%Z) 1280 800 = JS.Return g0 /\
    run 2 [Frame (JS.mkDate 15 10) (fun _ => 1 # 2) false; Key 38;
           Resize 1024 768; Frame (JS.mkDate 16 10) (fun _ => 3 # 4) true]
        g0 = Some g /\
    sound g /\
    (ScoreBar.hiScore (scoreBar g0) <= ScoreBar.hiScore (scoreBar g))%Z /\
    (exists gen,
       ColorSchemes.transition (colorSchemeIdx g)
                               (next_index (colorSchemeIdx g)) = Some gen) /\
    (exists gen, ColorSchemes.transition (colorSchemeIdx g) 1 = Some gen).
Proof.
  apply (count_is_sound_in_every_run 2 (JS.mkDate 15 10) (Some 7%Z) 1280 800).
  - lia.
  - intros hi E. injection E as <-. lia.
Defined.

(** ** A finished game *)

Lemma Bug_idleDeg_formula game b :
  Bug.idleDeg (Bug.updateIdleDeg game b) =
  bug_idle (Arrows.idleDeg (Bug.arrow1 game)) (Arrows.idleDeg (Bug.arrow2 game)).
Proof.
  unfold Bug.updateIdleDeg, bug_idle. cbv zeta.
  match goal with |- context [JS.gtb ?a ?c] => destruct (JS.gtb a c) end;
    reflexivity.
Qed.

Lemma bug_idle_range (i1 i2 : Q) :
  0 <= i1 -> 0 <= i2 -> 0 <= bug_idle i1 i2 /\ bug_idle i1 i2 < 360.
Proof.
  intros H1 H2. unfold bug_idle. cbv zeta.
  assert (P : 0 <= Qmin i1 i2 + Qabs (i1 - i2) / 2).
  { pose proof (Qabs_nonneg (i1 - i2)).
    assert (D : Qabs (i1 - i2) / 2 == Qabs (i1 - i2) * (1 # 2)) by reflexivity.
    rewrite D.
    destruct (Q.min_spec i1 i2) as [[_ E]|[_ E]]; rewrite E; lra. }
  set (p := Qmin i1 i2 + Qabs (i1 - i2) / 2) in *. clearbody p.
  destruct (rem360_bounds p) as [B1 _]. specialize (B1 P).
  destruct (rem360_bounds (p + 180)) as [B2 _]. specialize (B2 ltac:(lra)).
  match goal with |- context [JS.gtb ?a ?c] => destruct (JS.gtb a c) end;
    assumption.
Qed.

Lemma frame_eq (idle r : Q) : frame idle r = converge (normalize r) idle.
Proof. reflexivity. Qed.

Lemma frames_S (n : nat) (idle r : Q) :
  frames (S n) idle r = frames n idle (frame idle r).
Proof. reflexivity. Qed.

Lemma frames_1 (idle r : Q) : frames 1 idle r = frame idle r.
Proof. reflexivity. Qed.

Lemma game_frames_S fuel n now random collided g :
  game_frames fuel (S n) now random collided g =
  match update fuel now random collided g with
  | Some g => game_frames fuel n now random collided g
  | None => None
  end.
Proof. reflexivity. Qed.

(** The angles after a frame of a finished game. *)
Lemma update_game_over fuel now random collided g :
  (2 <= fuel)%nat -> gameOver g = true ->
  exists g',
    update fuel now random collided g = Some g' /\
    angles g' =
      (true,
       (Arrows.name (arrow1 g),
        frame (Arrows.idleDeg (Arrows.updateIdleDeg now (arrow1 g)))
              (Arrows.rotationDeg (arrow1 g)),
        Arrows.idleDeg (Arrows.updateIdleDeg now (arrow1 g))),
       (Arrows.name (arrow2 g),
        frame (Arrows.idleDeg (Arrows.updateIdleDeg now (arrow2 g)))
              (Arrows.rotationDeg (arrow2 g)),
        Arrows.idleDeg (Arrows.updateIdleDeg now (arrow2 g))),
       (frame (bug_idle (Arrows.idleDeg (Arrows.updateIdleDeg now (arrow1 g)))
                        (Arrows.idleDeg (Arrows.updateIdleDeg now (arrow2 g))))
              (Bug.rotationDeg (bug g)),
        bug_idle (Arrows.idleDeg (Arrows.updateIdleDeg now (arrow1 g)))
                 (Arrows.idleDeg (Arrows.updateIdleDeg now (arrow2 g))))).
Proof.
  intros H GO. rewrite update_steps.
  destruct (update_colors_keeps g) as [A1 _].
  destruct (update_clock_keeps (update_colors g)) as [A2 _].
  rewrite A1 in A2. clear A1.
  set (g2 := update_clock (update_colors g)) in *. clearbody g2.
  destruct (angles_fields g2 _ _ _ _ _ _ _ _ _ A2)
    as (Ago & (An1 & Ar1 & _) & (An2 & Ar2 & _) & Ab1 & _).
  rewrite GO in Ago.
  destruct (update_sprites_fields now g2) as (G3 & U1 & U2 & B3 & _).
  rewrite Ago in G3, U1, U2.
  set (g3 := update_sprites now g2) in *. clearbody g3.
  destruct (update_bug_keeps fuel random g3 H) as (g4 & -> & A4 & _).
  destruct (update_crash_keeps collided g4) as (_ & _ & C).
  destruct (angles_fields g4 _ _ _ _ _ _ _ _ _ A4)
    as (G4 & (Bn1 & Br1 & Bi1) & (Bn2 & Br2 & Bi2) & Bb1 & Bb2).
  rewrite G3 in G4.
  rewrite (C G4). exists g4. split; [reflexivity|].
  unfold angles.
  rewrite G4, Bn1, Br1, Bi1, Bn2, Br2, Bi2, Bb1, Bb2.
  rewrite U1, U2.
  rewrite !Arrows_update_name, !Arrows_update_over, !Arrows_update_idleDeg.
  rewrite An1, An2, Ar1, Ar2.
  rewrite (Arrows_updateIdleDeg_any now (arrow1 g2) (arrow1 g) An1).
  rewrite (Arrows_updateIdleDeg_any now (arrow2 g2) (arrow2 g) An2).
  unfold for_bug. rewrite G3, B3.
  rewrite Bug_update_rotationDeg, Bug_update_idleDeg, Bug_idleDeg_formula.
  cbn [Bug.arrow1 Bug.arrow2]. rewrite U1, U2.
  rewrite !Arrows_update_idleDeg.
  rewrite (Arrows_updateIdleDeg_any now (arrow1 g2) (arrow1 g) An1).
  rewrite (Arrows_updateIdleDeg_any now (arrow2 g2) (arrow2 g) An2).
  rewrite Ab1. rewrite !frame_eq. reflexivity.
Qed.

(** The angles after [n] frames of a finished game, one at least. *)
Lemma game_frames_game_over fuel now random collided (n : nat) :
  (2 <= fuel)%nat ->
  forall g, gameOver g = true ->
  let i1 := Arrows.idleDeg (Arrows.updateIdleDeg now (arrow1 g)) in
  let i2 := Arrows.idleDeg (Arrows.updateIdleDeg now (arrow2 g)) in
  exists g',
    game_frames fuel (S n) now random collided g = Some g' /\
    angles g' =
      (true,
       (Arrows.name (arrow1 g),
        frames (S n) i1 (Arrows.rotationDeg (arrow1 g)), i1),
       (Arrows.name (arrow2 g),
        frames (S n) i2 (Arrows.rotationDeg (arrow2 g)), i2),
       (frames (S n) (bug_idle i1 i2) (Bug.rotationDeg (bug g)),
        bug_idle i1 i2)).
Proof.
  intros H. induction n as [|n IH]; intros g GO i1 i2.
  - destruct (update_game_over fuel now random collided g H GO)
      as (g1 & E & A).
    exists g1. rewrite game_frames_S, E. split; [reflexivity|].
    rewrite !frames_1. exact A.
  - destruct (update_game_over fuel now random collided g H GO)
      as (g1 & E & A).
    destruct (angles_fields _ _ _ _ _ _ _ _ _ _ A)
      as (G1 & (N1 & R1 & _) & (N2 & R2 & _) & Rb & _).
    destruct (IH g1 G1) as (g' & E' & A').
    exists g'. rewrite game_frames_S, E. split; [exact E'|].
    rewrite A'. rewrite N1, N2, R1, R2, Rb.
    rewrite (Arrows_updateIdleDeg_any now (arrow1 g1) (arrow1 g) N1).
    rewrite (Arrows_updateIdleDeg_any now (arrow2 g1) (arrow2 g) N2).
    rewrite (frames_S (S n) i1), (frames_S (S n) i2),
            (frames_S (S n) (bug_idle i1 i2)).
    reflexivity.
Qed.

(** X12.  A finished game can always be started again: after 93 frames
    of a finished game, and after any number beyond, the arrows and the bug
    all stand at their angles of rest, the game is still over, and the next
    key (any key) starts a round.  (The wall clock is taken to show the
    same minute all along.) *)
Theorem a_finished_game_starts_again (fuel n : nat) (now : JS.Date)
    (random : nat -> Q) (collided : bool) (g : Game) :
  (2 <= fuel)%nat -> time_of_day now -> gameOver g = true -> (93 <= n)%nat ->
  exists g',
    game_frames fuel n now random collided g = Some g' /\
    gameOver g' = true /\
    Arrows.rotationDeg (arrow1 g') == Arrows.idleDeg (arrow1 g') /\
    Arrows.rotationDeg (arrow2 g') == Arrows.idleDeg (arrow2 g') /\
    Bug.rotationDeg (bug g') == Bug.idleDeg (bug g') /\
    forall keyCode, gameOver (keydown keyCode g') = false.
Proof.
  intros H T GO L.
  destruct n as [|n]; [lia|].
  destruct (game_frames_game_over fuel now random collided n H g GO)
    as (g' & E & A).
  destruct (angles_fields _ _ _ _ _ _ _ _ _ _ A)
    as (G' & (_ & R1 & I1) & (_ & R2 & I2) & Rb & Ib).
  destruct (Arrows_idleDeg_range now (arrow1 g) T) as [P1 Q1].
  destruct (Arrows_idleDeg_range now (arrow2 g) T) as [P2 Q2].
  set (i1 := Arrows.idleDeg (Arrows.updateIdleDeg now (arrow1 g))) in *.
  set (i2 := Arrows.idleDeg (Arrows.updateIdleDeg now (arrow2 g))) in *.
  destruct (bug_idle_range i1 i2 P1 P2) as [Pb Qb].
  assert (S1 : Arrows.rotationDeg (arrow1 g') == Arrows.idleDeg (arrow1 g'))
    by (rewrite R1, I1; apply frames_settle; assumption).
  assert (S2 : Arrows.rotationDeg (arrow2 g') == Arrows.idleDeg (arrow2 g'))
    by (rewrite R2, I2; apply frames_settle; assumption).
  assert (Sb : Bug.rotationDeg (bug g') == Bug.idleDeg (bug g'))
    by (rewrite Rb, Ib; apply frames_settle; assumption).
  exists g'. split; [exact E|]. split; [exact G'|].
  split; [exact S1|]. split; [exact S2|]. split; [exact Sb|].
  intros keyCode. unfold keydown. rewrite G'.
  assert (B1 : JS.eqb (Bug.idleDeg (bug g')) (Bug.rotationDeg (bug g')) = true)
    by (apply Qeq_bool_iff; symmetry; exact Sb).
  assert (B2 : JS.eqb (Arrows.idleDeg (arrow1 g'))
                      (Arrows.rotationDeg (arrow1 g')) = true)
    by (apply Qeq_bool_iff; symmetry; exact S1).
  assert (B3 : JS.eqb (Arrows.idleDeg (arrow2 g'))
                      (Arrows.rotationDeg (arrow2 g')) = true)
    by (apply Qeq_bool_iff; symmetry; exact S2).
  rewrite B1, B2, B3. reflexivity.
Qed.

Lemma a_finished_game_starts_again_witness :
  exists g',
    game_frames 2 93 (JS.mkDate 15 10) (fun _ => 0) false Cases.game
      = Some g' /\
    gameOver g' = true /\
    Arrows.rotationDeg (arrow1 g') == Arrows.idleDeg (arrow1 g') /\
    Arrows.rotationDeg (arrow2 g') == Arrows.idleDeg (arrow2 g') /\
    Bug.rotationDeg (bug g') == Bug.idleDeg (bug g') /\
    forall keyCode, gameOver (keydown keyCode g') = false.
Proof.
  apply (a_finished_game_starts_again 2 93 (JS.mkDate 15 10) (fun _ => 0)
           false Cases.game).
  - lia.
  - unfold time_of_day. cbn. lia.
  - vm_compute. reflexivity.
  - lia.
Defined.

End PlayFacts.

(* ================================================================== *)
(** * Properties of the jump *)
(* ================================================================== *)

Module JumpFacts.
Import AngleFacts Jump.
Local Open Scope Q_scope.

(** The fields of the jump after the part of [update] that turns the
    bug. *)
Lemma update_angle_jump_fields game b :
  Bug.isFlying (Bug.update_angle game b) = Bug.isFlying b /\
  Bug.jumpSpeed (Bug.update_angle game b) = Bug.jumpSpeed b /\
  Bug.anchor_y (Bug.update_angle game b) = Bug.anchor_y b /\
  Bug.groundedAnchorY (Bug.update_angle game b) = Bug.groundedAnchorY b /\
  Bug.gravity (Bug.update_angle game b) = Bug.gravity b.
Proof.
  unfold Bug.update_angle.
  destruct (Bug.gameOver game); [|repeat split].
  cbv zeta.
  set (b1 := Bug.set_rotation _ _).
  assert (H1 : Bug.isFlying b1 = Bug.isFlying b) by reflexivity.
  assert (H2 : Bug.jumpSpeed b1 = Bug.jumpSpeed b) by reflexivity.
  assert (H3 : Bug.anchor_y b1 = Bug.anchor_y b) by reflexivity.
  assert (H4 : Bug.groundedAnchorY b1 = Bug.groundedAnchorY b) by reflexivity.
  assert (H5 : Bug.gravity b1 = Bug.gravity b) by reflexivity.
  clearbody b1.
  assert (I : Bug.isFlying (Bug.updateIdleDeg game b1) = Bug.isFlying b1 /\
              Bug.jumpSpeed (Bug.updateIdleDeg game b1) = Bug.jumpSpeed b1 /\
              Bug.anchor_y (Bug.updateIdleDeg game b1) = Bug.anchor_y b1 /\
              Bug.groundedAnchorY (Bug.updateIdleDeg game b1) =
                Bug.groundedAnchorY b1 /\
              Bug.gravity (Bug.updateIdleDeg game b1) = Bug.gravity b1).
  { unfold Bug.updateIdleDeg. destruct (JS.gtb _ _); repeat split. }
  destruct I as (I1 & I2 & I3 & I4 & I5).
  set (b2 := Bug.updateIdleDeg game b1) in *. clearbody b2.
  repeat split; apply if_same;
    cbn [Bug.isFlying Bug.jumpSpeed Bug.anchor_y Bug.groundedAnchorY
         Bug.gravity Bug.set_direction Bug.set_currentState
         Bug.set_rotationDeg];
    congruence.
Qed.

Lemma update_overarrow_jump_fields game b :
  Bug.isFlying (fst (Bug.update_overarrow game b)) = Bug.isFlying b /\
  Bug.jumpSpeed (fst (Bug.update_overarrow game b)) = Bug.jumpSpeed b /\
  Bug.anchor_y (fst (Bug.update_overarrow game b)) = Bug.anchor_y b /\
  Bug.groundedAnchorY (fst (Bug.update_overarrow game b)) =
    Bug.groundedAnchorY b /\
  Bug.gravity (fst (Bug.update_overarrow game b)) = Bug.gravity b.
Proof.
  unfold Bug.update_overarrow. destruct (negb _); repeat split.
Qed.

Lemma truthy_wd (p q : Q) : p == q -> JS.truthy p = JS.truthy q.
Proof.
  intros E. unfold JS.truthy, JS.eqb.
  destruct (Qeq_bool p 0) eqn:P, (Qeq_bool q 0) eqn:R; try reflexivity.
  - apply Qeq_bool_iff in P. apply Qeq_bool_neq in R. lra.
  - apply Qeq_bool_iff in R. apply Qeq_bool_neq in P. lra.
Qed.

(** One frame of the part of [update] that moves the bug up and down,
    in the air: the bug stays in the air, or lands. *)
Lemma update_jump_in_the_air game b (h s : Q) :
  Bug.anchor_y b == Bug.groundedAnchorY b + h ->
  Bug.jumpSpeed b == s -> ~ s == 0 ->
  let b' := Bug.update_jump game b in
  Bug.groundedAnchorY b' = Bug.groundedAnchorY b /\
  Bug.gravity b' = Bug.gravity b /\
  (0 <= fst (fall (Bug.gravity b) (h, s)) ->
     Bug.isFlying b' = Bug.isFlying b /\
     Bug.jumpSpeed b' == snd (fall (Bug.gravity b) (h, s)) /\
     Bug.anchor_y b' ==
       Bug.groundedAnchorY b + fst (fall (Bug.gravity b) (h, s))) /\
  (fst (fall (Bug.gravity b) (h, s)) < 0 ->
     Bug.isFlying b' = 0%Z /\ Bug.jumpSpeed b' = 0 /\
     Bug.anchor_y b' = Bug.groundedAnchorY b).
Proof.
  intros A S N. cbv zeta. unfold Bug.update_jump, fall. cbn [fst snd].
  rewrite !Qred_correct.
  assert (T : JS.truthy (Bug.jumpSpeed b) = true).
  { rewrite (truthy_wd _ _ S). unfold JS.truthy, JS.eqb.
    destruct (Qeq_bool s 0) eqn:E; [|reflexivity].
    apply Qeq_bool_iff in E. contradiction. }
  rewrite T. clear T N. cbv zeta.
  cbn [Bug.jumpSpeed Bug.set_jumpSpeed Bug.anchor_y Bug.set_anchor_y
       Bug.groundedAnchorY Bug.gravity].
  destruct (JS.ltb (Bug.anchor_y b + (Bug.jumpSpeed b + Bug.gravity b))
                   (Bug.groundedAnchorY b)) eqn:L;
    [apply ltb_true in L | apply ltb_false in L].
  - split; [destruct (negb (Bug.gameOver game)); reflexivity|].
    split; [destruct (negb (Bug.gameOver game)); reflexivity|].
    split; [intros P; exfalso; lra|].
    intros _. destruct (negb (Bug.gameOver game)); repeat split.
  - split; [reflexivity|]. split; [reflexivity|].
    split; [|intros P; exfalso; lra].
    intros _.
    cbn [Bug.isFlying Bug.jumpSpeed Bug.anchor_y Bug.set_anchor_y
         Bug.set_jumpSpeed].
    split; [reflexivity|]. split; lra.
Qed.

(** The same for the whole [update]. *)
Lemma update_in_the_air game b (h s : Q) :
  Bug.anchor_y b == Bug.groundedAnchorY b + h ->
  Bug.jumpSpeed b == s -> ~ s == 0 ->
  let b' := fst (Bug.update game b) in
  Bug.groundedAnchorY b' = Bug.groundedAnchorY b /\
  Bug.gravity b' = Bug.gravity b /\
  (0 <= fst (fall (Bug.gravity b) (h, s)) ->
     Bug.isFlying b' = Bug.isFlying b /\
     Bug.jumpSpeed b' == snd (fall (Bug.gravity b) (h, s)) /\
     Bug.anchor_y b' ==
       Bug.groundedAnchorY b + fst (fall (Bug.gravity b) (h, s))) /\
  (fst (fall (Bug.gravity b) (h, s)) < 0 ->
     Bug.isFlying b' = 0%Z /\ Bug.jumpSpeed b' = 0 /\
     Bug.anchor_y b' = Bug.groundedAnchorY b).
Proof.
  intros A S N. cbv zeta. unfold Bug.update, Bug.update_motion.
  destruct (update_angle_jump_fields game b) as (F1 & F2 & F3 & F4 & F5).
  set (b1 := Bug.update_angle game b) in *. clearbody b1.
  rewrite <- F3, <- F4 in A. rewrite <- F2 in S.
  destruct (update_jump_in_the_air game b1 h s A S N) as (G1 & G2 & Up & Down).
  rewrite F1, F4, F5 in *.
  destruct (update_overarrow_jump_fields game (Bug.update_jump game b1))
    as (-> & -> & -> & -> & ->).
  split; [exact G1|]. split; [exact G2|]. split; assumption.
Qed.

Lemma flight_checked : forallb in_the_air (seq 0 44) = true.
Proof. vm_compute. reflexivity. Qed.

Lemma flight_ends : fst (flight 44) < 0.
Proof. vm_compute. reflexivity. Qed.

Lemma flight_below_top :
  forallb (fun n => Qle_bool (fst (flight n)) top) (seq 0 44) = true.
Proof. vm_compute. reflexivity. Qed.

Lemma in_the_air_spec (n : nat) :
  (n <= 43)%nat ->
  0 <= fst (flight n) /\ fst (flight n) <= top /\ ~ snd (flight n) == 0.
Proof.
  intros L.
  assert (I : In n (seq 0 44)) by (apply in_seq; lia).
  pose proof (proj1 (forallb_forall _ _) flight_checked n I) as C.
  pose proof (proj1 (forallb_forall _ _) flight_below_top n I) as T.
  cbv beta in T. unfold in_the_air in C.
  apply andb_true_iff in C. destruct C as [C1 C2].
  apply Qle_bool_iff in C1, T. apply negb_true_iff in C2.
  split; [exact C1|]. split; [exact T|].
  intros E. apply Qeq_bool_iff in E. congruence.
Qed.

Lemma flight_S (n : nat) : flight (S n) = fall gravity (flight n).
Proof. reflexivity. Qed.

(** A frame in the air, the next frame still in the air. *)
Lemma airborne_next game b (n : nat) (jumps : Z) :
  (S n <= 43)%nat -> airborne b n jumps ->
  Bug.groundedAnchorY (fst (Bug.update game b)) = Bug.groundedAnchorY b /\
  airborne (fst (Bug.update game b)) (S n) jumps.
Proof.
  intros L (F & G & Sp & A).
  destruct (in_the_air_spec n ltac:(lia)) as (_ & _ & N).
  destruct (in_the_air_spec (S n) L) as (P & _ & _).
  destruct (update_in_the_air game b _ _ A Sp N) as (G1 & G2 & Up & _).
  rewrite G in Up. rewrite <- surjective_pairing, <- flight_S in Up.
  destruct (Up P) as (U1 & U2 & U3).
  split; [exact G1|]. unfold airborne.
  rewrite G1, G2, U1. repeat split; assumption.
Qed.

Lemma iterate_app (A G : Type) (step : G -> A -> A) (games rest : list G)
    (a : A) :
  iterate A G step (games ++ rest) a =
  iterate A G step rest (iterate A G step games a).
Proof.
  revert a. induction games as [|game games IH]; intros a; [reflexivity|].
  cbn [app iterate]. apply IH.
Qed.

Lemma iterate_cons (A G : Type) (step : G -> A -> A) (game : G)
    (rest : list G) (a : A) :
  iterate A G step (game :: rest) a = iterate A G step rest (step game a).
Proof. reflexivity. Qed.

Lemma bug_frames_app (games rest : list Bug.Game) (b : Bug.Sprite) :
  bug_frames (games ++ rest) b = bug_frames rest (bug_frames games b).
Proof. apply iterate_app. Qed.

Lemma bug_frames_cons (game : Bug.Game) (rest : list Bug.Game)
    (b : Bug.Sprite) :
  bug_frames (game :: rest) b = bug_frames rest (fst (Bug.update game b)).
Proof. apply (iterate_cons Bug.Sprite Bug.Game). Qed.

Lemma bug_frames_nil (b : Bug.Sprite) : bug_frames [] b = b.
Proof. reflexivity. Qed.

Lemma airborne_frames (games : list Bug.Game) :
  forall b (n : nat) (jumps : Z),
    (n + List.length games <= 43)%nat -> airborne b n jumps ->
    Bug.groundedAnchorY (bug_frames games b) = Bug.groundedAnchorY b /\
    airborne (bug_frames games b) (n + List.length games) jumps.
Proof.
  induction games as [|game games IH]; intros b n jumps L A.
  - rewrite bug_frames_nil. cbn [List.length]. rewrite Nat.add_0_r.
    split; [reflexivity | exact A].
  - rewrite bug_frames_cons. cbn [List.length] in *.
    destruct (airborne_next game b n jumps ltac:(lia) A) as [G1 A1].
    destruct (IH _ (S n) jumps ltac:(lia) A1) as [G2 A2].
    replace (n + S (List.length games))%nat
      with (S n + List.length games)%nat by lia.
    split; [congruence | exact A2].
Qed.

Lemma jump_spec (b : Bug.Sprite) (jumps : Z) :
  (Bug.isFlying b = jumps -> (jumps < 2)%Z ->
   Bug.isFlying (Bug.jump b) = (jumps + 1)%Z) /\
  (Bug.isFlying b = jumps -> (2 <= jumps)%Z -> Bug.jump b = b).
Proof.
  unfold Bug.jump. split; intros F L; rewrite F.
  - destruct (Z.ltb_spec jumps 2); [|lia]. cbv zeta.
    cbn [Bug.isFlying Bug.set_isFlying Bug.set_jumpSpeed
         Bug.set_currentState].
    rewrite F. reflexivity.
  - destruct (Z.ltb_spec jumps 2); [lia|]. reflexivity.
Qed.

(** X13.  A jump from the ground lasts 44 frames: for 43 frames after
    [jump()] the bug is in the air, at the height the gravity gives it
    (never more than 2123/2000 above the ground), and the 44th frame puts it
    back on the ground, with [isFlying] and [jumpSpeed] 0, whatever the game
    does in between.  In the air the bug can jump once more, and a third
    [jump()] changes nothing. *)
Theorem a_jump_lasts_44_frames (b : Bug.Sprite) (games : list Bug.Game) :
  on_the_ground b -> Bug.gravity b = gravity ->
  ((List.length games <= 43)%nat ->
     let b' := bug_frames games (Bug.jump b) in
     Bug.isFlying b' = 1%Z /\
     Bug.anchor_y b' ==
       Bug.groundedAnchorY b + fst (flight (List.length games)) /\
     Bug.groundedAnchorY b <= Bug.anchor_y b' <= Bug.groundedAnchorY b + top) /\
  (List.length games = 44%nat ->
     on_the_ground (bug_frames games (Bug.jump b)) /\
     Bug.groundedAnchorY (bug_frames games (Bug.jump b)) =
       Bug.groundedAnchorY b) /\
  Bug.isFlying (Bug.jump (Bug.jump b)) = 2%Z /\
  Bug.jump (Bug.jump (Bug.jump b)) = Bug.jump (Bug.jump b).
Proof.
  intros (F & Sp & A) G.
  assert (J : airborne (Bug.jump b) 0 1 /\
              Bug.groundedAnchorY (Bug.jump b) = Bug.groundedAnchorY b).
  { unfold Bug.jump. rewrite F. cbn [Z.ltb Z.compare]. cbv zeta.
    unfold airborne.
    cbn [Bug.isFlying Bug.gravity Bug.jumpSpeed Bug.anchor_y
         Bug.groundedAnchorY Bug.set_isFlying Bug.set_jumpSpeed
         Bug.set_currentState].
    rewrite F, G. repeat split; try reflexivity.
    change (fst (flight 0)) with 0. lra. }
  destruct J as [J GJ].
  split; [|split; [|split]].
  - intros L. cbv zeta.
    destruct (airborne_frames games (Bug.jump b) 0 1 ltac:(lia) J)
      as (G1 & F1 & _ & _ & A1).
    cbn [Nat.add] in A1. rewrite G1, GJ in A1.
    destruct (in_the_air_spec (List.length games) L) as (P & T & _).
    split; [exact F1|]. split; [exact A1|]. lra.
  - intros L.
    destruct games as [|game0 games] using rev_ind; [discriminate L|].
    clear IHgames. rewrite length_app in L. cbn [List.length] in L.
    rewrite bug_frames_app, bug_frames_cons, bug_frames_nil.
    destruct (airborne_frames games (Bug.jump b) 0 1 ltac:(lia) J)
      as (G1 & F1 & G2 & S1 & A1).
    cbn [Nat.add] in S1, A1.
    replace (List.length games) with 43%nat in * by lia.
    set (b1 := bug_frames games (Bug.jump b)) in *. clearbody b1.
    destruct (in_the_air_spec 43 ltac:(lia)) as (_ & _ & N).
    destruct (update_in_the_air game0 b1 _ _ A1 S1 N) as (H1 & _ & _ & Down).
    rewrite G2 in Down. rewrite <- surjective_pairing, <- flight_S in Down.
    destruct (Down flight_ends) as (D1 & D2 & D3).
    unfold on_the_ground. rewrite D1, D2, D3, H1, G1, GJ.
    repeat split; reflexivity.
  - rewrite (proj1 (jump_spec (Bug.jump b) 1)); [reflexivity | | lia].
    rewrite (proj1 (jump_spec b 0)); [reflexivity | exact F | lia].
  - apply (proj2 (jump_spec (Bug.jump (Bug.jump b)) 2)); [|lia].
    rewrite (proj1 (jump_spec (Bug.jump b) 1)); [reflexivity | | lia].
    rewrite (proj1 (jump_spec b 0)); [reflexivity | exact F | lia].
Qed.

Lemma a_jump_lasts_44_frames_witness :
  on_the_ground
    (bug_frames (repeat Cases.frame1 44)
       (Bug.jump (Bug.defSize 100 Bug.literal))).
Proof.
  destruct (a_jump_lasts_44_frames (Bug.defSize 100 Bug.literal)
              (repeat Cases.frame1 44)) as (_ & Landed & _).
  - unfold on_the_ground. cbn [Bug.isFlying Bug.defSize Bug.literal].
    split; [reflexivity|]. split; vm_compute; reflexivity.
  - reflexivity.
  - apply Landed. reflexivity.
Defined.

End JumpFacts.

(* ================================================================== *)
(** * Properties of the sizes *)
(* ================================================================== *)

Module SizesFacts.
Import AngleFacts EntityFacts Game GameFacts Play PlayFacts Sizes.
Local Open Scope Q_scope.

(** [update] of the clock is its three parts. *)
Lemma Clock_update_parts (c : Clock.Sprite) :
  Clock.update c =
  (update_offset (fst (update_scale (update_opacity c))),
   snd (update_scale (update_opacity c))).
Proof.
  unfold Clock.update. fold (update_opacity c).
  generalize (update_opacity c). clear c. intros c.
  fold (update_scale c).
  destruct (update_scale c) as [c' emitted]. reflexivity.
Qed.

Ltac clock_fields :=
  cbn [Clock.radius Clock.maxRadius Clock.minRadius Clock.numbersRadius
       Clock.scaleSpeed Clock.numbersOpacity Clock.numbersHidingSpeed
       Clock.scaleUp Clock.hideNumbers
       Clock.set_radius Clock.set_scaleSpeed Clock.set_numbersRadius
       Clock.set_numbersOpacity Clock.set_offsets fst snd] in *.

Ltac decide_if :=
  match goal with
  | |- context [if JS.ltb ?a ?b then _ else _] =>
      let E := fresh "E" in
      destruct (JS.ltb a b) eqn:E;
      [apply ltb_true in E | apply ltb_false in E]
  | |- context [if JS.gtb ?a ?b then _ else _] =>
      let E := fresh "E" in
      destruct (JS.gtb a b) eqn:E;
      [apply gtb_true in E | apply gtb_false in E]
  end.

(** The fading of the numbers: the opacity stays between 0 and 1 and
    moves the way the flag says; nothing else changes. *)
Lemma update_opacity_spec (c : Clock.Sprite) :
  let c' := update_opacity c in
  Clock.radius c' = Clock.radius c /\
  Clock.numbersRadius c' = Clock.numbersRadius c /\
  Clock.minRadius c' = Clock.minRadius c /\
  Clock.maxRadius c' = Clock.maxRadius c /\
  Clock.scaleSpeed c' = Clock.scaleSpeed c /\
  Clock.numbersHidingSpeed c' = Clock.numbersHidingSpeed c /\
  Clock.scaleUp c' = Clock.scaleUp c /\
  Clock.hideNumbers c' = Clock.hideNumbers c /\
  (0 <= Clock.numbersHidingSpeed c ->
   0 <= Clock.numbersOpacity c -> Clock.numbersOpacity c <= 1 ->
   0 <= Clock.numbersOpacity c' /\ Clock.numbersOpacity c' <= 1 /\
   (Clock.hideNumbers c = true ->
      Clock.numbersOpacity c' <= Clock.numbersOpacity c) /\
   (Clock.hideNumbers c = false ->
      Clock.numbersOpacity c <= Clock.numbersOpacity c')).
Proof.
  destruct c as [x y o sp ac r nr mn mx up ss sa hide hs op].
  cbv zeta. unfold update_opacity. clock_fields.
  destruct hide; repeat decide_if; clock_fields;
    (split; [reflexivity|]); (split; [reflexivity|]); (split; [reflexivity|]);
    (split; [reflexivity|]); (split; [reflexivity|]); (split; [reflexivity|]);
    (split; [reflexivity|]); (split; [reflexivity|]);
    intros H0 H1 H2;
    (split; [lra|]); (split; [lra|]);
    (split; [intros F; try discriminate F; lra
            |intros F; try discriminate F; lra]).
Qed.

(** The scaling of the face: the radius stays between its two ends and
    moves the way the flag says, the radius of the numbers follows it, and
    one [clock_resize] with the new radius is emitted when it moves. *)
Lemma update_scale_spec (c : Clock.Sprite) :
  let c' := fst (update_scale c) in
  Clock.minRadius c' = Clock.minRadius c /\
  Clock.maxRadius c' = Clock.maxRadius c /\
  Clock.numbersOpacity c' = Clock.numbersOpacity c /\
  Clock.numbersHidingSpeed c' = Clock.numbersHidingSpeed c /\
  Clock.scaleUp c' = Clock.scaleUp c /\
  Clock.hideNumbers c' = Clock.hideNumbers c /\
  ((snd (update_scale c) = [] /\ c' = c) \/
   (snd (update_scale c) = [JS.Emit "clock_resize" [Clock.radius c']] /\
    Clock.numbersRadius c' = 2 * Clock.radius c')) /\
  (Clock.minRadius c <= Clock.radius c -> Clock.radius c <= Clock.maxRadius c ->
   0 <= Clock.scaleSpeed c ->
   Clock.minRadius c <= Clock.radius c' /\
   Clock.radius c' <= Clock.maxRadius c /\
   0 <= Clock.scaleSpeed c' /\
   (Clock.scaleUp c = true -> Clock.radius c <= Clock.radius c') /\
   (Clock.scaleUp c = false -> Clock.radius c' <= Clock.radius c)).
Proof.
  destruct c as [x y o sp ac r nr mn mx up ss sa hide hs op].
  cbv zeta. unfold update_scale. clock_fields.
  destruct up; repeat decide_if; clock_fields;
    (split; [reflexivity|]); (split; [reflexivity|]); (split; [reflexivity|]);
    (split; [reflexivity|]); (split; [reflexivity|]); (split; [reflexivity|]);
    (split; [first [left; split; reflexivity | right; split; reflexivity]|]);
    intros H0 H1 H2;
    (split; [lra|]); (split; [lra|]); (split; [lra|]);
    (split; [intros F; try discriminate F; lra
            |intros F; try discriminate F; lra]).
Qed.

(** The knock-back leaves the measures and the flags alone. *)
Lemma update_offset_spec (c : Clock.Sprite) :
  measures (update_offset c) = measures c /\
  Clock.scaleUp (update_offset c) = Clock.scaleUp c /\
  Clock.hideNumbers (update_offset c) = Clock.hideNumbers c.
Proof.
  unfold update_offset.
  destruct (Clock.offsetSpeed c) as [[sx sy]|]; [|repeat split].
  destruct (Clock.offsetAcceleration c) as [[ax ay]|]; [|repeat split].
  cbv zeta.
  match goal with |- context [if ?b then _ else _] => destruct b end;
    repeat split.
Qed.

(** X14.  [update] of the clock keeps the clock within its measures:
    the radius stays between [minRadius] and [maxRadius], which do not
    change, and moves up when [scaleUp] is set and down when it is not; the
    opacity of the numbers stays between 0 and 1 and moves down when
    [hideNumbers] is set and up when it is not; the radius of the numbers
    stays twice the radius; and the frame emits nothing when the radius is
    as it was, and else one [clock_resize] that carries the new radius.
    [resize] puts a clock within its measures for every radius that is not
    negative. *)
Theorem clock_keeps_its_measures (c : Clock.Sprite) :
  clock_sound c ->
  let c' := fst (Clock.update c) in
  clock_sound c' /\
  Clock.minRadius c' = Clock.minRadius c /\
  Clock.maxRadius c' = Clock.maxRadius c /\
  (Clock.scaleUp c = true -> Clock.radius c <= Clock.radius c') /\
  (Clock.scaleUp c = false -> Clock.radius c' <= Clock.radius c) /\
  (Clock.hideNumbers c = true ->
     Clock.numbersOpacity c' <= Clock.numbersOpacity c) /\
  (Clock.hideNumbers c = false ->
     Clock.numbersOpacity c <= Clock.numbersOpacity c') /\
  ((snd (Clock.update c) = [] /\ Clock.radius c' = Clock.radius c) \/
   snd (Clock.update c) = [JS.Emit "clock_resize" [Clock.radius c']]) /\
  (forall radius,
     0 <= radius -> clock_sound (fst (Clock.resize radius c))).
Proof.
  intros (S1 & S2 & S3 & S4 & S5 & S6 & S7). cbv zeta.
  rewrite Clock_update_parts. cbn [fst snd].
  destruct (update_opacity_spec c)
    as (O1 & O2 & O3 & O4 & O5 & O6 & O7 & O8 & O9).
  destruct (O9 S7 S5 S6) as (P1 & P2 & P3 & P4). clear O9.
  set (c1 := update_opacity c) in *. clearbody c1.
  destruct (update_scale_spec c1) as (T1 & T2 & T3 & T4 & T5 & T6 & T7 & T8).
  rewrite O1, O3, O4, O5 in T8.
  destruct (T8 S1 S2 S4) as (R1 & R2 & R3 & R4 & R5). clear T8.
  rewrite O7 in R4, R5.
  assert (N : Clock.numbersRadius (fst (update_scale c1)) ==
              2 * Clock.radius (fst (update_scale c1))).
  { destruct T7 as [[_ E]|[_ E]]; rewrite E; [|reflexivity].
    rewrite O1, O2. exact S3. }
  assert (Em : (snd (update_scale c1) = [] /\
                Clock.radius (fst (update_scale c1)) = Clock.radius c) \/
               snd (update_scale c1) =
                 [JS.Emit "clock_resize" [Clock.radius (fst (update_scale c1))]]).
  { destruct T7 as [[E1 E2]|[E1 _]]; [left|right; exact E1].
    split; [exact E1|]. rewrite E2. exact O1. }
  clear T7.
  set (c2 := fst (update_scale c1)) in *.
  set (emitted := snd (update_scale c1)) in *. clearbody c2 emitted.
  destruct (update_offset_spec c2) as (M & F1 & F2).
  unfold measures in M.
  apply pair_equal_spec in M. destruct M as [M M7].
  apply pair_equal_spec in M. destruct M as [M M6].
  apply pair_equal_spec in M. destruct M as [M M5].
  apply pair_equal_spec in M. destruct M as [M M4].
  apply pair_equal_spec in M. destruct M as [M M3].
  apply pair_equal_spec in M. destruct M as [M1 M2].
  unfold clock_sound. rewrite M1, M2, M3, M4, M5, M6, M7.
  rewrite T1, T2, T3, T4, O3, O4, O6.
  split; [repeat split; assumption|].
  split; [reflexivity|]. split; [reflexivity|].
  split; [exact R4|]. split; [exact R5|].
  split; [exact P3|]. split; [exact P4|]. split; [exact Em|].
  intros radius H. unfold Clock.resize.
  cbn [fst Clock.radius Clock.maxRadius Clock.minRadius Clock.numbersRadius
       Clock.scaleSpeed Clock.numbersOpacity Clock.numbersHidingSpeed].
  assert (D : (radius * (15 # 10) - radius) / 30 ==
              (radius * (15 # 10) - radius) * (1 # 30)) by reflexivity.
  rewrite D.
  split; [lra|]. split; [lra|]. split; [reflexivity|]. split; [lra|].
  split; [exact S5|]. split; [exact S6 | exact S7].
Qed.

Lemma clock_keeps_its_measures_witness :
  clock_sound (fst (Clock.update Cases.clock)).
Proof.
  destruct (clock_keeps_its_measures Cases.clock) as [Sound _];
    [|exact Sound].
  unfold clock_sound.
  split; [apply Qle_bool_iff; vm_compute; reflexivity|].
  split; [apply Qle_bool_iff; vm_compute; reflexivity|].
  split; [apply Qeq_bool_iff; vm_compute; reflexivity|].
  split; [apply Qle_bool_iff; vm_compute; reflexivity|].
  split; [apply Qle_bool_iff; vm_compute; reflexivity|].
  split; apply Qle_bool_iff; vm_compute; reflexivity.
Defined.

(** ** The sizes follow the radius *)

Lemma Clock_update_emits (c : Clock.Sprite) :
  (snd (Clock.update c) = [] /\
   Clock.radius (fst (Clock.update c)) = Clock.radius c) \/
  snd (Clock.update c) =
    [JS.Emit "clock_resize" [Clock.radius (fst (Clock.update c))]].
Proof.
  rewrite Clock_update_parts. cbn [fst snd].
  destruct (update_opacity_spec c) as (O1 & _).
  set (c1 := update_opacity c) in *. clearbody c1.
  destruct (update_scale_spec c1) as (_ & _ & _ & _ & _ & _ & T7 & _).
  destruct (update_offset_spec (fst (update_scale c1))) as (M & _).
  unfold measures in M.
  apply pair_equal_spec in M. destruct M as [M _].
  apply pair_equal_spec in M. destruct M as [M _].
  apply pair_equal_spec in M. destruct M as [M _].
  apply pair_equal_spec in M. destruct M as [M _].
  apply pair_equal_spec in M. destruct M as [M _].
  apply pair_equal_spec in M. destruct M as [M1 _].
  rewrite M1.
  destruct T7 as [[E1 E2]|[E1 _]]; [left|right; exact E1].
  split; [exact E1|]. rewrite E2. exact O1.
Qed.

Lemma in_step_by_shape (g g' : Game) :
  shape g' = shape g -> in_step g -> in_step g'.
Proof.
  unfold shape, in_step. intros E.
  apply pair_equal_spec in E. destruct E as [E ->].
  apply pair_equal_spec in E. destruct E as [E ->].
  apply pair_equal_spec in E. destruct E as [-> ->].
  tauto.
Qed.

Lemma emit_clock_resize_in_step (radius : Q) (g : Game) :
  Arrows.name (arrow1 g) = Arrows.arrow1 ->
  Arrows.name (arrow2 g) = Arrows.arrow2 ->
  Clock.radius (clock g) = radius ->
  in_step (emit_clock_resize radius g).
Proof.
  intros N1 N2 R. unfold in_step, sizes, sizes_for, emit_clock_resize.
  cbn [arrow1 arrow2 bug clock scoreBar set_scoreBar set_arrow1 set_arrow2
       set_bug].
  unfold Arrows.defSize, Bug.defSize, ScoreBar.defSize.
  cbn [Arrows.name Arrows.width Arrows.height Bug.width Bug.height
       Bug.groundedAnchorY ScoreBar.size].
  rewrite N1, N2, R. repeat split.
Qed.

Lemma update_clock_in_step (g : Game) : in_step g -> in_step (update_clock g).
Proof.
  intros S. unfold update_clock.
  destruct (Clock_update_emits (clock g)) as [[E R]|E];
    destruct (Clock.update (clock g)) as [c emitted]; cbn [fst snd] in *;
    rewrite E; cbn [dispatch_clock].
  - apply (in_step_by_shape g); [|exact S].
    unfold shape, sizes. cbn [clock set_clock arrow1 arrow2 bug scoreBar].
    rewrite R. reflexivity.
  - destruct S as (N1 & N2 & _).
    apply emit_clock_resize_in_step; [exact N1 | exact N2 | reflexivity].
Qed.

Lemma update_colors_shape (g : Game) : shape (update_colors g) = shape g.
Proof.
  unfold update_colors.
  destruct (transitionColorScheme g) as [gen|]; [|reflexivity].
  destruct (ColorSchemes.next_scheme gen) as [[v|] gen']; reflexivity.
Qed.

Lemma Arrows_update_shape go now a :
  Arrows.name (Arrows.update go now a) = Arrows.name a /\
  Arrows.width (Arrows.update go now a) = Arrows.width a /\
  Arrows.height (Arrows.update go now a) = Arrows.height a.
Proof. destruct go, a as [[] ? ? ? ? ? ? ? ? ? ?]; repeat split. Qed.

Lemma update_sprites_shape now g : shape (update_sprites now g) = shape g.
Proof.
  unfold shape, sizes, update_sprites.
  cbn [arrow1 arrow2 bug clock scoreBar set_scoreBar set_arrow1 set_arrow2
       gameOver].
  destruct (Arrows_update_shape (gameOver g) now (arrow1 g))
    as (-> & -> & ->).
  destruct (Arrows_update_shape (gameOver g) now (arrow2 g))
    as (-> & -> & ->).
  unfold ScoreBar.update. destruct (gameOver g); reflexivity.
Qed.

Lemma Bug_update_shape game b :
  Bug.width (fst (Bug.update game b)) = Bug.width b /\
  Bug.height (fst (Bug.update game b)) = Bug.height b /\
  Bug.groundedAnchorY (fst (Bug.update game b)) = Bug.groundedAnchorY b.
Proof.
  unfold Bug.update, Bug.update_motion.
  assert (A : Bug.width (Bug.update_angle game b) = Bug.width b /\
              Bug.height (Bug.update_angle game b) = Bug.height b /\
              Bug.groundedAnchorY (Bug.update_angle game b) =
                Bug.groundedAnchorY b).
  { unfold Bug.update_angle.
    destruct (Bug.gameOver game); [|repeat split].
    cbv zeta.
    set (b1 := Bug.set_rotation _ _).
    assert (H1 : Bug.width b1 = Bug.width b) by reflexivity.
    assert (H2 : Bug.height b1 = Bug.height b) by reflexivity.
    assert (H3 : Bug.groundedAnchorY b1 = Bug.groundedAnchorY b)
      by reflexivity.
    clearbody b1.
    assert (I : Bug.width (Bug.updateIdleDeg game b1) = Bug.width b1 /\
                Bug.height (Bug.updateIdleDeg game b1) = Bug.height b1 /\
                Bug.groundedAnchorY (Bug.updateIdleDeg game b1) =
                  Bug.groundedAnchorY b1).
    { unfold Bug.updateIdleDeg. destruct (JS.gtb _ _); repeat split. }
    destruct I as (I1 & I2 & I3).
    set (b2 := Bug.updateIdleDeg game b1) in *. clearbody b2.
    repeat split; apply if_same;
      cbn [Bug.width Bug.height Bug.groundedAnchorY Bug.set_direction
           Bug.set_currentState Bug.set_rotationDeg];
      congruence. }
  destruct A as (A1 & A2 & A3).
  set (b1 := Bug.update_angle game b) in *. clearbody b1.
  assert (J : Bug.width (Bug.update_jump game b1) = Bug.width b1 /\
              Bug.height (Bug.update_jump game b1) = Bug.height b1 /\
              Bug.groundedAnchorY (Bug.update_jump game b1) =
                Bug.groundedAnchorY b1).
  { unfold Bug.update_jump.
    destruct (JS.truthy (Bug.jumpSpeed b1)); cbv zeta;
      match goal with |- context [JS.ltb ?a ?c] => destruct (JS.ltb a c) end;
      destruct (negb (Bug.gameOver game)).
    all: repeat split. }
  destruct J as (J1 & J2 & J3).
  set (b2 := Bug.update_jump game b1) in *. clearbody b2.
  unfold Bug.update_overarrow. destruct (negb _); cbn [fst];
    cbn [Bug.width Bug.height Bug.groundedAnchorY Bug.set_wereOverArrow];
    repeat split; congruence.
Qed.

Lemma scoreBar_add_shape fuel g :
  (2 <= fuel)%nat ->
  exists g', scoreBar_add fuel 1 g = Some g' /\ shape g' = shape g.
Proof.
  intros H. unfold scoreBar_add. cbn [ScoreBar.add]. unfold emit_scorebar_add.
  rewrite (on_scorebar_add_colors_spec fuel _ _ H).
  eexists. split; [reflexivity|]. unfold on_scorebar_add_speed.
  destruct (Z.rem (ScoreBar.score (scoreBar g) + 1) 5 =? 0)%Z,
           (Z.rem (ScoreBar.score (scoreBar g) + 1) 10 =? 0)%Z;
    reflexivity.
Qed.

Lemma emit_bug_overarrow_shape fuel random arrows :
  (2 <= fuel)%nat ->
  forall n g,
  exists g',
    emit_bug_overarrow fuel random n arrows g = Some g' /\ shape g' = shape g.
Proof.
  intros H. induction arrows as [|a arrows IH]; intros n g.
  - exists g. split; reflexivity.
  - cbn [emit_bug_overarrow]. unfold on_bug_overarrow.
    destruct (scoreBar_add_shape fuel g H) as (g1 & -> & S1).
    match goal with
    | |- context [emit_bug_overarrow fuel random (S n) arrows ?x] =>
        destruct (IH (S n) x) as (g2 & E2 & S2);
        assert (S0 : shape x = shape g1) by (destruct (Arrows.name a); reflexivity)
    end.
    exists g2. split; [exact E2|]. rewrite S2, S0. exact S1.
Qed.

Lemma update_bug_shape fuel random g :
  (2 <= fuel)%nat ->
  exists g', update_bug fuel random g = Some g' /\ shape g' = shape g.
Proof.
  intros H. unfold update_bug.
  destruct (Bug_update_shape (for_bug g) (bug g)) as (W & Hh & G).
  destruct (Bug.update (for_bug g) (bug g)) as [b arrows]. cbn [fst] in *.
  destruct (emit_bug_overarrow_shape fuel random arrows H 0%nat (set_bug b g))
    as (g' & E & S).
  exists g'. split; [exact E|]. rewrite S.
  unfold shape, sizes. cbn [arrow1 arrow2 bug clock scoreBar set_bug].
  rewrite W, Hh, G. reflexivity.
Qed.

Lemma update_crash_shape collided g : shape (update_crash collided g) = shape g.
Proof.
  unfold update_crash. destruct (negb (gameOver g) && collided); reflexivity.
Qed.

Lemma update_in_step fuel now random collided g :
  (2 <= fuel)%nat -> in_step g ->
  exists g', update fuel now random collided g = Some g' /\ in_step g'.
Proof.
  intros H S. rewrite update_steps.
  assert (S2 : in_step (update_clock (update_colors g))).
  { apply update_clock_in_step.
    apply (in_step_by_shape g); [apply update_colors_shape | exact S]. }
  set (g2 := update_clock (update_colors g)) in *. clearbody g2.
  pose proof (update_sprites_shape now g2) as S3.
  set (g3 := update_sprites now g2) in *. clearbody g3.
  destruct (update_bug_shape fuel random g3 H) as (g4 & -> & S4).
  exists (update_crash collided g4). split; [reflexivity|].
  apply (in_step_by_shape g2); [|exact S2].
  rewrite update_crash_shape, S4. exact S3.
Qed.

Lemma keydown_shape keyCode g : shape (keydown keyCode g) = shape g.
Proof.
  unfold keydown.
  destruct (gameOver g), (keyCode =? 38)%Z, (keyCode =? 32)%Z;
    match goal with
    | |- context [if ?c then start _ else _] => destruct c
    end; try reflexivity;
    unfold shape, sizes, Bug.jump;
    cbn [arrow1 arrow2 bug clock scoreBar set_bug start set_clock
         set_gameOver];
    destruct (Bug.isFlying (bug g) <? 2)%Z; reflexivity.
Qed.

Lemma emit_clock_reposition_shape x y g :
  shape (emit_clock_reposition x y g) = shape g.
Proof. reflexivity. Qed.

Lemma set_clock_shape c g :
  Clock.radius c = Clock.radius (clock g) -> shape (set_clock c g) = shape g.
Proof.
  intros R. unfold shape, sizes.
  cbn [arrow1 arrow2 bug clock scoreBar set_clock]. rewrite R. reflexivity.
Qed.

Lemma Clock_resize_radius radius c :
  Clock.radius (fst (Clock.resize radius c)) = radius.
Proof. reflexivity. Qed.

Lemma Clock_reposition_radius x y c :
  Clock.radius (fst (Clock.reposition x y c)) = Clock.radius c.
Proof. reflexivity. Qed.

Lemma onresize_in_step w h g :
  Arrows.name (arrow1 g) = Arrows.arrow1 ->
  Arrows.name (arrow2 g) = Arrows.arrow2 ->
  in_step (onresize w h g).
Proof.
  intros N1 N2. unfold onresize. cbv zeta.
  pose proof (Clock_resize_radius (h / 10) (clock g)) as R1.
  destruct (Clock.resize (h / 10) (clock g)) as [c1 e1]. cbn [fst] in R1.
  assert (S1 : in_step (emit_clock_resize (h / 10) (set_clock c1 g)))
    by (apply emit_clock_resize_in_step; assumption).
  set (g1 := emit_clock_resize (h / 10) (set_clock c1 g)) in *. clearbody g1.
  pose proof (Clock_reposition_radius (w / 2) (h / 2) (clock g1)) as R2.
  destruct (Clock.reposition (w / 2) (h / 2) (clock g1)) as [c2 e2].
  cbn [fst] in R2.
  apply (in_step_by_shape g1); [|exact S1].
  rewrite emit_clock_reposition_shape. apply set_clock_shape, R2.
Qed.

Lemma react_in_step fuel e g :
  (2 <= fuel)%nat -> in_step g ->
  exists g', react fuel e g = Some g' /\ in_step g'.
Proof.
  intros H S. destruct e as [now random collided|keyCode|w h]; cbn [react].
  - apply update_in_step; assumption.
  - eexists. split; [reflexivity|].
    apply (in_step_by_shape g); [apply keydown_shape | exact S].
  - eexists. split; [reflexivity|].
    destruct S as (N1 & N2 & _). apply onresize_in_step; assumption.
Qed.

Lemma run_in_step fuel es :
  (2 <= fuel)%nat ->
  forall g, in_step g -> exists g', run fuel es g = Some g' /\ in_step g'.
Proof.
  intros H. induction es as [|e es IH]; intros g S.
  - exists g. split; [reflexivity | exact S].
  - cbn [run]. destruct (react_in_step fuel e g H S) as (g1 & -> & S1).
    apply IH, S1.
Qed.

Lemma constructor_in_step now stored w h :
  exists g0, constructor now stored w h = JS.Return g0 /\ in_step g0.
Proof.
  eexists. split.
  - cbv beta iota zeta delta
        [constructor Clock.Clock ScoreBar.ScoreBar Arrows.Arrows Bug.Bug fst
         Clock.resize Clock.reposition].
    reflexivity.
  - apply onresize_in_step; reflexivity.
Qed.

(** X15.  The sizes of the sprites follow the radius of the clock:
    in the game as [new Game()] builds it, and after every run of frames,
    keys and resizes, the score bar, the two arrows and the bug have the
    sizes their listeners of [clock_resize] derive from the radius the clock
    has at that moment.  So no change of the radius, in [resize] or in
    [update] of the clock, goes without its event. *)
Theorem sizes_follow_the_radius (fuel : nat) (now : JS.Date)
    (stored : option Z) (w h : Q) (es : list event) :
  (2 <= fuel)%nat ->
  exists g0 g,
    constructor now stored w h = JS.Return g0 /\ in_step g0 /\
    run fuel es g0 = Some g /\ in_step g.
Proof.
  intros H.
  destruct (constructor_in_step now stored w h) as (g0 & E0 & S0).
  destruct (run_in_step fuel es H g0 S0) as (g & E & S).
  exists g0, g. split; [exact E0|]. split; [exact S0|]. split; [exact E | exact S].
Qed.

Lemma sizes_follow_the_radius_witness :
  exists g0 g,
    constructor (JS.mkDate 15 10) None 1280 800 = JS.Return g0 /\
    in_step g0 /\
    run 2 [Key 38; Frame (JS.mkDate 15 10) (fun _ => 1 # 2) false;
           Resize 1024 768; Frame (JS.mkDate 16 10) (fun _ => 3 # 4) true]
        g0 = Some g /\
    in_step g.
Proof.
  apply (sizes_follow_the_radius 2 (JS.mkDate 15 10) None 1280 800). lia.
Defined.

End SizesFacts.

(* ================================================================== *)
(** * Ranges and round trips *)
(* ================================================================== *)

Module RangeFacts.
Import Angle AngleFacts Frames FramesFacts Play PlayFacts.
Local Open Scope Q_scope.

(** X16.  The first two statements of every [update], with the sum
    rounded as doubles round it.  [rotationDeg %= 360] leaves a remainder
    that differs from the angle by the whole turns [trunc(r / 360)],
    carries the sign of the angle and is smaller than 360 in size.  The
    angle of the frame is this remainder when it is not negative and the
    rounded sum of the remainder and 360 otherwise; it lies between 0 and
    360, both included.  When the sum is exact it is below 360, differs
    from the given angle by whole turns, and is the only such angle from
    0 up to 360. *)
Theorem normalize_by_whole_turns (fl : Q -> Q) (r : Q) :
  rounding fl ->
  let x := JS.rem r 360 in
  x == r - 360 * inject_Z (JS.trunc (r / 360)) /\
  Qabs x < 360 /\ (0 <= r -> 0 <= x) /\ (r <= 0 -> x <= 0) /\
  (0 <= x -> normalize_rounded fl r = x) /\
  (x < 0 -> normalize_rounded fl r = fl (x + 360)) /\
  (0 <= normalize_rounded fl r /\ normalize_rounded fl r <= 360) /\
  (fl (x + 360) == x + 360 ->
   normalize_rounded fl r < 360 /\
   (exists k : Z, normalize_rounded fl r == r + 360 * inject_Z k) /\
   (forall (y : Q) (k : Z),
      0 <= y -> y < 360 -> y == r + 360 * inject_Z k ->
      y == normalize_rounded fl r)).
Proof.
  intros Fl. cbv zeta.
  destruct (rem360_bounds r) as [Hp Hn].
  assert (A : Qabs (JS.rem r 360) < 360).
  { apply Qabs_Qlt_condition.
    destruct (Qlt_le_dec 0 r) as [H0|H0];
      [specialize (Hp ltac:(lra)) | specialize (Hn H0)]; lra. }
  split; [reflexivity|]. split; [exact A|].
  split; [intros H0; apply Hp, H0|]. split; [intros H0; apply Hn, H0|].
  split.
  { intros X. unfold normalize_rounded. cbv zeta.
    destruct (JS.ltb (JS.rem r 360) 0) eqn:E; [|reflexivity].
    apply ltb_true in E. exfalso. lra. }
  split.
  { intros X. unfold normalize_rounded. cbv zeta.
    destruct (JS.ltb (JS.rem r 360) 0) eqn:E; [reflexivity|].
    apply ltb_false in E. exfalso. lra. }
  split; [apply EntityFacts.normalize_rounded_range, Fl|].
  intros Exact.
  assert (N : normalize_rounded fl r == normalize r).
  { unfold normalize_rounded, normalize. cbv zeta.
    destruct (JS.ltb (JS.rem r 360) 0); [exact Exact | reflexivity]. }
  assert (K : exists k : Z, normalize r == r + 360 * inject_Z k).
  { unfold normalize, JS.rem.
    destruct (JS.ltb (r - 360 * inject_Z (JS.trunc (r / 360))) 0).
    - exists (1 - JS.trunc (r / 360))%Z.
      unfold Z.sub. rewrite inject_Z_plus, inject_Z_opp.
      change (inject_Z 1) with 1. lra.
    - exists (- JS.trunc (r / 360))%Z. rewrite inject_Z_opp. lra. }
  pose proof (normalize_range r) as R.
  split; [rewrite N; apply R|].
  split; [destruct K as (k & E); exists k; rewrite N; exact E|].
  intros y k Y0 Y1 E. destruct K as (k0 & E0). rewrite N.
  assert (C : k = k0).
  { apply inject_Z_close; lra. }
  subst k0. lra.
Qed.

Lemma normalize_by_whole_turns_witness :
  0 <= normalize_rounded nearest_double (- (1 # 2 ^ 48)) /\
  normalize_rounded nearest_double (- (1 # 2 ^ 48)) <= 360.
Proof.
  destruct (normalize_by_whole_turns nearest_double (- (1 # 2 ^ 48))
              EntityFacts.nearest_double_rounding)
    as (_ & _ & _ & _ & _ & _ & Range & _).
  exact Range.
Defined.

(** X17.  At every time of the day the angles of rest lie in the range
    from 0 to 360: 6 degrees a minute for the first arrow, 30 degrees an
    hour (of twelve) and half a degree a minute for the second, and for the
    bug the angle it derives from these two. *)
Theorem idle_angles_in_range (now : JS.Date) (a1 a2 : Arrows.Sprite)
    (gameOver : bool) (clock : Clock.Sprite) (b : Bug.Sprite) :
  time_of_day now ->
  Arrows.name a1 = Arrows.arrow1 -> Arrows.name a2 = Arrows.arrow2 ->
  let a1' := Arrows.updateIdleDeg now a1 in
  let a2' := Arrows.updateIdleDeg now a2 in
  let b' := Bug.updateIdleDeg (Bug.mkGame gameOver clock a1' a2') b in
  Arrows.idleDeg a1' == 6 * inject_Z (JS.getMinutes now) /\
  Arrows.idleDeg a2' ==
    30 * inject_Z (Z.rem (JS.getHours now) 12) +
    (1 # 2) * inject_Z (JS.getMinutes now) /\
  (0 <= Arrows.idleDeg a1' /\ Arrows.idleDeg a1' < 360) /\
  (0 <= Arrows.idleDeg a2' /\ Arrows.idleDeg a2' < 360) /\
  (0 <= Bug.idleDeg b' /\ Bug.idleDeg b' < 360).
Proof.
  intros T N1 N2. cbv zeta.
  pose proof (Arrows_idleDeg_formula now a1) as F1. rewrite N1 in F1.
  pose proof (Arrows_idleDeg_formula now a2) as F2. rewrite N2 in F2.
  pose proof (Arrows_idleDeg_range now a1 T) as R1.
  pose proof (Arrows_idleDeg_range now a2 T) as R2.
  split; [exact F1|]. split; [exact F2|]. split; [exact R1|].
  split; [exact R2|].
  rewrite Bug_idleDeg_formula. cbn [Bug.arrow1 Bug.arrow2].
  apply bug_idle_range; [apply R1 | apply R2].
Qed.

Lemma idle_angles_in_range_witness :
  0 <= Bug.idleDeg
         (Bug.updateIdleDeg
            (Bug.mkGame true Cases.clock
               (Arrows.updateIdleDeg (JS.mkDate 59 23) Arrows.literal1)
               (Arrows.updateIdleDeg (JS.mkDate 59 23) Arrows.literal2))
            Bug.literal) /\
  Bug.idleDeg
    (Bug.updateIdleDeg
       (Bug.mkGame true Cases.clock
          (Arrows.updateIdleDeg (JS.mkDate 59 23) Arrows.literal1)
          (Arrows.updateIdleDeg (JS.mkDate 59 23) Arrows.literal2))
       Bug.literal) < 360.
Proof.
  destruct (idle_angles_in_range (JS.mkDate 59 23) Arrows.literal1
              Arrows.literal2 true Cases.clock Bug.literal)
    as (_ & _ & _ & _ & R).
  - unfold time_of_day. cbn. lia.
  - reflexivity.
  - reflexivity.
  - exact R.
Defined.

Import ColorSchemes ColorFacts ColorRuns ColorRunFacts.
Local Open Scope Z_scope.

(** X18.  Writing a colour and reading it are inverse to each other:
    three channels from 0 to 255, written the way [transitionColor] writes
    its values, read back as the same channels; and a colour [#rrggbb] read
    and written again is the colour itself, in small letters. *)
Theorem colours_read_back :
  (forall r g b : Z,
     0 <= r <= 255 -> 0 <= g <= 255 -> 0 <= b <= 255 ->
     channels (colour r g b) = (Int r, Int g, Int b)) /\
  (forall s : string,
     is_hex_colour s = true ->
     exists r g b : Z,
       (0 <= r <= 255 /\ 0 <= g <= 255 /\ 0 <= b <= 255) /\
       channels s = (Int r, Int g, Int b) /\
       colour r g b = lowercase s).
Proof.
  split.
  - intros r g b Hr Hg Hb. apply channels_of_colour; assumption.
  - intros s H.
    destruct (hex_colour_channels s H) as (r & g & b & Hr & Hg & Hb & C & W).
    exists r, g, b. repeat split; try assumption; lia.
Qed.

End RangeFacts.

(* ================================================================== *)
(** * Properties of the games a run reaches *)
(* ================================================================== *)

Module ReachFacts.
Import Game GameFacts EntityFacts Frames Play PlayFacts Reach.
Local Open Scope Q_scope.

(** ** The pace through the steps of a frame *)













(** ** The pace through a run *)





(** ** The game [new Game()] builds *)










(** ** The arrows under the bug, in the frames of a run *)



End ReachFacts.
